(** * HighsHashTree: a hash-array-mapped trie with size-classed leaves

    Shallow embedding of [src/util/HighsHashTree.h] and proofs about its
    hash-chunk primitives, occupation masks, inner leaves, list leaves,
    branch nodes and the recursive tree operations.

    Conventions of the embedding:
    - [uint64_t] values (hashes, occupation masks) are [Z] with the
      wrap-around modulo [2^64] written out where an operation can overflow;
    - [int] and [uint8_t] values (chunks, counts, array positions) are [Z];
    - the live prefix [entries[0..size)] of a leaf's array is a [list];
    - the child array of a branch is a [list] of nodes;
    - an operation whose C++ behaviour is undefined (null dereference,
      out-of-bounds array access, failed [assert(false)]) returns [None]. *)

From Stdlib Require Import ZArith List Bool Lia Arith.
Import ListNotations.

Local Open Scope Z_scope.

(** ** Constants *)

Definition kBitsPerLevel : Z := 6.
Definition kBranchFactor : Z := Z.shiftl 1 kBitsPerLevel.
Definition kMaxDepth : Z := (64 + (kBitsPerLevel - 1)) / kBitsPerLevel.
Definition kMinLeafSize : Z := 6.
Definition kLeafBurstThreshold : Z := 30.

Definition wrap64 (x : Z) : Z := x mod 2 ^ 64.

(** ** Hash chunks *)

Definition get_hash_chunk (hash : Z) (pos : Z) : Z :=
  Z.land (Z.shiftr hash (pos * kBitsPerLevel)) (kBranchFactor - 1).

Definition set_hash_chunk (hash chunk chunkPos : Z) : Z :=
  let shiftAmount := chunkPos * kBitsPerLevel in
  let chunk' := Z.lxor chunk (Z.land (Z.shiftr hash shiftAmount) (kBranchFactor - 1)) in
  Z.lxor hash (wrap64 (Z.shiftl chunk' shiftAmount)).

Definition get_first_n_hash_chunks (hash n : Z) : Z :=
  Z.land hash (wrap64 (Z.shiftl 1 (n * kBitsPerLevel) - 1)).

(** ** Bit counting *)

(** The positions [lo, lo+1, ..., lo+len-1]. *)
Definition zrange (lo : Z) (len : nat) : list Z :=
  map (fun k => lo + Z.of_nat k) (seq 0 len).

(** Number of set bits of [m] among the [len] positions starting at [lo]. *)
Definition bits_between (m lo : Z) (len : nat) : Z :=
  Z.of_nat (length (filter (Z.testbit m) (zrange lo len))).

(** Modelled from the spec: [HighsHashHelpers::popcnt] lives in
    [util/HighsHash.h], which is not part of the sources at hand; the
    specification uses it as the population count of a 64-bit word. *)
Definition popcnt (x : Z) : Z := bits_between x 0 64.

(** Modelled from the spec: [HighsHashHelpers::log2i] lives in
    [util/HighsHash.h]; the specification uses it to walk the bits of a mask
    from the most significant one down, i.e. as the index of the highest
    set bit. *)
Definition log2i (x : Z) : Z := Z.log2 x.

(** ** Occupation masks *)

Module Occupation.

Definition set (occupation pos : Z) : Z := Z.lor occupation (Z.shiftl 1 pos).

Definition flip (occupation pos : Z) : Z := Z.lxor occupation (Z.shiftl 1 pos).

Definition test (occupation pos : Z) : bool :=
  negb (Z.land occupation (Z.shiftl 1 pos) =? 0).

Definition num_set_until (occupation pos : Z) : Z :=
  popcnt (Z.shiftr occupation pos).

Definition num_set_after (occupation pos : Z) : Z :=
  popcnt (wrap64 (Z.shiftl occupation (63 - pos))).

Definition num_set (occupation : Z) : Z := popcnt occupation.

End Occupation.


(** ** Undefined behaviour as [None] *)

Notation "x <- c1 ;; c2" :=
  (match c1 with Some x => c2 | None => None end)
  (at level 61, c1 at next level, right associativity).
Notation "' pat <- c1 ;; c2" :=
  (match c1 with Some pat => c2 | None => None end)
  (at level 61, pat pattern, c1 at next level, right associativity).

(** ** Entries

    [HighsHashTableEntry<K, V>]: keys are integers with their usual order,
    the value type is arbitrary. *)

Record HighsHashTableEntry (V : Type) : Type := mkEntry { key : Z; value : V }.
Arguments mkEntry {V} _ _.
Arguments key {V} _.
Arguments value {V} _.

(** ** Node types *)

Inductive Type_ : Set :=
| kEmpty | kListLeaf
| kInnerLeafSizeClass1 | kInnerLeafSizeClass2
| kInnerLeafSizeClass3 | kInnerLeafSizeClass4
| kBranchNode.

Definition Type_tag (t : Type_) : Z :=
  match t with
  | kEmpty => 0 | kListLeaf => 1
  | kInnerLeafSizeClass1 => 2 | kInnerLeafSizeClass2 => 3
  | kInnerLeafSizeClass3 => 4 | kInnerLeafSizeClass4 => 5
  | kBranchNode => 6
  end.

Inductive SizeClass : Set := Class1 | Class2 | Class3 | Class4.

Definition kSizeClass (c : SizeClass) : Z :=
  match c with Class1 => 1 | Class2 => 2 | Class3 => 3 | Class4 => 4 end.

Definition SizeClass_eqb (a b : SizeClass) : bool := kSizeClass a =? kSizeClass b.

(** [InnerLeaf<kSizeClass>::capacity()] *)
Definition capacity (c : SizeClass) : Z :=
  kMinLeafSize + (kSizeClass c - 1) * (kLeafBurstThreshold - kMinLeafSize) / 3.

Section Nodes.

Context {V : Type}.

(** [HighsHashHelpers::hash], from [util/HighsHash.h]; the tree only uses
    it as a fixed function from keys to 64-bit words. *)
Variable hash : Z -> Z.

#[local] Abbreviation Entry := (HighsHashTableEntry V).

(** *** Inner leaves

    [entries] is the live prefix [entries[0..size)] of the leaf's array;
    [size] is its length. *)
Record InnerLeaf : Type := mkInnerLeaf { occupation : Z; entries : list Entry }.

Definition size (leaf : InnerLeaf) : Z := Z.of_nat (length (entries leaf)).

(** A default-constructed [InnerLeaf]. *)
Definition new_InnerLeaf : InnerLeaf := mkInnerLeaf 0 [].

(** The scan of [insert_entry] when the occupation bit is already set: stop
    at the first entry whose key is not below the new key; [None] reports a
    key that is already stored. Reaching the end appends. *)
Fixpoint insert_occupied (entry : Entry) (l : list Entry) : option (list Entry) :=
  match l with
  | [] => Some [entry]
  | x :: l' =>
      if key entry <=? key x then
        if key entry =? key x then None else Some (entry :: x :: l')
      else option_map (cons x) (insert_occupied entry l')
  end.

(** The scan of [insert_entry] when the occupation bit was clear: the entry
    goes in front of the first entry with a strictly larger key. *)
Fixpoint insert_fresh (entry : Entry) (l : list Entry) : list Entry :=
  match l with
  | [] => [entry]
  | x :: l' =>
      if key entry <? key x then entry :: x :: l' else x :: insert_fresh entry l'
  end.

(** [InnerLeaf::insert_entry]. The result is the return value and the leaf
    afterwards. Undefined when the array is full ([assert(size <
    capacity())]) and when the bit is set on a leaf without entries (the
    scan then reads a dead slot). *)
Definition insert_entry (c : SizeClass) (leaf : InnerLeaf)
           (hash_ : Z) (hashPos : Z) (entry : Entry) : option (bool * InnerLeaf) :=
  if capacity c <=? size leaf then None else
  let hashChunk := get_hash_chunk hash_ hashPos in
  if Occupation.test (occupation leaf) hashChunk then
    match entries leaf with
    | [] => None
    | _ =>
        match insert_occupied entry (entries leaf) with
        | None => Some (false, leaf)
        | Some l => Some (true, mkInnerLeaf (occupation leaf) l)
        end
    end
  else
    Some (true, mkInnerLeaf (Occupation.set (occupation leaf) hashChunk)
                            (insert_fresh entry (entries leaf))).

(** The scan of [find_entry]: the outer [None] is the source's read past
    the live entries of an empty array. *)
Fixpoint find_scan (k : Z) (l : list Entry) : option V :=
  match l with
  | [] => None
  | x :: l' =>
      if k <=? key x then (if k =? key x then Some (value x) else None)
      else find_scan k l'
  end.

(** [InnerLeaf::find_entry]: [Some None] is the null pointer. *)
Definition find_entry (leaf : InnerLeaf) (hash_ hashPos : Z) (k : Z)
  : option (option V) :=
  let hashChunk := get_hash_chunk hash_ hashPos in
  if negb (Occupation.test (occupation leaf) hashChunk) then Some None else
  match entries leaf with
  | [] => None
  | _ => Some (find_scan k (entries leaf))
  end.

(** The single pass of [erase_entry] over the entries: returns the entries
    that remain, [foundElement] and [foundHashChunk]. An entry visited after
    the element was found is moved one slot to the left; the found element
    itself is overwritten by its successor or cut off by the size
    decrement. *)
Fixpoint erase_loop (hashChunk hashPos k : Z) (l : list Entry)
         (foundElement : bool) (foundHashChunk : Z) : list Entry * bool * Z :=
  match l with
  | [] => ([], foundElement, foundHashChunk)
  | x :: l' =>
      let chunk := get_hash_chunk (hash (key x)) hashPos in
      let foundHashChunk' := foundHashChunk + (if chunk =? hashChunk then 1 else 0) in
      if negb (foundHashChunk' =? 0) then
        if foundElement then
          let '(r, fe, fc) := erase_loop hashChunk hashPos k l' true foundHashChunk' in
          (x :: r, fe, fc)
        else if k =? key x then
          erase_loop hashChunk hashPos k l' true foundHashChunk'
        else
          let '(r, fe, fc) := erase_loop hashChunk hashPos k l' false foundHashChunk' in
          (x :: r, fe, fc)
      else
        let '(r, fe, fc) := erase_loop hashChunk hashPos k l' foundElement foundHashChunk' in
        (x :: r, fe, fc)
  end.

(** [InnerLeaf::erase_entry] *)
Definition erase_entry (leaf : InnerLeaf) (hash_ hashPos : Z) (k : Z)
  : option (bool * InnerLeaf) :=
  let hashChunk := get_hash_chunk hash_ hashPos in
  if negb (Occupation.test (occupation leaf) hashChunk) then Some (false, leaf) else
  match entries leaf with
  | [] => None
  | _ =>
      let '(r, foundElement, foundHashChunk) :=
        erase_loop hashChunk hashPos k (entries leaf) false 0 in
      if foundElement then
        let occ := if foundHashChunk =? 1
                   then Occupation.flip (occupation leaf) hashChunk
                   else occupation leaf in
        Some (true, mkInnerLeaf occ r)
      else Some (false, leaf)
  end.

(** *** List leaves and tagged node pointers

    A list leaf is its [first] node, the chain hanging off [first.next]
    and the [count] field. *)
#[warnings="-register-all"]
Inductive NodePtr : Type :=
| Empty
| ListLeafPtr (first : Entry) (next : list Entry) (count : Z)
| InnerLeafPtr (c : SizeClass) (leaf : InnerLeaf)
| BranchPtr (occupation : Z) (child : list NodePtr).

Definition getType (n : NodePtr) : Type_ :=
  match n with
  | Empty => kEmpty
  | ListLeafPtr _ _ _ => kListLeaf
  | InnerLeafPtr Class1 _ => kInnerLeafSizeClass1
  | InnerLeafPtr Class2 _ => kInnerLeafSizeClass2
  | InnerLeafPtr Class3 _ => kInnerLeafSizeClass3
  | InnerLeafPtr Class4 _ => kInnerLeafSizeClass4
  | BranchPtr _ _ => kBranchNode
  end.

Definition numEntriesEstimate (n : NodePtr) : Z :=
  match n with
  | Empty => 0
  | ListLeafPtr _ _ _ => 1
  | InnerLeafPtr c _ => capacity c
  | BranchPtr _ _ => kBranchFactor
  end.

Definition numEntries (n : NodePtr) : Z :=
  match n with
  | Empty => 0
  | ListLeafPtr _ _ count => count
  | InnerLeafPtr _ leaf => size leaf
  | BranchPtr _ _ => kBranchFactor
  end.

(** Reading and writing [branch->child[i]]; outside the array both are
    undefined. *)
Definition child_at (child : list NodePtr) (i : Z) : option NodePtr :=
  if i <? 0 then None else nth_error child (Z.to_nat i).

Fixpoint list_set {A} (l : list A) (i : nat) (a : A) : list A :=
  match l, i with
  | [], _ => []
  | _ :: l', O => a :: l'
  | x :: l', S i' => x :: list_set l' i' a
  end.

Definition child_set (child : list NodePtr) (i : Z) (n : NodePtr)
  : option (list NodePtr) :=
  if (0 <=? i) && (i <? Z.of_nat (length child))
  then Some (list_set child (Z.to_nat i) n) else None.

(** [mergeIntoLeaf(leaf, mergeLeaf, hashPos)]: re-insert a sequence of
    entries, each under the hash of its own key; the return values of
    [insert_entry] are dropped as in the source. *)
Fixpoint mergeEntries (c : SizeClass) (leaf : InnerLeaf) (hashPos : Z)
         (l : list Entry) : option InnerLeaf :=
  match l with
  | [] => Some leaf
  | x :: l' =>
      '(_, leaf') <- insert_entry c leaf (hash (key x)) hashPos x ;;
      mergeEntries c leaf' hashPos l'
  end.

(** [mergeIntoLeaf(leaf, hashPos, mergeNode)]: the switch has no arm for
    empty and branch nodes, which leaves the leaf as it is. *)
Definition mergeIntoLeaf (c : SizeClass) (leaf : InnerLeaf) (hashPos : Z)
           (mergeNode : NodePtr) : option InnerLeaf :=
  match mergeNode with
  | ListLeafPtr first next _ => mergeEntries c leaf hashPos (first :: next)
  | InnerLeafPtr _ mergeLeaf => mergeEntries c leaf hashPos (entries mergeLeaf)
  | Empty | BranchPtr _ _ => Some leaf
  end.

(** The two-pointer loop of [findCommonInLeaf] over two sorted arrays. *)
Fixpoint common_loop (l1 : list Entry) : list Entry -> option Entry :=
  fix inner (l2 : list Entry) : option Entry :=
    match l1, l2 with
    | x :: l1', y :: l2' =>
        if key x <? key y then common_loop l1' l2
        else if key y <? key x then inner l2'
        else Some x
    | _, _ => None
    end.

(** [findCommonInLeaf(leaf1, leaf2)]: undefined on a leaf without entries
    (the range test reads [entries[size - 1]]). *)
Definition findCommonInLeaf2 (leaf1 leaf2 : InnerLeaf) : option (option Entry) :=
  if Z.land (occupation leaf1) (occupation leaf2) =? 0 then Some None else
  match entries leaf1, entries leaf2 with
  | x :: _, y :: _ =>
      if (key (last (entries leaf1) x) <? key y)
         || (key (last (entries leaf2) y) <? key x)
      then Some None
      else Some (common_loop (entries leaf1) (entries leaf2))
  | _, _ => None
  end.

(** *** Branch nodes

    The allocation bucket of a branch ([getBranchNodeSize]) decides between
    moving the children in place and copying them into a new block; both
    arms produce the same child array, which is all the embedding keeps. *)

(** [get_hash_chunk(hash, hashPos)] shifts a 64-bit word by [6 * hashPos]
    bits, which is defined for [0 <= hashPos < kMaxDepth] only. The tree
    operations are undefined where they would take a chunk further down. *)
Definition chunk_defined (hashPos : Z) : bool :=
  (0 <=? hashPos) && (hashPos <? kMaxDepth).

(** The first [n] slots of a child array. *)
Definition child_prefix (child : list NodePtr) (n : Z) : option (list NodePtr) :=
  if (0 <=? n) && (n <=? Z.of_nat (length child))
  then Some (firstn (Z.to_nat n) child) else None.

(** [addChildToBranchNode], together with the caller's
    [branch->child[location] = nullptr]. *)
Definition addChildToBranchNode (occupation : Z) (child : list NodePtr)
           (hashValue : Z) (location : Z) : option (list NodePtr) :=
  let rightChilds := Occupation.num_set_after occupation hashValue in
  left <- child_prefix child location ;;
  right <- child_prefix (skipn (Z.to_nat location) child) rightChilds ;;
  Some (left ++ Empty :: right).

(** The first loop of [removeChildFromBranchNode]: sum the estimates and
    stop as soon as the sum exceeds the burst threshold. *)
Fixpoint estimate_loop (slots : list NodePtr) (childEntries : Z) : Z :=
  match slots with
  | [] => childEntries
  | n :: slots' =>
      let childEntries' := childEntries + numEntriesEstimate n in
      if kLeafBurstThreshold <? childEntries' then childEntries'
      else estimate_loop slots' childEntries'
  end.

Definition sum_numEntries (slots : list NodePtr) : Z :=
  fold_left (fun acc n => acc + numEntries n) slots 0.

Fixpoint merge_children (c : SizeClass) (leaf : InnerLeaf) (hashPos : Z)
         (slots : list NodePtr) : option InnerLeaf :=
  match slots with
  | [] => Some leaf
  | n :: slots' =>
      leaf' <- mergeIntoLeaf c leaf hashPos n ;;
      merge_children c leaf' hashPos slots'
  end.

(** The size class picked by [switch ((n + 1) / 8)]; a value without an
    arm leaves the node pointer unset. *)
Definition class_for (n : Z) : option SizeClass :=
  match (n + 1) / 8 with
  | 0 => Some Class1
  | 1 => Some Class2
  | 2 => Some Class3
  | 3 => Some Class4
  | _ => None
  end.

(** [removeChildFromBranchNode(branch, location, hash, hashPos)]:
    [occupation] already has the bit of the removed child cleared, [child]
    still holds the emptied slot at [location]. *)
Definition removeChildFromBranchNode (occupation : Z) (child : list NodePtr)
           (location hashPos : Z) : option NodePtr :=
  let newNumChild := Occupation.num_set occupation in
  slots <- child_prefix child (newNumChild + 1) ;;
  let compact :=
    if (0 <=? location) && (location <=? newNumChild)
    then Some (BranchPtr occupation
                 (firstn (Z.to_nat location) slots
                  ++ skipn (Z.to_nat location + 1) slots))
    else None in
  if newNumChild * capacity Class1 <=? kLeafBurstThreshold then
    if estimate_loop slots 0 <? kLeafBurstThreshold then
      let childEntries := sum_numEntries slots in
      if childEntries <? kLeafBurstThreshold then
        c <- class_for childEntries ;;
        leaf <- merge_children c new_InnerLeaf hashPos slots ;;
        Some (InnerLeafPtr c leaf)
      else compact
    else compact
  else compact.

(** *** Insertion *)

Definition next_class (c : SizeClass) : SizeClass :=
  match c with Class1 => Class2 | Class2 => Class3 | _ => Class4 end.

Definition prev_class (c : SizeClass) : SizeClass :=
  match c with Class4 => Class3 | Class3 => Class2 | _ => Class1 end.

Definition is_some {A} (o : option A) : bool :=
  match o with Some _ => true | None => false end.

(** [insert_into_leaf] for the size classes 1 to 3. *)
Definition insert_into_leaf (c : SizeClass) (leaf : InnerLeaf)
           (hash_ hashPos : Z) (entry : Entry) : option (bool * NodePtr) :=
  if size leaf =? capacity c then
    found <- find_entry leaf hash_ hashPos (key entry) ;;
    if is_some found then Some (false, InnerLeafPtr c leaf) else
    newLeaf <- mergeEntries (next_class c) new_InnerLeaf hashPos (entries leaf) ;;
    '(b, newLeaf') <- insert_entry (next_class c) newLeaf hash_ hashPos entry ;;
    Some (b, InnerLeafPtr (next_class c) newLeaf')
  else
    '(b, leaf') <- insert_entry c leaf hash_ hashPos entry ;;
    Some (b, InnerLeafPtr c leaf').

(** The scan of a list leaf's chain for a key. *)
Definition chain_has (k : Z) (chain : list Entry) : bool :=
  existsb (fun x => key x =? k) chain.

(** The burst at the last level: every old entry goes to [child[pos]],
    where [pos] is the slot computed once for the incoming entry. *)
Fixpoint burst_list_loop (child : list NodePtr) (pos : Z) (l : list Entry)
  : option (list NodePtr) :=
  match l with
  | [] => Some child
  | x :: l' =>
      n <- child_at child pos ;;
      child' <- match n with
                | Empty => child_set child pos (ListLeafPtr x [] 1)
                | ListLeafPtr first next count =>
                    child_set child pos (ListLeafPtr x (first :: next) (count + 1))
                | _ => None
                end ;;
      burst_list_loop child' pos l'
  end.

(** Insert one entry into the inner leaf at [child[pos]], one level below
    [hashPos]. *)
Definition insert_into_child (child : list NodePtr) (pos : Z)
           (hash_ hashPos : Z) (x : Entry) : option (list NodePtr) :=
  n <- child_at child pos ;;
  match n with
  | InnerLeafPtr c leaf =>
      '(_, leaf') <- insert_entry c leaf hash_ (hashPos + 1) x ;;
      child_set child pos (InnerLeafPtr c leaf')
  | _ => None
  end.

(** The loops that hand the old entries of a burst leaf to the new
    children, each by the chunk of its own hash at [hashPos]. *)
Fixpoint distribute (occupation : Z) (child : list NodePtr) (hashPos : Z)
         (l : list Entry) : option (list NodePtr) :=
  match l with
  | [] => Some child
  | x :: l' =>
      let pos := Occupation.num_set_until occupation
                   (get_hash_chunk (hash (key x)) hashPos) - 1 in
      child' <- insert_into_child child pos (hash (key x)) hashPos x ;;
      distribute occupation child' hashPos l'
  end.

(** [sizes[pos] += 1]; outside the [branchSize] slots cleared by [memset]
    the array holds no defined value. *)
Definition sizes_incr (sizes : list Z) (pos : Z) : option (list Z) :=
  if (0 <=? pos) && (pos <? Z.of_nat (length sizes))
  then Some (list_set sizes (Z.to_nat pos) (nth (Z.to_nat pos) sizes 0 + 1))
  else None.

Fixpoint count_sizes (occupation : Z) (sizes : list Z) (hashPos : Z)
         (l : list Entry) : option (list Z) :=
  match l with
  | [] => Some sizes
  | x :: l' =>
      let pos := Occupation.num_set_until occupation
                   (get_hash_chunk (hash (key x)) hashPos) - 1 in
      sizes' <- sizes_incr sizes pos ;;
      count_sizes occupation sizes' hashPos l'
  end.

Fixpoint alloc_children (sizes : list Z) : option (list NodePtr) :=
  match sizes with
  | [] => Some []
  | s :: sizes' =>
      c <- class_for s ;;
      rest <- alloc_children sizes' ;;
      Some (InnerLeafPtr c new_InnerLeaf :: rest)
  end.

(** [insert_recurse]: the node stored at [*insertNode] before the call, and
    the return value with the node stored there afterwards. Every recursive
    call goes one level down, so [fuel] bounds the depth. *)
Fixpoint insert_recurse (fuel : nat) (node : NodePtr) (hash_ hashPos : Z)
         (entry : Entry) {struct fuel} : option (bool * NodePtr) :=
  match fuel with
  | O => None
  | S fuel' =>
    match node with
    | Empty =>
        if hashPos =? kMaxDepth then Some (true, ListLeafPtr entry [] 1)
        else if negb (chunk_defined hashPos) then None
        else
          '(_, leaf) <- insert_entry Class1 new_InnerLeaf hash_ hashPos entry ;;
          Some (true, InnerLeafPtr Class1 leaf)
    | ListLeafPtr first next count =>
        if chain_has (key entry) (first :: next) then Some (false, node)
        else Some (true, ListLeafPtr first (next ++ [entry]) (count + 1))
    | InnerLeafPtr Class4 leaf =>
        if negb (chunk_defined hashPos) then None else
        if size leaf <? capacity Class4 then
          '(b, leaf') <- insert_entry Class4 leaf hash_ hashPos entry ;;
          Some (b, InnerLeafPtr Class4 leaf')
        else
          found <- find_entry leaf hash_ hashPos (key entry) ;;
          if is_some found then Some (false, node) else
          let hashChunk := get_hash_chunk hash_ hashPos in
          let occupation := Occupation.set (occupation leaf) hashChunk in
          let branchSize := Occupation.num_set occupation in
          if hashPos + 1 =? kMaxDepth then
            let child := repeat Empty (Z.to_nat branchSize) in
            let pos := Occupation.num_set_until occupation hashChunk - 1 in
            child <- child_set child pos (ListLeafPtr entry [] 1) ;;
            child <- burst_list_loop child pos (entries leaf) ;;
            Some (true, BranchPtr occupation child)
          else if 1 <? branchSize then
            let maxEntriesPerLeaf := 2 + size leaf - branchSize in
            if maxEntriesPerLeaf <=? capacity Class1 then
              let child := repeat (InnerLeafPtr Class1 new_InnerLeaf)
                                  (Z.to_nat branchSize) in
              let pos := Occupation.num_set_until occupation hashChunk - 1 in
              child <- insert_into_child child pos hash_ hashPos entry ;;
              child <- distribute occupation child hashPos (entries leaf) ;;
              Some (true, BranchPtr occupation child)
            else
              let sizes := repeat 0 (Z.to_nat branchSize) in
              sizes <- sizes_incr sizes
                         (Occupation.num_set_until occupation hashChunk - 1) ;;
              sizes <- count_sizes occupation sizes hashPos (entries leaf) ;;
              child <- alloc_children sizes ;;
              child <- distribute occupation child hashPos (entries leaf) ;;
              let pos := Occupation.num_set_until occupation hashChunk - 1 in
              n <- child_at child pos ;;
              '(b, n') <- insert_recurse fuel' n hash_ (hashPos + 1) entry ;;
              child <- child_set child pos n' ;;
              Some (b, BranchPtr occupation child)
          else
            '(b, n') <- insert_recurse fuel' node hash_ (hashPos + 1) entry ;;
            Some (b, BranchPtr occupation [n'])
    | InnerLeafPtr c leaf =>
        if negb (chunk_defined hashPos) then None
        else insert_into_leaf c leaf hash_ hashPos entry
    | BranchPtr occupation child =>
        if negb (chunk_defined hashPos) then None else
        let hashChunk := get_hash_chunk hash_ hashPos in
        let location := Occupation.num_set_until occupation hashChunk in
        '(location, occupation, child) <-
          (if Occupation.test occupation hashChunk
           then Some (location - 1, occupation, child)
           else
             child' <- addChildToBranchNode occupation child hashChunk location ;;
             Some (location, Occupation.set occupation hashChunk, child')) ;;
        n <- child_at child location ;;
        '(b, n') <- insert_recurse fuel' n hash_ (hashPos + 1) entry ;;
        child <- child_set child location n' ;;
        Some (b, BranchPtr occupation child)
    end
  end.

(** *** Erasure *)

(** The loop of [erase_recurse] over the nodes of a list leaf: [first] and
    the chain behind it after the loop, and whether the key was met. The
    node holding the key takes over the contents of its successor; without
    a successor the node is left as it is. *)
Fixpoint erase_chain (k : Z) (first : Entry) (next : list Entry)
  : bool * Entry * list Entry :=
  if key first =? k then
    match next with
    | [] => (true, first, [])
    | y :: next' => (true, y, next')
    end
  else
    match next with
    | [] => (false, first, [])
    | y :: next' =>
        let '(found, y', next'') := erase_chain k y next' in
        (found, first, y' :: next'')
    end.

Definition isEmpty (n : NodePtr) : bool :=
  match n with Empty => true | _ => false end.

Fixpoint erase_recurse (fuel : nat) (node : NodePtr) (hash_ hashPos : Z)
         (k : Z) {struct fuel} : option NodePtr :=
  match fuel with
  | O => None
  | S fuel' =>
    match node with
    | Empty => Some Empty
    | ListLeafPtr first next count =>
        let '(found, first', next') := erase_chain k first next in
        let count' := if found then count - 1 else count in
        if count' =? 0 then Some Empty
        else Some (ListLeafPtr first' next' count')
    | InnerLeafPtr Class1 leaf =>
        if negb (chunk_defined hashPos) then None else
        '(erased, leaf') <- erase_entry leaf hash_ hashPos k ;;
        if erased && (size leaf' =? 0) then Some Empty
        else Some (InnerLeafPtr Class1 leaf')
    | InnerLeafPtr c leaf =>
        if negb (chunk_defined hashPos) then None else
        '(erased, leaf') <- erase_entry leaf hash_ hashPos k ;;
        if erased && (size leaf' =? capacity (prev_class c)) then
          newLeaf <- mergeEntries (prev_class c) new_InnerLeaf hashPos
                       (entries leaf') ;;
          Some (InnerLeafPtr (prev_class c) newLeaf)
        else Some (InnerLeafPtr c leaf')
    | BranchPtr occupation child =>
        if negb (chunk_defined hashPos) then None else
        let hashChunk := get_hash_chunk hash_ hashPos in
        if negb (Occupation.test occupation hashChunk) then Some node else
        let location := Occupation.num_set_until occupation hashChunk - 1 in
        n <- child_at child location ;;
        n' <- erase_recurse fuel' n hash_ (hashPos + 1) k ;;
        child' <- child_set child location n' ;;
        if negb (isEmpty n') then Some (BranchPtr occupation child')
        else removeChildFromBranchNode (Occupation.flip occupation hashChunk)
               child' location hashPos
    end
  end.

(** *** Lookup *)

Fixpoint find_chain (k : Z) (chain : list Entry) : option V :=
  match chain with
  | [] => None
  | x :: chain' => if key x =? k then Some (value x) else find_chain k chain'
  end.

Fixpoint find_recurse (fuel : nat) (node : NodePtr) (hash_ hashPos : Z)
         (k : Z) {struct fuel} : option (option V) :=
  match fuel with
  | O => None
  | S fuel' =>
    match node with
    | Empty => Some None
    | ListLeafPtr first next _ => Some (find_chain k (first :: next))
    | InnerLeafPtr _ leaf =>
        if negb (chunk_defined hashPos) then None
        else find_entry leaf hash_ hashPos k
    | BranchPtr occupation child =>
        if negb (chunk_defined hashPos) then None else
        let hashChunk := get_hash_chunk hash_ hashPos in
        if negb (Occupation.test occupation hashChunk) then Some None else
        let location := Occupation.num_set_until occupation hashChunk - 1 in
        n <- child_at child location ;;
        find_recurse fuel' n hash_ (hashPos + 1) k
    end
  end.

(** Recursion depth that covers the levels [0 .. kMaxDepth]. *)
Definition max_fuel : nat := Z.to_nat kMaxDepth + 1.

(** *** Intersection *)

(** Probe the entries of one side against the other node with
    [find_recurse], in order; the first hit is returned. *)
Fixpoint find_common_probe (n2 : NodePtr) (hashPos : Z) (l : list Entry)
  : option (option Entry) :=
  match l with
  | [] => Some None
  | x :: l' =>
      r <- find_recurse max_fuel n2 (hash (key x)) hashPos (key x) ;;
      if is_some r then Some (Some x) else find_common_probe n2 hashPos l'
  end.

(** [findCommonInLeaf(leaf, n2, hashPos)] *)
Definition findCommonInLeaf (leaf : InnerLeaf) (n2 : NodePtr) (hashPos : Z)
  : option (option Entry) :=
  match n2 with
  | InnerLeafPtr _ leaf2 => findCommonInLeaf2 leaf leaf2
  | BranchPtr _ _ => find_common_probe n2 hashPos (entries leaf)
  | _ => Some None
  end.

Fixpoint find_common_recurse (fuel : nat) (n1 n2 : NodePtr) (hashPos : Z)
         {struct fuel} : option (option Entry) :=
  match fuel with
  | O => None
  | S fuel' =>
    let '(n1, n2) :=
      if Type_tag (getType n2) <? Type_tag (getType n1)
      then (n2, n1) else (n1, n2) in
    match n1 with
    | Empty => Some None
    | ListLeafPtr first next _ => find_common_probe n2 hashPos (first :: next)
    | InnerLeafPtr _ leaf => findCommonInLeaf leaf n2 hashPos
    | BranchPtr occupation1 child1 =>
        match n2 with
        | BranchPtr occupation2 child2 =>
            (fix loop (iters : nat) (matchMask : Z) {struct iters}
               : option (option Entry) :=
               match iters with
               | O => None
               | S iters' =>
                   if matchMask =? 0 then Some None else
                   let pos := log2i matchMask in
                   let matchMask' := Z.lxor matchMask (Z.shiftl 1 pos) in
                   let location1 := Occupation.num_set_until occupation1 pos - 1 in
                   let location2 := Occupation.num_set_until occupation2 pos - 1 in
                   c1 <- child_at child1 location1 ;;
                   c2 <- child_at child2 location2 ;;
                   m <- find_common_recurse fuel' c1 c2 (hashPos + 1) ;;
                   match m with
                   | Some e => Some (Some e)
                   | None => loop iters' matchMask'
                   end
               end) 65%nat (Z.land occupation1 occupation2)
        | _ => None
        end
    end
  end.

(** *** Copy *)

(** [copy_recurse]: the empty node hits [assert(false)]; the loop over a
    list leaf dereferences [iter->next] before it tests it. *)
Fixpoint copy_recurse (node : NodePtr) : option NodePtr :=
  match node with
  | Empty => None
  | ListLeafPtr first next count =>
      match next with
      | [] => None
      | _ :: _ => Some (ListLeafPtr first next count)
      end
  | InnerLeafPtr c leaf => Some (InnerLeafPtr c leaf)
  | BranchPtr occupation child =>
      child' <-
        (fix copy_children (l : list NodePtr) (size : nat) {struct l}
           : option (list NodePtr) :=
           match size with
           | O => Some []
           | S size' =>
               match l with
               | [] => None
               | n :: l' =>
                   n' <- copy_recurse n ;;
                   rest <- copy_children l' size' ;;
                   Some (n' :: rest)
               end
           end) child (Z.to_nat (Occupation.num_set occupation)) ;;
      Some (BranchPtr occupation child')
  end.

(** *** Traversal *)

(** The entries in the order in which [for_each_recurse] visits them. *)
Fixpoint for_each_entries (node : NodePtr) : list Entry :=
  match node with
  | Empty => []
  | ListLeafPtr first next _ => first :: next
  | InnerLeafPtr _ leaf => entries leaf
  | BranchPtr occupation child =>
      (fix children (l : list NodePtr) (size : nat) {struct l} : list Entry :=
         match size, l with
         | S size', n :: l' => for_each_entries n ++ children l' size'
         | _, _ => []
         end) child (Z.to_nat (Occupation.num_set occupation))
  end.

(** *** The public interface; a tree is its [root]. *)

Definition insert (root : NodePtr) (entry : Entry) : option (bool * NodePtr) :=
  insert_recurse max_fuel root (hash (key entry)) 0 entry.

Definition erase (root : NodePtr) (k : Z) : option NodePtr :=
  erase_recurse max_fuel root (hash k) 0 k.

Definition find (root : NodePtr) (k : Z) : option (option V) :=
  find_recurse max_fuel root (hash k) 0 k.

Definition contains (root : NodePtr) (k : Z) : option bool :=
  option_map is_some (find root k).

Definition find_common (root other : NodePtr) : option (option Entry) :=
  find_common_recurse max_fuel root other 0.

(** Copy construction and copy assignment both store
    [copy_recurse(other.root)]. *)
Definition copy (other : NodePtr) : option NodePtr := copy_recurse other.

(** [empty()] tests the root for the empty node. *)
Definition empty (root : NodePtr) : bool :=
  match getType root with kEmpty => true | _ => false end.

(** *** Representable nodes

    What the C++ types can hold at all: an occupation mask is a 64-bit
    word and a leaf of class [c] never holds more than [capacity c]
    entries. *)

Definition uint64b (x : Z) : bool := (0 <=? x) && (x <? 2 ^ 64).

Definition leaf_representable (c : SizeClass) (leaf : InnerLeaf) : bool :=
  uint64b (occupation leaf) && (size leaf <=? capacity c).

Fixpoint representable (n : NodePtr) : bool :=
  match n with
  | Empty => true
  | ListLeafPtr _ _ _ => true
  | InnerLeafPtr c leaf => leaf_representable c leaf
  | BranchPtr occupation child => uint64b occupation && forallb representable child
  end.

(** *** The invariant of an inner leaf

    The entries are strictly ascending by key, and the occupation mask is
    exactly the set of chunks, at the leaf's depth, of the hashes of the
    stored keys. *)

Fixpoint sorted_keys (l : list Entry) : bool :=
  match l with
  | [] => true
  | x :: l' =>
      match l' with
      | [] => true
      | y :: _ => (key x <? key y) && sorted_keys l'
      end
  end.

(** The mask with one bit per chunk that occurs among the entries. *)
Fixpoint chunk_mask (hashPos : Z) (l : list Entry) : Z :=
  match l with
  | [] => 0
  | x :: l' =>
      Occupation.set (chunk_mask hashPos l') (get_hash_chunk (hash (key x)) hashPos)
  end.

Definition leaf_ok (leaf : InnerLeaf) (hashPos : Z) : bool :=
  sorted_keys (entries leaf)
  && (occupation leaf =? chunk_mask hashPos (entries leaf)).

(** The invariant of a stored leaf of class [c]: between one entry and
    [capacity c] entries. *)
Definition leaf_invariant (c : SizeClass) (leaf : InnerLeaf) (hashPos : Z) : bool :=
  leaf_ok leaf hashPos && (1 <=? size leaf) && (size leaf <=? capacity c).

(** The entries without the first one that has key [k]. *)
Fixpoint remove_key (k : Z) (l : list Entry) : list Entry :=
  match l with
  | [] => []
  | x :: l' => if k =? key x then l' else x :: remove_key k l'
  end.

(** The value stored under key [k], by plain search. *)
Fixpoint lookup_key (k : Z) (l : list Entry) : option V :=
  match l with
  | [] => None
  | x :: l' => if k =? key x then Some (value x) else lookup_key k l'
  end.

(** The number of entries whose hash has chunk [hashChunk] at [hashPos]. *)
Fixpoint count_chunk (hashChunk hashPos : Z) (l : list Entry) : Z :=
  match l with
  | [] => 0
  | x :: l' =>
      (if get_hash_chunk (hash (key x)) hashPos =? hashChunk then 1 else 0)
      + count_chunk hashChunk hashPos l'
  end.

(** *** Well-formed trees

    The structural invariants of a node at depth [hashPos]: list leaves sit
    at depth [kMaxDepth] and count their chain; inner leaves sit above it
    and satisfy the leaf invariant of their class; a branch has one child
    per set occupation bit, none of them empty, all of them well-formed one
    level down. An empty node is well-formed only as the root. *)
Fixpoint well_formed (hashPos : Z) (n : NodePtr) : bool :=
  match n with
  | Empty => false
  | ListLeafPtr first next count =>
      (hashPos =? kMaxDepth) && (count =? 1 + Z.of_nat (length next))
  | InnerLeafPtr c leaf =>
      chunk_defined hashPos && leaf_invariant c leaf hashPos
  | BranchPtr occupation child =>
      chunk_defined hashPos && uint64b occupation
      && (Z.of_nat (length child) =? Occupation.num_set occupation)
      && forallb (well_formed (hashPos + 1)) child
  end.

Definition well_formed_root (root : NodePtr) : bool :=
  match root with
  | Empty => true
  | _ => well_formed 0 root
  end.

(** The entries a leaf node holds; [mergeIntoLeaf] re-inserts exactly
    these, and nothing for an empty node or a branch. *)
Definition node_entries (n : NodePtr) : list Entry :=
  match n with
  | ListLeafPtr first next _ => first :: next
  | InnerLeafPtr _ leaf => entries leaf
  | Empty => []
  | BranchPtr _ _ => []
  end.

(** The [count] field of a list leaf agrees with its chain. *)
Definition count_exact (n : NodePtr) : bool :=
  match n with
  | ListLeafPtr _ next count => count =? 1 + Z.of_nat (length next)
  | _ => true
  end.

(** The number of entries held by the leaves among [slots]. *)
Definition total_entries (slots : list NodePtr) : Z :=
  fold_right (fun n s => Z.of_nat (length (node_entries n)) + s) 0 slots.

(** The size class of a leaf that has lost one entry: the class below as
    soon as the remaining entries fill it exactly. *)
Definition class_after_erase (c : SizeClass) (leaf : InnerLeaf) : SizeClass :=
  if size leaf - 1 =? capacity (prev_class c) then prev_class c else c.

(** The size classes above 1 only hold leaves that the class below could
    not. *)
Definition class_tight (c : SizeClass) (leaf : InnerLeaf) : Prop :=
  c = Class1 \/ capacity (prev_class c) < size leaf.

(** Every branch holds exactly one child per set occupation bit. *)
Fixpoint sized (n : NodePtr) : bool :=
  match n with
  | BranchPtr occupation child =>
      (Z.of_nat (length child) =? Occupation.num_set occupation)
      && forallb sized child
  | _ => true
  end.


(** The key is absent from the chain, or the first node that holds it is
    not the last node of a chain of two or more nodes. *)
Definition before_chain_end (k : Z) (first : Entry) (next : list Entry) : Prop :=
  next <> [] -> chain_has k (first :: next) = true ->
  chain_has k (removelast (first :: next)) = true.

(** The list leaf that holds the chain [l]. *)
Definition chain_node (l : list Entry) : NodePtr :=
  match l with
  | [] => Empty
  | first :: next => ListLeafPtr first next (1 + Z.of_nat (length next))
  end.

(** An entry with the key of [e] is visited in both trees. *)
Definition shared_key (e : Entry) (n1 n2 : NodePtr) : Prop :=
  chain_has (key e) (for_each_entries n1) = true
  /\ chain_has (key e) (for_each_entries n2) = true.

(** The node is a leaf, a list leaf or empty. *)
Definition not_branch (n : NodePtr) : bool :=
  match n with BranchPtr _ _ => false | _ => true end.

(** The chunk of the entry's hash at [hashPos] has its bit set in the
    branch's occupation mask and selects the child slot [i]. *)
Definition in_slot (hashPos occupation i : Z) (x : Entry) : bool :=
  let hashChunk := get_hash_chunk (hash (key x)) hashPos in
  Occupation.test occupation hashChunk
  && (Occupation.num_set_until occupation hashChunk - 1 =? i).

(** Every leaf that hangs directly below a branch holds only entries
    whose hash chunk at the depth of the branch selects its slot. *)
Fixpoint routed (hashPos : Z) (n : NodePtr) : bool :=
  match n with
  | BranchPtr occupation child =>
      (fix slots (l : list NodePtr) (i : Z) {struct l} : bool :=
         match l with
         | [] => true
         | c :: l' =>
             forallb (in_slot hashPos occupation i) (node_entries c)
             && routed (hashPos + 1) c
             && slots l' (i + 1)
         end) child 0
  | _ => true
  end.

(** No list leaf holds the key [k] in a chain of two or more nodes. *)
Fixpoint chains_safe (k : Z) (n : NodePtr) : bool :=
  match n with
  | ListLeafPtr first next _ =>
      negb (chain_has k (first :: next))
      || match next with [] => true | _ :: _ => false end
  | BranchPtr _ child => forallb (chains_safe k) child
  | _ => true
  end.

(** The value under key [k] in the first of [slots] that holds the key. *)
Fixpoint lookup_slots (k : Z) (slots : list NodePtr) : option V :=
  match slots with
  | [] => None
  | n :: slots' =>
      match lookup_key k (node_entries n) with
      | Some v => Some v
      | None => lookup_slots k slots'
      end
  end.

(** The node that [insert_recurse] creates for an entry on an empty slot
    at depth [hashPos]. *)
Definition fresh_node (hashPos : Z) (e : Entry) : NodePtr :=
  if hashPos =? kMaxDepth then ListLeafPtr e [] 1
  else InnerLeafPtr Class1
         (mkInnerLeaf (Occupation.set 0 (get_hash_chunk (hash (key e)) hashPos))
                      [e]).

(** The branch with a new child for the entry [e], placed at the rank of
    the chunk of its hash. *)
Definition branch_with (occupation : Z) (child : list NodePtr) (hashPos : Z)
           (e : Entry) : NodePtr :=
  let hashChunk := get_hash_chunk (hash (key e)) hashPos in
  let location := Z.to_nat (Occupation.num_set_until occupation hashChunk) in
  BranchPtr (Occupation.set occupation hashChunk)
    (firstn location child ++ fresh_node (hashPos + 1) e :: skipn location child).
End Nodes.

(** ** Concrete trees used by the examples *)

Module Examples.

(** A hash whose chunks 0 to 9 are zero for every key: only the top four
    bits of the word (the chunk at position 10) depend on the key. *)
Definition hash_top (k : Z) : Z := Z.shiftl (k mod 16) 60.

(** A hash that spreads small keys over the chunk at position 0. *)
Definition hash_id (k : Z) : Z := k mod 2 ^ 64.

Definition entry_of (k : Z) : HighsHashTableEntry Z := mkEntry k (100 + k).

Definition entries_from (lo : Z) (n : nat) : list (HighsHashTableEntry Z) :=
  map entry_of (zrange lo n).

(** Insert a sequence of entries through the public [insert]. *)
Fixpoint insert_all (hash : Z -> Z) (root : NodePtr)
         (l : list (HighsHashTableEntry Z)) : option NodePtr :=
  match l with
  | [] => Some root
  | x :: l' =>
      '(_, root') <- insert hash root x ;;
      insert_all hash root' l'
  end.

(** A full leaf of size class 4 at depth 10 holding the keys 0 to 29; under
    [hash_top] its occupation mask has exactly the bits 0 to 15. *)
Definition full_leaf_depth10 : NodePtr (V := Z) :=
  InnerLeafPtr Class4 (mkInnerLeaf 65535 (entries_from 0 30)).

(** A list leaf with a chain of two nodes. *)
Definition chain_of_two : NodePtr (V := Z) :=
  ListLeafPtr (entry_of 1) [entry_of 2] 2.

(** A list leaf with a single node. *)
Definition chain_of_one : NodePtr (V := Z) :=
  ListLeafPtr (entry_of 1) [] 1.

(** Erase a sequence of keys through the public [erase]. *)
Fixpoint erase_all (hash : Z -> Z) (root : NodePtr (V := Z)) (l : list Z)
  : option NodePtr :=
  match l with
  | [] => Some root
  | k :: l' =>
      root' <- erase hash root k ;;
      erase_all hash root' l'
  end.

(** Thirty keys whose hash under [hash_id] has chunk 5 at the root, and
    the key 3. *)
Definition keys_chunk5 : list Z := map (fun i => 5 + 64 * i) (zrange 0 30).

Definition keys_31 : list Z := keys_chunk5 ++ [3].

(** The same keys in the order: 3, then the keys of chunk 5 with the key 5
    itself last. *)
Definition keys_31_erase_order : list Z := 3 :: tl keys_chunk5 ++ [5].

End Examples.

Module Examples2.

(** A leaf of size class 1 at the root holding the keys 5 and 7 under
    [Examples.hash_id]: the occupation mask has the bits 5 and 7. *)
Definition two_key_leaf : NodePtr (V := Z) :=
  InnerLeafPtr Class1
    (mkInnerLeaf 160 [Examples.entry_of 5; Examples.entry_of 7]).

(** The leaf inside [two_key_leaf], and a leaf holding the keys 3 and 7. *)
Definition leaf_5_7 : InnerLeaf (V := Z) :=
  mkInnerLeaf 160 [Examples.entry_of 5; Examples.entry_of 7].

Definition leaf_3_7 : InnerLeaf (V := Z) :=
  mkInnerLeaf 136 [Examples.entry_of 3; Examples.entry_of 7].

(** The children of a root branch under [Examples.hash_id] that holds the
    keys 5, 3 and 2: one leaf per key, in descending order of the chunk. *)
Definition leaf_of_key (k : Z) : NodePtr (V := Z) :=
  InnerLeafPtr Class1 (mkInnerLeaf 1 [Examples.entry_of k]).

Definition children_5_3_2 : list (NodePtr (V := Z)) :=
  [leaf_of_key 5; leaf_of_key 3; leaf_of_key 2].

(** The child array after the child for chunk 2 was emptied. *)
Definition children_5_3_gap : list (NodePtr (V := Z)) :=
  [leaf_of_key 5; leaf_of_key 3; Empty].

(** The same with a branch in the first slot. *)
Definition children_branch_3_gap : list (NodePtr (V := Z)) :=
  [BranchPtr 1 [leaf_of_key 5]; leaf_of_key 3; Empty].

(** A full leaf of size class 1 at the root holding the keys 1 to 6, and
    a leaf of size class 2 holding the keys 1 to 7, under
    [Examples.hash_id]. *)
Definition leaf_1_to_6 : InnerLeaf (V := Z) :=
  mkInnerLeaf 126 (Examples.entries_from 1 6).

Definition leaf_1_to_7 : InnerLeaf (V := Z) :=
  mkInnerLeaf 254 (Examples.entries_from 1 7).

(** A root branch over [children_5_3_2]. *)
Definition branch_5_3_2 : NodePtr (V := Z) := BranchPtr 44 children_5_3_2.

(** [branch_5_3_2] after the key 3 was erased: one leaf with the keys 2
    and 5. *)
Definition merged_2_5 : NodePtr (V := Z) :=
  InnerLeafPtr Class1
    (mkInnerLeaf 36 [Examples.entry_of 2; Examples.entry_of 5]).

(** A root branch whose only child holds the single key 5. *)
Definition single_child_branch : NodePtr (V := Z) :=
  BranchPtr 32 [InnerLeafPtr Class1 (mkInnerLeaf 1 [Examples.entry_of 5])].

End Examples2.
(** ** Facts about bit counting *)

Lemma zrange_length lo len : length (zrange lo len) = len.
Proof. unfold zrange. now rewrite length_map, length_seq. Qed.

Lemma zrange_S lo len : zrange lo (S len) = lo :: zrange (lo + 1) len.
Proof.
  unfold zrange. simpl. f_equal; [lia|].
  rewrite <- seq_shift, map_map. apply map_ext. intros; lia.
Qed.

Lemma zrange_app lo a b :
  zrange lo (a + b) = zrange lo a ++ zrange (lo + Z.of_nat a) b.
Proof.
  revert lo. induction a as [|a IH]; intros lo.
  - simpl. f_equal. lia.
  - cbn [Nat.add]. rewrite !zrange_S, IH. simpl. do 3 f_equal. lia.
Qed.

Lemma zrange_In lo len i :
  In i (zrange lo len) <-> lo <= i < lo + Z.of_nat len.
Proof.
  unfold zrange. rewrite in_map_iff. split.
  - intros (k & <- & Hk). apply in_seq in Hk. lia.
  - intros H. exists (Z.to_nat (i - lo)). split; [lia|]. apply in_seq. lia.
Qed.

Lemma zrange_shift lo d len :
  zrange (lo + d) len = map (fun i => i + d) (zrange lo len).
Proof.
  unfold zrange. rewrite map_map. apply map_ext. intros; lia.
Qed.

Lemma filter_none {A} (f : A -> bool) l :
  (forall x, In x l -> f x = false) -> filter f l = [].
Proof.
  induction l as [|a l IH]; intros H; simpl; [reflexivity|].
  rewrite (H a) by now left. apply IH. intros; apply H; now right.
Qed.

Lemma filter_map_length {A B} (g : A -> B) (f : B -> bool) l :
  length (filter f (map g l)) = length (filter (fun x => f (g x)) l).
Proof.
  induction l as [|a l IH]; simpl; [reflexivity|].
  destruct (f (g a)); simpl; now rewrite IH.
Qed.

Lemma bits_between_app m lo a b :
  bits_between m lo (a + b)
  = bits_between m lo a + bits_between m (lo + Z.of_nat a) b.
Proof.
  unfold bits_between. rewrite zrange_app, filter_app, length_app. lia.
Qed.

Lemma bits_between_ext m m' lo len :
  (forall i, lo <= i < lo + Z.of_nat len -> Z.testbit m i = Z.testbit m' i) ->
  bits_between m lo len = bits_between m' lo len.
Proof.
  intros H. unfold bits_between. f_equal. f_equal.
  apply filter_ext_in. intros i Hi. apply H. now apply zrange_In.
Qed.

Lemma bits_between_zero m lo len :
  (forall i, lo <= i < lo + Z.of_nat len -> Z.testbit m i = false) ->
  bits_between m lo len = 0.
Proof.
  intros H. unfold bits_between. rewrite filter_none; [reflexivity|].
  intros i Hi. apply H. now apply zrange_In.
Qed.

Lemma bits_between_shift m m' lo d len :
  (forall i, lo <= i < lo + Z.of_nat len -> Z.testbit m' (i + d) = Z.testbit m i) ->
  bits_between m' (lo + d) len = bits_between m lo len.
Proof.
  intros H. unfold bits_between. rewrite zrange_shift, filter_map_length.
  f_equal. f_equal. apply filter_ext_in. intros i Hi. apply H.
  now apply zrange_In.
Qed.

Lemma bits_between_nonneg m lo len : 0 <= bits_between m lo len.
Proof. unfold bits_between. lia. Qed.

Lemma bits_between_le m lo len : bits_between m lo len <= Z.of_nat len.
Proof.
  unfold bits_between. pose proof (filter_length_le (Z.testbit m) (zrange lo len)) as H.
  rewrite zrange_length in H. lia.
Qed.

Lemma wrap64_testbit x i :
  Z.testbit (wrap64 x) i = (i <? 64) && Z.testbit x i.
Proof.
  unfold wrap64. destruct (Z.ltb_spec i 64).
  - destruct (Z.le_gt_cases 0 i).
    + now rewrite Z.mod_pow2_bits_low by lia.
    + now rewrite !Z.testbit_neg_r by lia.
  - now rewrite Z.mod_pow2_bits_high by lia.
Qed.

(** [num_set_after] keeps exactly the bits of the mask at positions
    [0..pos]: the left shift by [63 - pos] pushes every higher bit out of
    the 64-bit word. *)
Lemma num_set_after_low occupation pos :
  0 <= pos <= 63 ->
  Occupation.num_set_after occupation pos
  = bits_between occupation 0 (Z.to_nat (pos + 1)).
Proof.
  intros Hp. unfold Occupation.num_set_after, popcnt.
  set (s := 63 - pos).
  replace 64%nat with (Z.to_nat s + Z.to_nat (pos + 1))%nat by lia.
  rewrite bits_between_app.
  rewrite bits_between_zero.
  - rewrite Z.add_0_l. replace (0 + Z.of_nat (Z.to_nat s)) with (0 + s) by lia.
    apply bits_between_shift. intros i Hi.
    rewrite wrap64_testbit, Z.shiftl_spec by lia.
    replace (i + s - s) with i by lia.
    destruct (Z.ltb_spec (i + s) 64); [reflexivity|lia].
  - intros i Hi. rewrite wrap64_testbit, Z.shiftl_spec by lia.
    rewrite (Z.testbit_neg_r _ (i - s)) by lia. apply andb_false_r.
Qed.

(** C5, as stated: for every 64-bit mask [m] and every position
    [0 <= p <= 63], [num_set_after(p)] is the number of set bits of [m] at
    positions strictly greater than [p]. The mask [1] at position [0]
    refutes it: bit 0 is counted although it is not above position 0. *)
Lemma num_set_after_not_strictly_above :
  ~ (forall m p, 0 <= m < 2 ^ 64 -> 0 <= p <= 63 ->
       Occupation.num_set_after m p
       = bits_between m (p + 1) (Z.to_nat (63 - p))).
Proof.
  intros H. specialize (H 1 0). 
  assert (E : Occupation.num_set_after 1 0 = 1) by (vm_compute; reflexivity).
  assert (E' : bits_between 1 (0 + 1) (Z.to_nat (63 - 0)) = 0) by (vm_compute; reflexivity).
  rewrite E, E' in H. assert (1 = 0) by (apply H; lia). discriminate.
Qed.

(** C5, amended: for every mask [m] and every position [0 <= p <= 63],
    [num_set_after(p)] is the number of set bits of [m] at the positions
    [0 .. p], the bit at [p] included. These are the children stored after
    the slot of chunk [p] in the descending-bit layout of a branch. *)
Theorem num_set_after_counts_bits_up_to_pos (m p : Z) :
  0 <= p <= 63 ->
  Occupation.num_set_after m p = bits_between m 0 (Z.to_nat (p + 1)).
Proof. apply num_set_after_low. Qed.

Lemma num_set_after_counts_bits_up_to_pos_witness :
  0 <= 5 <= 63 /\
  Occupation.num_set_after 44 5 = bits_between 44 0 (Z.to_nat (5 + 1)).
Proof.
  split; [lia | apply (num_set_after_counts_bits_up_to_pos 44 5); lia].
Defined.

(** ** Facts about hash chunks and occupation masks *)

Lemma get_hash_chunk_range hash pos : 0 <= get_hash_chunk hash pos <= 63.
Proof.
  unfold get_hash_chunk. change (kBranchFactor - 1) with 63.
  split.
  - apply Z.land_nonneg. right. lia.
  - assert (H : Z.land (Z.shiftr hash (pos * kBitsPerLevel)) 63
                = Z.shiftr hash (pos * kBitsPerLevel) mod 2 ^ 6)
      by (change 63 with (Z.ones 6); apply Z.land_ones; lia).
    rewrite H. pose proof (Z.mod_pos_bound (Z.shiftr hash (pos * kBitsPerLevel)) (2 ^ 6)).
    lia.
Qed.

Lemma shiftl_1_testbit pos i :
  0 <= pos -> Z.testbit (Z.shiftl 1 pos) i = (i =? pos).
Proof.
  intros Hp. rewrite Z.shiftl_1_l.
  destruct (Z.eqb_spec i pos) as [->|Hne].
  - now apply Z.pow2_bits_true.
  - now apply Z.pow2_bits_false.
Qed.

Lemma test_testbit occ pos :
  0 <= pos -> Occupation.test occ pos = Z.testbit occ pos.
Proof.
  intros Hp. unfold Occupation.test.
  destruct (Z.testbit occ pos) eqn:E.
  - destruct (Z.eqb_spec (Z.land occ (Z.shiftl 1 pos)) 0) as [H0|]; [|reflexivity].
    assert (Z.testbit (Z.land occ (Z.shiftl 1 pos)) pos = true)
      by (rewrite Z.land_spec, E, shiftl_1_testbit, Z.eqb_refl by lia; reflexivity).
    rewrite H0, Z.bits_0 in H. discriminate.
  - assert (H0 : Z.land occ (Z.shiftl 1 pos) = 0).
    { apply Z.bits_inj'. intros i Hi.
      rewrite Z.land_spec, shiftl_1_testbit, Z.bits_0 by lia.
      destruct (Z.eqb_spec i pos) as [->|]; [now rewrite E | apply andb_false_r]. }
    now rewrite H0.
Qed.

Lemma set_testbit occ pos i :
  0 <= pos -> Z.testbit (Occupation.set occ pos) i = Z.testbit occ i || (i =? pos).
Proof.
  intros. unfold Occupation.set. now rewrite Z.lor_spec, shiftl_1_testbit.
Qed.

Lemma flip_testbit occ pos i :
  0 <= pos ->
  Z.testbit (Occupation.flip occ pos) i = xorb (Z.testbit occ i) (i =? pos).
Proof.
  intros. unfold Occupation.flip. now rewrite Z.lxor_spec, shiftl_1_testbit.
Qed.

Lemma test_set_same occ pos : 0 <= pos -> Occupation.test (Occupation.set occ pos) pos = true.
Proof.
  intros. rewrite test_testbit, set_testbit, Z.eqb_refl by lia. apply orb_true_r.
Qed.

Lemma test_set_mono occ pos pos' :
  0 <= pos -> 0 <= pos' ->
  Occupation.test occ pos = true -> Occupation.test (Occupation.set occ pos') pos = true.
Proof.
  intros Hp Hp'. rewrite !test_testbit, set_testbit by lia. intros ->. reflexivity.
Qed.

Lemma test_zero pos : Occupation.test 0 pos = false.
Proof. unfold Occupation.test. now rewrite Z.land_0_l. Qed.

(** An occupation mask is a 64-bit word. *)
Definition is_uint64 (x : Z) : Prop := 0 <= x < 2 ^ 64.

Lemma uint64_testbit_high x i : is_uint64 x -> 64 <= i -> Z.testbit x i = false.
Proof.
  intros [H0 H1] Hi. destruct (Z.eq_dec x 0) as [->|Hx]; [apply Z.bits_0|].
  apply Z.bits_above_log2; [lia|].
  assert (Z.log2 x < 64) by (apply Z.log2_lt_pow2; lia). lia.
Qed.

Lemma uint64_of_bits x :
  0 <= x -> (forall i, 64 <= i -> Z.testbit x i = false) -> is_uint64 x.
Proof.
  intros H0 H. split; [assumption|].
  destruct (Z.eq_dec x 0) as [->|Hx]; [reflexivity|].
  apply Z.log2_lt_pow2; [lia|].
  destruct (Z.lt_ge_cases (Z.log2 x) 64) as [|Hge]; [assumption|].
  specialize (H (Z.log2 x) Hge). rewrite Z.bit_log2 in H by lia. discriminate.
Qed.

Lemma set_uint64 occ pos : is_uint64 occ -> 0 <= pos <= 63 -> is_uint64 (Occupation.set occ pos).
Proof.
  intros Ho Hp. apply uint64_of_bits.
  - unfold Occupation.set. apply Z.lor_nonneg. split; [apply Ho|].
    apply Z.shiftl_nonneg. lia.
  - intros i Hi. rewrite set_testbit by lia.
    rewrite (uint64_testbit_high occ i Ho Hi).
    destruct (Z.eqb_spec i pos); [lia|reflexivity].
Qed.

Lemma flip_uint64 occ pos : is_uint64 occ -> 0 <= pos <= 63 -> is_uint64 (Occupation.flip occ pos).
Proof.
  intros Ho Hp. apply uint64_of_bits.
  - unfold Occupation.flip. apply Z.lxor_nonneg. split; intros _; [|apply Ho].
    apply Z.shiftl_nonneg. lia.
  - intros i Hi. rewrite flip_testbit by lia.
    rewrite (uint64_testbit_high occ i Ho Hi).
    destruct (Z.eqb_spec i pos); [lia|reflexivity].
Qed.

(** [num_set_until] in terms of the bits of the mask itself. *)
Lemma num_set_until_bits occ pos :
  0 <= pos ->
  Occupation.num_set_until occ pos = bits_between occ pos 64.
Proof.
  intros Hp. unfold Occupation.num_set_until, popcnt.
  replace pos with (0 + pos) at 2 by lia.
  symmetry. apply bits_between_shift. intros i Hi.
  now rewrite Z.shiftr_spec by lia.
Qed.

Lemma bits_between_single m lo :
  bits_between m lo 1 = if Z.testbit m lo then 1 else 0.
Proof.
  unfold bits_between, zrange. simpl. rewrite Z.add_0_r.
  now destruct (Z.testbit m lo).
Qed.

(** Setting a clear bit [pos] adds one to the rank of [pos]. *)
Lemma num_set_until_set occ pos :
  0 <= pos ->
  Occupation.test occ pos = false ->
  Occupation.num_set_until (Occupation.set occ pos) pos
  = Occupation.num_set_until occ pos + 1.
Proof.
  intros Hp Ht. rewrite test_testbit in Ht by lia.
  rewrite !num_set_until_bits by lia.
  change 64%nat with (1 + 63)%nat. rewrite !bits_between_app, !bits_between_single.
  rewrite set_testbit, Z.eqb_refl, Ht by lia. cbn [orb].
  rewrite (bits_between_ext (Occupation.set occ pos) occ); [lia|].
  intros i Hi. rewrite set_testbit by lia.
  destruct (Z.eqb_spec i pos); [lia|apply orb_false_r].
Qed.

Lemma num_set_until_pos occ pos :
  0 <= pos -> Occupation.test occ pos = true -> 1 <= Occupation.num_set_until occ pos.
Proof.
  intros Hp Ht. rewrite test_testbit in Ht by lia.
  rewrite num_set_until_bits by lia.
  change 64%nat with (1 + 63)%nat. rewrite bits_between_app, bits_between_single, Ht.
  pose proof (bits_between_nonneg occ (pos + Z.of_nat 1) 63). lia.
Qed.

(** On a 64-bit mask the rank of a position is bounded by the population
    count. *)
Lemma num_set_until_le_num_set occ pos :
  is_uint64 occ -> 0 <= pos <= 63 ->
  Occupation.num_set_until occ pos <= Occupation.num_set occ.
Proof.
  intros Ho Hp. rewrite num_set_until_bits by lia.
  unfold Occupation.num_set, popcnt.
  set (a := Z.to_nat pos). set (b := (64 - a)%nat).
  assert (E1 : bits_between occ pos 64 = bits_between occ pos b).
  { replace 64%nat with (b + a)%nat by lia. rewrite bits_between_app.
    rewrite (bits_between_zero occ (pos + Z.of_nat b)); [lia|].
    intros i Hi. apply uint64_testbit_high; [assumption|lia]. }
  assert (E2 : bits_between occ 0 64
               = bits_between occ 0 a + bits_between occ pos b).
  { replace 64%nat with (a + b)%nat by lia. rewrite bits_between_app.
    do 2 f_equal. lia. }
  rewrite E1, E2. pose proof (bits_between_nonneg occ 0 a). lia.
Qed.

(** ** Inner leaves: the scans of [insert_entry] and [find_entry] *)

Section LeafFacts.

Context {V : Type}.
Variable hash : Z -> Z.

#[local] Abbreviation Entry := (HighsHashTableEntry V).
#[local] Abbreviation Leaf := (@InnerLeaf V).

Implicit Types (l : list Entry) (e x : Entry) (leaf : Leaf) (k : Z).

Lemma uint64b_spec (z : Z) : uint64b z = true <-> is_uint64 z.
Proof. unfold uint64b, is_uint64. lia. Qed.

(** After [insert_occupied] stored the entry, the scan of [find_entry]
    stops at an entry with that key. *)
Lemma find_scan_insert_occupied e l l' :
  insert_occupied e l = Some l' -> is_some (find_scan (key e) l') = true.
Proof.
  revert l'. induction l as [|x l IH]; intros l' H; simpl in H.
  - inversion H; subst. simpl. now rewrite Z.leb_refl, Z.eqb_refl.
  - destruct (Z.leb_spec (key e) (key x)) as [Hle|Hgt].
    + destruct (Z.eqb_spec (key e) (key x)); [discriminate|].
      inversion H; subst. simpl. now rewrite Z.leb_refl, Z.eqb_refl.
    + destruct (insert_occupied e l) as [r|] eqn:E; [|discriminate].
      inversion H; subst. simpl.
      destruct (Z.leb_spec (key e) (key x)); [lia|]. now apply IH.
Qed.

(** [insert_fresh] puts the entry behind entries with keys up to its own,
    so the scan of [find_entry] stops at an entry with that key. *)
Lemma find_scan_insert_fresh e l :
  is_some (find_scan (key e) (insert_fresh e l)) = true.
Proof.
  induction l as [|x l IH]; simpl.
  - now rewrite Z.leb_refl, Z.eqb_refl.
  - destruct (Z.ltb_spec (key e) (key x)) as [Hlt|Hge]; simpl.
    + now rewrite Z.leb_refl, Z.eqb_refl.
    + destruct (Z.leb_spec (key e) (key x)) as [Hle|Hgt]; [|exact IH].
      assert (key e = key x) as -> by lia. now rewrite Z.eqb_refl.
Qed.

(** A key at which the scan of [find_entry] stops is reported as a
    duplicate by [insert_occupied]. *)
Lemma insert_occupied_found e l :
  is_some (find_scan (key e) l) = true -> insert_occupied e l = None.
Proof.
  induction l as [|x l IH]; simpl; [discriminate|].
  destruct (Z.leb_spec (key e) (key x)).
  - destruct (Z.eqb_spec (key e) (key x)); [reflexivity|discriminate].
  - intros Hs. now rewrite IH.
Qed.

Lemma insert_occupied_none e l :
  insert_occupied e l = None -> is_some (find_scan (key e) l) = true.
Proof.
  induction l as [|x l IH]; simpl; [discriminate|].
  destruct (Z.leb_spec (key e) (key x)).
  - destruct (Z.eqb_spec (key e) (key x)); [reflexivity|discriminate].
  - destruct (insert_occupied e l); [discriminate|]. intros _. now apply IH.
Qed.

(** Inserting another entry keeps every key at which the scan stops. *)
Lemma find_scan_keep_occupied k x l l' :
  is_some (find_scan k l) = true ->
  insert_occupied x l = Some l' -> is_some (find_scan k l') = true.
Proof.
  revert l'. induction l as [|y l IH]; intros l' Hk H; [discriminate|].
  cbn [insert_occupied] in H. cbn [find_scan] in Hk.
  destruct (Z.leb_spec (key x) (key y)) as [Hxy|Hxy].
  - destruct (Z.eqb_spec (key x) (key y)); [discriminate|].
    inversion H; subst. cbn [find_scan].
    destruct (Z.leb_spec k (key y)) as [Hky|Hky].
    + destruct (Z.eqb_spec k (key y)) as [->|]; [|discriminate].
      destruct (Z.leb_spec (key y) (key x)); [lia|].
      destruct (Z.leb_spec (key y) (key y)); [reflexivity|lia].
    + destruct (Z.leb_spec k (key x)); [lia|].
      destruct (Z.leb_spec k (key y)); [lia|]. exact Hk.
  - destruct (insert_occupied x l) as [r|] eqn:E; [|discriminate].
    inversion H; subst. cbn [find_scan].
    destruct (Z.leb_spec k (key y)); [exact Hk|]. now apply IH.
Qed.

Lemma find_scan_keep_fresh k x l :
  is_some (find_scan k l) = true ->
  is_some (find_scan k (insert_fresh x l)) = true.
Proof.
  induction l as [|y l IH]; intros Hk; [discriminate|].
  cbn [insert_fresh]. cbn [find_scan] in Hk.
  destruct (Z.ltb_spec (key x) (key y)) as [Hxy|Hxy]; cbn [find_scan].
  - destruct (Z.leb_spec k (key y)) as [Hky|Hky].
    + destruct (Z.eqb_spec k (key y)) as [->|]; [|discriminate].
      destruct (Z.leb_spec (key y) (key x)); [lia|].
      destruct (Z.leb_spec (key y) (key y)); [reflexivity|lia].
    + destruct (Z.leb_spec k (key x)); [lia|].
      destruct (Z.leb_spec k (key y)); [lia|]. exact Hk.
  - destruct (Z.leb_spec k (key y)); [exact Hk|]. now apply IH.
Qed.

Lemma insert_occupied_length e l l' :
  insert_occupied e l = Some l' -> length l' = S (length l).
Proof.
  revert l'. induction l as [|x l IH]; intros l' H; simpl in H.
  - now inversion H.
  - destruct (key e <=? key x).
    + destruct (key e =? key x); [discriminate|]. now inversion H.
    + destruct (insert_occupied e l) as [r|]; [|discriminate].
      inversion H; subst. simpl. now rewrite (IH r).
Qed.

Lemma insert_fresh_length e l : length (insert_fresh e l) = S (length l).
Proof.
  induction l as [|x l IH]; simpl; [reflexivity|].
  destruct (key e <? key x); simpl; [reflexivity|now rewrite IH].
Qed.

(** *** [insert_entry] and [find_entry] on a leaf *)

(** [find_entry] reports the key [k]. *)
Definition leaf_hit leaf (hash_ hashPos k : Z) : Prop :=
  exists v, find_entry leaf hash_ hashPos k = Some (Some v).

Lemma leaf_hit_spec leaf hash_ hashPos k :
  leaf_hit leaf hash_ hashPos k <->
  Occupation.test (occupation leaf) (get_hash_chunk hash_ hashPos) = true
  /\ is_some (find_scan k (entries leaf)) = true.
Proof.
  unfold leaf_hit, find_entry.
  destruct (Occupation.test _ _); cbn [negb].
  - destruct (entries leaf) as [|x l] eqn:E.
    + split; [intros [v H]; discriminate|intros [_ H]; simpl in H; discriminate].
    + split.
      * intros [v H]. split; [reflexivity|].
        replace (find_scan k (x :: l)) with (Some v) by congruence. reflexivity.
      * intros [_ H]. destruct (find_scan k (x :: l)) as [v|];
          [now exists v|simpl in H; discriminate].
  - split; [intros [v H]; discriminate|intros [H _]; discriminate].
Qed.

Lemma find_entry_hit leaf hash_ hashPos k r :
  find_entry leaf hash_ hashPos k = Some r ->
  is_some r = true -> leaf_hit leaf hash_ hashPos k.
Proof. intros H Hr. destruct r as [v|]; [now exists v|discriminate]. Qed.

Lemma insert_entry_size c leaf hash_ hashPos e b leaf' :
  insert_entry c leaf hash_ hashPos e = Some (b, leaf') ->
  size leaf < capacity c /\ size leaf <= size leaf' <= size leaf + 1
  /\ size leaf' <= capacity c.
Proof.
  unfold insert_entry, size.
  destruct (Z.leb_spec (capacity c) (Z.of_nat (length (entries leaf)))) as [|Hlt];
    [discriminate|].
  destruct (Occupation.test _ _).
  - destruct (entries leaf) as [|x l] eqn:E; [discriminate|].
    destruct (insert_occupied e (x :: l)) as [r|] eqn:Ei; intros H; inversion H; subst.
    + simpl. rewrite (insert_occupied_length _ _ _ Ei). simpl length in *. lia.
    + rewrite E. lia.
  - intros H; inversion H; subst. simpl. rewrite insert_fresh_length. lia.
Qed.

(** A successful [insert_entry] makes the key visible to [find_entry]. *)
Lemma insert_entry_hit c leaf hash_ hashPos e leaf' :
  insert_entry c leaf hash_ hashPos e = Some (true, leaf') ->
  leaf_hit leaf' hash_ hashPos (key e).
Proof.
  unfold insert_entry. destruct (capacity c <=? size leaf); [discriminate|].
  pose proof (get_hash_chunk_range hash_ hashPos) as Hc.
  destruct (Occupation.test _ _) eqn:Ht.
  - destruct (entries leaf) as [|x l] eqn:E; [discriminate|].
    destruct (insert_occupied e (x :: l)) as [r|] eqn:Ei; intros H; inversion H; subst.
    apply leaf_hit_spec. simpl. split; [exact Ht|].
    eapply find_scan_insert_occupied; eauto.
  - intros H; inversion H; subst. apply leaf_hit_spec. simpl. split.
    + apply test_set_same. lia.
    + apply find_scan_insert_fresh.
Qed.

(** Whatever else is inserted, a visible key stays visible. *)
Lemma insert_entry_keeps_hit c leaf hash_ hashPos hash' e b leaf' k :
  leaf_hit leaf hash_ hashPos k ->
  insert_entry c leaf hash' hashPos e = Some (b, leaf') ->
  leaf_hit leaf' hash_ hashPos k.
Proof.
  rewrite !leaf_hit_spec. intros [Ht Hk].
  unfold insert_entry. destruct (capacity c <=? size leaf); [discriminate|].
  pose proof (get_hash_chunk_range hash_ hashPos) as Hc.
  pose proof (get_hash_chunk_range hash' hashPos) as Hc'.
  destruct (Occupation.test (occupation leaf) (get_hash_chunk hash' hashPos)).
  - destruct (entries leaf) as [|x l] eqn:E; [discriminate|].
    destruct (insert_occupied e (x :: l)) as [r|] eqn:Ei; intros H; inversion H; subst.
    + simpl. split; [exact Ht|]. eapply find_scan_keep_occupied; eauto.
    + rewrite E. now split.
  - intros H; inversion H; subst. simpl. split.
    + apply test_set_mono; [lia|lia|exact Ht].
    + now apply find_scan_keep_fresh.
Qed.

(** Inserting a visible key again reports the duplicate and changes
    nothing. *)
Lemma insert_entry_duplicate c leaf hash_ hashPos e :
  leaf_hit leaf hash_ hashPos (key e) ->
  size leaf < capacity c ->
  insert_entry c leaf hash_ hashPos e = Some (false, leaf).
Proof.
  rewrite leaf_hit_spec. intros [Ht Hk] Hs. unfold insert_entry.
  destruct (Z.leb_spec (capacity c) (size leaf)); [lia|].
  rewrite Ht. destruct (entries leaf) as [|x l] eqn:E; [discriminate|].
  now rewrite (insert_occupied_found _ _ Hk).
Qed.

Lemma insert_entry_uint64 c leaf hash_ hashPos e b leaf' :
  insert_entry c leaf hash_ hashPos e = Some (b, leaf') ->
  is_uint64 (occupation leaf) -> is_uint64 (occupation leaf').
Proof.
  unfold insert_entry. destruct (capacity c <=? size leaf); [discriminate|].
  pose proof (get_hash_chunk_range hash_ hashPos) as Hc.
  destruct (Occupation.test _ _).
  - destruct (entries leaf) as [|x l] eqn:E; [discriminate|].
    destruct (insert_occupied e (x :: l)); intros H; inversion H; subst; auto.
  - intros H; inversion H; subst. simpl. intros. now apply set_uint64.
Qed.

Lemma insert_entry_representable c leaf hash_ hashPos e b leaf' :
  insert_entry c leaf hash_ hashPos e = Some (b, leaf') ->
  is_uint64 (occupation leaf) -> leaf_representable c leaf' = true.
Proof.
  intros H Ho. unfold leaf_representable.
  apply andb_true_intro. split.
  - apply uint64b_spec. eapply insert_entry_uint64; eauto.
  - apply insert_entry_size in H. lia.
Qed.

End LeafFacts.

(** ** Child arrays *)

Section SlotFacts.

Context {V : Type}.

#[local] Abbreviation Node := (@NodePtr V).

Implicit Types (child : list Node) (n : Node).

Lemma list_set_same {A} (l : list A) i a :
  nth_error l i = Some a -> list_set l i a = l.
Proof.
  revert i. induction l as [|x l IH]; intros [|i] H; simpl in *;
    try discriminate; [congruence|]. now rewrite IH.
Qed.

Lemma list_set_nth {A} (l : list A) i a :
  (i < length l)%nat -> nth_error (list_set l i a) i = Some a.
Proof.
  revert i. induction l as [|x l IH]; intros [|i] H; simpl in *; try lia;
    [reflexivity|]. apply IH. lia.
Qed.

Lemma list_set_nth_other {A} (l : list A) i j a :
  i <> j -> nth_error (list_set l i a) j = nth_error l j.
Proof.
  revert i j. induction l as [|x l IH]; intros [|i] [|j] H; simpl; try reflexivity;
    [congruence|]. apply IH. congruence.
Qed.

Lemma list_set_length {A} (l : list A) i a : length (list_set l i a) = length l.
Proof.
  revert i. induction l as [|x l IH]; intros [|i]; simpl; try reflexivity.
  now rewrite IH.
Qed.

Lemma list_set_twice {A} (l : list A) i a b :
  list_set (list_set l i a) i b = list_set l i b.
Proof.
  revert i. induction l as [|x l IH]; intros [|i]; simpl; try reflexivity.
  now rewrite IH.
Qed.

Lemma child_at_Some child i n :
  child_at child i = Some n ->
  0 <= i < Z.of_nat (length child) /\ nth_error child (Z.to_nat i) = Some n.
Proof.
  unfold child_at. destruct (Z.ltb_spec i 0) as [|Hi0]; [discriminate|]. intros Hn.
  split; [|exact Hn].
  assert (Z.to_nat i < length child)%nat by (apply nth_error_Some; congruence). lia.
Qed.

Lemma child_set_same child i n :
  child_at child i = Some n -> child_set child i n = Some child.
Proof.
  intros H. apply child_at_Some in H as [Hi Hn]. unfold child_set.
  destruct (Z.leb_spec 0 i); [|lia].
  destruct (Z.ltb_spec i (Z.of_nat (length child))); [|lia].
  simpl. now rewrite list_set_same.
Qed.

Lemma child_set_Some child i n child' :
  child_set child i n = Some child' ->
  0 <= i < Z.of_nat (length child)
  /\ child' = list_set child (Z.to_nat i) n.
Proof.
  unfold child_set.
  destruct (Z.leb_spec 0 i) as [Hi0|]; [|discriminate].
  destruct (Z.ltb_spec i (Z.of_nat (length child))) as [Hi1|]; [|discriminate].
  simpl. intros Hs. inversion Hs. split; [lia|reflexivity].
Qed.

Lemma child_at_set child i n child' :
  child_set child i n = Some child' -> child_at child' i = Some n.
Proof.
  intros H. apply child_set_Some in H as [Hi ->]. unfold child_at.
  destruct (Z.ltb_spec i 0); [lia|]. apply list_set_nth. lia.
Qed.

Lemma child_at_set_other child i j n child' :
  child_set child i n = Some child' -> i <> j -> 0 <= j ->
  child_at child' j = child_at child j.
Proof.
  intros H Hij Hj. apply child_set_Some in H as [Hi ->]. unfold child_at.
  destruct (Z.ltb_spec j 0); [lia|]. apply list_set_nth_other. lia.
Qed.

Lemma child_set_length child i n child' :
  child_set child i n = Some child' -> length child' = length child.
Proof.
  intros H. apply child_set_Some in H as [Hi ->]. apply list_set_length.
Qed.

Lemma child_set_twice child i n child' m :
  child_set child i n = Some child' ->
  child_set child' i m = child_set child i m.
Proof.
  intros H. apply child_set_Some in H as [Hi ->]. unfold child_set.
  rewrite list_set_length, list_set_twice. reflexivity.
Qed.

Lemma child_set_defined child i n :
  0 <= i < Z.of_nat (length child) ->
  child_set child i n = Some (list_set child (Z.to_nat i) n).
Proof.
  intros Hi. unfold child_set.
  destruct (Z.leb_spec 0 i); [|lia].
  destruct (Z.ltb_spec i (Z.of_nat (length child))); [|lia]. reflexivity.
Qed.

Lemma forallb_list_set {A} (f : A -> bool) l i a :
  forallb f l = true -> f a = true -> forallb f (list_set l i a) = true.
Proof.
  revert i. induction l as [|x l IH]; intros [|i] Hl Ha; simpl in *; auto.
  - apply andb_prop in Hl as [_ Hl]. now rewrite Ha.
  - apply andb_prop in Hl as [Hx Hl]. rewrite Hx. simpl. now apply IH.
Qed.

Lemma forallb_nth_error {A} (f : A -> bool) l i a :
  forallb f l = true -> nth_error l i = Some a -> f a = true.
Proof.
  intros Hl Hn. rewrite forallb_forall in Hl. apply Hl.
  eapply nth_error_In; eauto.
Qed.

Lemma representable_child_at child i n :
  forallb representable child = true ->
  child_at child i = Some n -> representable n = true.
Proof.
  intros Hc H. apply child_at_Some in H as [_ H].
  eapply forallb_nth_error; eauto.
Qed.

Lemma representable_child_set child i n child' :
  forallb representable child = true -> representable n = true ->
  child_set child i n = Some child' ->
  forallb representable child' = true.
Proof.
  intros Hc Hn H. apply child_set_Some in H as [_ ->].
  now apply forallb_list_set.
Qed.

End SlotFacts.

(** ** Insertion of a key that is already stored *)

Section InsertFacts.

Context {V : Type}.
Variable hash : Z -> Z.

#[local] Abbreviation Entry := (HighsHashTableEntry V).
#[local] Abbreviation Node := (@NodePtr V).

Implicit Types (e : Entry) (node n : Node) (child : list Node).

Lemma find_chain_has k (chain : list Entry) v :
  find_chain k chain = Some v -> chain_has k chain = true.
Proof.
  induction chain as [|x chain IH]; simpl; [discriminate|].
  destruct (key x =? k); [reflexivity|]. exact IH.
Qed.

Lemma chain_has_find k (chain : list Entry) :
  chain_has k chain = true -> is_some (find_chain k chain) = true.
Proof.
  induction chain as [|x chain IH]; simpl; [discriminate|].
  destruct (key x =? k); [reflexivity|]. exact IH.
Qed.

Lemma leaf_representable_size c (leaf : @InnerLeaf V) :
  leaf_representable c leaf = true -> size leaf <= capacity c.
Proof. unfold leaf_representable. intros H. apply andb_prop in H as [_ H]. lia. Qed.

Lemma leaf_representable_uint64 c (leaf : @InnerLeaf V) :
  leaf_representable c leaf = true -> is_uint64 (occupation leaf).
Proof.
  unfold leaf_representable. intros H. apply andb_prop in H as [H _].
  now apply uint64b_spec.
Qed.

(** On a leaf that reports the key, insertion returns [false] and leaves
    the leaf alone, whether the leaf is full or not. *)
Lemma insert_recurse_leaf_hit fuel c (leaf : @InnerLeaf V) hash_ hashPos e :
  chunk_defined hashPos = true ->
  size leaf <= capacity c ->
  leaf_hit leaf hash_ hashPos (key e) ->
  insert_recurse hash (S fuel) (InnerLeafPtr c leaf) hash_ hashPos e
  = Some (false, InnerLeafPtr c leaf).
Proof.
  intros Hd Hs Hhit. cbn [insert_recurse]. rewrite Hd. cbn [negb].
  assert (Hfind : exists r, find_entry leaf hash_ hashPos (key e) = Some r
                            /\ is_some r = true).
  { destruct Hhit as [v Hv]. now exists (Some v). }
  destruct Hfind as (r & Hr & Hsome).
  destruct c; unfold insert_into_leaf.
  1-3: match goal with
       | |- context [size ?lf =? capacity ?c] =>
           destruct (Z.eqb_spec (size lf) (capacity c)) as [Heq|Hne]
       end;
    [ rewrite Hr, Hsome; reflexivity
    | rewrite insert_entry_duplicate by (assumption || lia); reflexivity ].
  destruct (Z.ltb_spec (size leaf) (capacity Class4)).
  - rewrite insert_entry_duplicate by (assumption || lia). reflexivity.
  - rewrite Hr, Hsome. reflexivity.
Qed.

Lemma insert_recurse_found fuel : forall node hash_ hashPos e v,
  representable node = true ->
  find_recurse fuel node hash_ hashPos (key e) = Some (Some v) ->
  insert_recurse hash fuel node hash_ hashPos e = Some (false, node).
Proof.
  induction fuel as [|fuel IH]; intros node hash_ hashPos e v Hrep;
    [discriminate|].
  destruct node as [|first next count|c leaf|occ child].
  - discriminate.
  - cbn [find_recurse insert_recurse]. intros Hf.
    assert (Hc : find_chain (key e) (first :: next) = Some v) by congruence.
    now rewrite (find_chain_has _ _ _ Hc).
  - cbn [find_recurse].
    destruct (chunk_defined hashPos) eqn:Hd; [|discriminate]. cbn [negb].
    intros Hf.
    apply insert_recurse_leaf_hit; [assumption| |now exists v].
    now apply leaf_representable_size.
  - cbn [find_recurse insert_recurse].
    destruct (chunk_defined hashPos) eqn:Hd; [|discriminate]. cbn [negb].
    destruct (Occupation.test occ (get_hash_chunk hash_ hashPos)) eqn:Ht;
      [|discriminate]. cbn [negb].
    destruct (child_at child _) as [n|] eqn:En; [|discriminate].
    intros Hf.
    cbn [representable] in Hrep. apply andb_prop in Hrep as [_ Hc].
    rewrite (IH n hash_ (hashPos + 1) e v); [|eapply representable_child_at; eauto|assumption].
    now rewrite (child_set_same _ _ _ En).
Qed.

End InsertFacts.

(** ** A second insertion of the same entry *)

Section InsertTwice.

Context {V : Type}.
Variable hash : Z -> Z.

#[local] Abbreviation Entry := (HighsHashTableEntry V).
#[local] Abbreviation Node := (@NodePtr V).

Implicit Types (e x : Entry) (node n : Node) (child : list Node).

(** Take apart a successful monadic step in hypothesis [H]. *)
Ltac inv_bind H :=
  match type of H with
  | match ?c with Some _ => _ | None => None end = Some _ =>
      let E := fresh "E" in
      destruct c eqn:E; [|discriminate H];
      repeat match goal with p : (_ * _)%type |- _ => destruct p end
  end.

(** Read off the result of a successful call in hypothesis [H]. *)
Ltac inv_result H :=
  injection H; clear H; intros;
  repeat match goal with
         | Heq : ?x = true |- _ => is_var x; subst x
         | Heq : ?x = false |- _ => is_var x; subst x
         | Heq : _ = ?x |- _ => is_var x; subst x
         end.

(** [insert_entry] leaves the key visible, whatever it returns. *)
Lemma insert_entry_hit_any c (leaf : @InnerLeaf V) hash_ hashPos e b leaf' :
  insert_entry c leaf hash_ hashPos e = Some (b, leaf') ->
  leaf_hit leaf' hash_ hashPos (key e).
Proof.
  destruct b; [apply insert_entry_hit|].
  unfold insert_entry. destruct (capacity c <=? size leaf); [discriminate|].
  destruct (Occupation.test _ _) eqn:Ht; [|discriminate].
  destruct (entries leaf) as [|y l] eqn:E; [discriminate|].
  destruct (insert_occupied e (y :: l)) as [r|] eqn:Ei; [discriminate|].
  intros H. inversion H; subst. apply leaf_hit_spec. split; [exact Ht|].
  rewrite E. now apply insert_occupied_none.
Qed.

(** *** The list-leaf burst *)

Definition chain_slot child (pos k : Z) : Prop :=
  exists first next count,
    child_at child pos = Some (ListLeafPtr first next count)
    /\ chain_has k (first :: next) = true.

Lemma burst_list_loop_keeps k : forall (l : list Entry) child pos child',
  burst_list_loop child pos l = Some child' ->
  chain_slot child pos k -> chain_slot child' pos k.
Proof.
  induction l as [|x l IH]; intros child pos child'; cbn [burst_list_loop];
    intros H Hs.
  - now inversion H; subst.
  - destruct Hs as (f & nx & cnt & Hat & Hk). rewrite Hat in H.
    inv_bind H. eapply IH; [exact H|].
    exists x, (f :: nx), (cnt + 1). split; [eapply child_at_set; eauto|].
    cbn [chain_has existsb] in *. rewrite Hk. apply orb_true_r.
Qed.

(** *** The inner-leaf bursts *)

Definition leaf_slot child (pos hash_ hashPos k : Z) : Prop :=
  exists c leaf,
    child_at child pos = Some (InnerLeafPtr c leaf)
    /\ leaf_hit leaf hash_ hashPos k /\ size leaf <= capacity c.

Lemma insert_into_child_hit child pos hash_ hashPos e child' :
  insert_into_child child pos hash_ hashPos e = Some child' ->
  leaf_slot child' pos hash_ (hashPos + 1) (key e).
Proof.
  unfold insert_into_child. intros H. inv_bind H.
  destruct n as [| | c leaf |]; try discriminate. inv_bind H.
  exists c, i. split; [eapply child_at_set; eauto|]. split.
  - eapply insert_entry_hit_any; eauto.
  - apply insert_entry_size in E0. lia.
Qed.

Lemma insert_into_child_keeps child pos' hash' hashPos x child' pos hash_ k :
  insert_into_child child pos' hash' hashPos x = Some child' ->
  leaf_slot child pos hash_ (hashPos + 1) k ->
  leaf_slot child' pos hash_ (hashPos + 1) k.
Proof.
  unfold insert_into_child. intros H (c & leaf & Hat & Hhit & Hsz). inv_bind H.
  destruct n as [| | c' leaf' |]; try discriminate. inv_bind H.
  destruct (Z.eq_dec pos' pos) as [->|Hne].
  - rewrite Hat in E. inversion E; subst c' leaf'.
    exists c, i. split; [eapply child_at_set; eauto|]. split.
    + eapply insert_entry_keeps_hit; eauto.
    + apply insert_entry_size in E0. lia.
  - exists c, leaf. split; [|now split].
    rewrite <- Hat. eapply child_at_set_other; eauto.
    apply child_at_Some in Hat. lia.
Qed.

Lemma distribute_keeps occ hashPos pos hash_ k : forall (l : list Entry) child child',
  distribute hash occ child hashPos l = Some child' ->
  leaf_slot child pos hash_ (hashPos + 1) k ->
  leaf_slot child' pos hash_ (hashPos + 1) k.
Proof.
  induction l as [|x l IH]; intros child child'; cbn [distribute]; intros H Hs.
  - now inversion H; subst.
  - inv_bind H. eapply IH; [exact H|]. eapply insert_into_child_keeps; eauto.
Qed.

Lemma insert_into_child_representable child pos hash_ hashPos x child' :
  insert_into_child child pos hash_ hashPos x = Some child' ->
  forallb representable child = true -> forallb representable child' = true.
Proof.
  unfold insert_into_child. intros H Hc. inv_bind H.
  destruct n as [| | c leaf |] eqn:En; try discriminate. inv_bind H.
  eapply representable_child_set; [exact Hc| |exact H].
  cbn [representable]. eapply insert_entry_representable; [exact E0|].
  eapply (leaf_representable_uint64 c).
  change (representable (InnerLeafPtr c leaf) = true).
  eapply representable_child_at; eauto.
Qed.

Lemma distribute_representable occ hashPos : forall (l : list Entry) child child',
  distribute hash occ child hashPos l = Some child' ->
  forallb representable child = true -> forallb representable child' = true.
Proof.
  induction l as [|x l IH]; intros child child'; cbn [distribute]; intros H Hc.
  - now inversion H; subst.
  - inv_bind H. eapply IH; [exact H|].
    eapply insert_into_child_representable; eauto.
Qed.

Lemma class_for_capacity s c : class_for s = Some c -> s <= capacity c.
Proof.
  unfold class_for. intros H.
  assert (Hs : (s + 1) / 8 = kSizeClass c - 1).
  { destruct ((s + 1) / 8) as [|q|q]; try discriminate.
    - inversion H; reflexivity.
    - destruct q as [[|[]|]|[|[]|]|]; try discriminate; inversion H; reflexivity. }
  pose proof (Z.div_mod (s + 1) 8 ltac:(lia)) as Hdm.
  pose proof (Z.mod_pos_bound (s + 1) 8 ltac:(lia)) as Hm.
  rewrite Hs in Hdm.
  destruct c;
    [change (capacity Class1) with 6|change (capacity Class2) with 14
    |change (capacity Class3) with 22|change (capacity Class4) with 30];
    cbn [kSizeClass] in Hdm; lia.
Qed.

Lemma alloc_children_representable : forall sizes child,
  @alloc_children V sizes = Some child -> forallb representable child = true.
Proof.
  induction sizes as [|s sizes IH]; intros child; cbn [alloc_children]; intros H.
  - now inversion H.
  - inv_bind H. inv_bind H. inversion H; subst. cbn [forallb].
    rewrite (IH l) by reflexivity.
    destruct s0; reflexivity.
Qed.


Lemma chunk_defined_range hashPos :
  chunk_defined hashPos = true -> 0 <= hashPos < kMaxDepth.
Proof. unfold chunk_defined. lia. Qed.

Lemma child_prefix_Some child (m : Z) slots :
  child_prefix child m = Some slots ->
  0 <= m <= Z.of_nat (length child) /\ slots = firstn (Z.to_nat m) child
  /\ length slots = Z.to_nat m.
Proof.
  unfold child_prefix.
  destruct (Z.leb_spec 0 m) as [H0|]; [|discriminate].
  destruct (Z.leb_spec m (Z.of_nat (length child))) as [H1|]; [|discriminate].
  simpl. intros H. inversion H. split; [lia|]. split; [reflexivity|].
  rewrite length_firstn. lia.
Qed.

Lemma addChildToBranchNode_slot occ child hashValue location child' :
  addChildToBranchNode occ child hashValue location = Some child' ->
  child_at child' location = Some Empty.
Proof.
  unfold addChildToBranchNode. intros H. inv_bind H. inv_bind H.
  inversion H; subst. apply child_prefix_Some in E as (Hl & _ & Hlen).
  unfold child_at. destruct (Z.ltb_spec location 0); [lia|].
  rewrite nth_error_app2 by lia. rewrite Hlen, Nat.sub_diag. reflexivity.
Qed.


Lemma fuel_step hashPos (f : nat) :
  chunk_defined hashPos = true ->
  kMaxDepth + 1 - hashPos <= Z.of_nat (S f) ->
  (1 <= f)%nat /\ kMaxDepth + 1 - (hashPos + 1) <= Z.of_nat f.
Proof.
  intros Hd Hf. apply chunk_defined_range in Hd.
  change kMaxDepth with 11 in *. lia.
Qed.

Lemma insert_recurse_leaf_hit_fuel fuel2 c (leaf : @InnerLeaf V) hash_ hashPos e :
  (1 <= fuel2)%nat ->
  chunk_defined hashPos = true ->
  size leaf <= capacity c ->
  leaf_hit leaf hash_ hashPos (key e) ->
  insert_recurse hash fuel2 (InnerLeafPtr c leaf) hash_ hashPos e
  = Some (false, InnerLeafPtr c leaf).
Proof.
  destruct fuel2 as [|f2]; [lia|]. intros _. apply insert_recurse_leaf_hit.
Qed.

(** After [insert_recurse] returned [true], running it again on the
    result with the same entry returns [false] and changes nothing. *)
Lemma insert_recurse_again fuel : forall node hash_ hashPos e node' fuel2,
  representable node = true ->
  insert_recurse hash fuel node hash_ hashPos e = Some (true, node') ->
  (1 <= fuel2)%nat -> kMaxDepth + 1 - hashPos <= Z.of_nat fuel2 ->
  insert_recurse hash fuel2 node' hash_ hashPos e = Some (false, node').
Proof.
  induction fuel as [|fuel IH]; intros node hash_ hashPos e node' fuel2 Hrep;
    [discriminate|].
  pose proof (get_hash_chunk_range hash_ hashPos) as Hchunk.
  destruct node as [|first next count|c leaf|occ child]; cbn [insert_recurse].
  - (* empty slot *)
    destruct (Z.eqb_spec hashPos kMaxDepth).
    + intros H Hf1 _. inv_result H. destruct fuel2 as [|f2]; [lia|].
      cbn [insert_recurse chain_has existsb].
      now rewrite Z.eqb_refl.
    + destruct (chunk_defined hashPos) eqn:Hd; [|discriminate]. cbn [negb].
      intros H Hf1 _. inv_bind H. inv_result H.
      apply insert_recurse_leaf_hit_fuel; [assumption|assumption| |].
      * apply insert_entry_size in E. lia.
      * eapply insert_entry_hit_any; eauto.
  - (* list leaf *)
    destruct (chain_has (key e) (first :: next)) eqn:Hc; [discriminate|].
    intros H Hf1 _. inv_result H. destruct fuel2 as [|f2]; [lia|].
    cbn [insert_recurse].
    replace (chain_has (key e) (first :: next ++ [e])) with true; [reflexivity|].
    symmetry. unfold chain_has. change (first :: next ++ [e]) with ((first :: next) ++ [e]).
    rewrite existsb_app. cbn [existsb]. rewrite Z.eqb_refl.
    rewrite orb_false_r. apply orb_true_r.
  - (* inner leaf *)
    cbn [representable] in Hrep.
    pose proof (leaf_representable_uint64 _ _ Hrep) as Hocc.
    destruct (chunk_defined hashPos) eqn:Hd; [|destruct c; discriminate].
    cbn [negb].
    assert (Hleaf : forall c' b leaf',
               insert_entry c' leaf hash_ hashPos e = Some (b, leaf') ->
               (1 <= fuel2)%nat ->
               insert_recurse hash fuel2 (InnerLeafPtr c' leaf') hash_ hashPos e
               = Some (false, InnerLeafPtr c' leaf')).
    { intros c' b leaf' Hi Hf1.
      apply insert_recurse_leaf_hit_fuel; [assumption|assumption| |].
      - apply insert_entry_size in Hi. lia.
      - eapply insert_entry_hit_any; eauto. }
    assert (Hinto : forall c', insert_into_leaf hash c' leaf hash_ hashPos e = Some (true, node') ->
               (1 <= fuel2)%nat ->
               insert_recurse hash fuel2 node' hash_ hashPos e = Some (false, node')).
    { intros c'. unfold insert_into_leaf.
      destruct (size leaf =? capacity c').
      - intros Hi Hf1. inv_bind Hi. destruct (is_some o); [discriminate|].
        inv_bind Hi. inv_bind Hi. inv_result Hi.
        apply insert_recurse_leaf_hit_fuel; [assumption|assumption| |].
        + apply insert_entry_size in E1. lia.
        + eapply insert_entry_hit_any; eauto.
      - intros Hi Hf1. inv_bind Hi. inv_result Hi. eapply Hleaf; eauto. }
    destruct c; try (intros H Hf1 _; now apply (Hinto _ H)).
    destruct (size leaf <? capacity Class4).
    { intros H Hf1 _. inv_bind H. inv_result H. eapply Hleaf; eauto. }
    destruct (find_entry leaf hash_ hashPos (key e)) as [o|]; [|discriminate].
    destruct (is_some o); [discriminate|].
    cbv zeta.
    remember (get_hash_chunk hash_ hashPos) as hashChunk eqn:HhC.
    remember (Occupation.set (occupation leaf) hashChunk) as occ eqn:Hocceq.
    assert (Htest : Occupation.test occ hashChunk = true)
      by (subst occ; apply test_set_same; lia).
    assert (Hocc' : is_uint64 occ) by (subst occ; apply set_uint64; [assumption|lia]).
    clear Hocceq.
    pose proof (chunk_defined_range _ Hd) as Hrange.
    assert (Hd' : hashPos + 1 <> kMaxDepth -> chunk_defined (hashPos + 1) = true).
    { unfold chunk_defined. lia. }
    destruct (Z.eqb_spec (hashPos + 1) kMaxDepth) as [Hlast|Hnotlast].
    + (* list leaves *)
      intros H Hf1 Hf2. inv_bind H. inv_bind H. inv_result H.
      assert (Hs : chain_slot l0 (Occupation.num_set_until occ hashChunk - 1) (key e)).
      { eapply burst_list_loop_keeps; [exact E0|].
        exists e, [], 1. split; [eapply child_at_set; eauto|].
        cbn [chain_has existsb]. now rewrite Z.eqb_refl. }
      destruct Hs as (f & nx & cnt & Hat & Hk).
      destruct fuel2 as [|f2]; [lia|].
      cbn [insert_recurse]. rewrite <- HhC. rewrite Hd, Htest. cbn [negb].
      rewrite Hat. destruct (fuel_step _ _ Hd Hf2) as [Hf3 _].
      destruct f2 as [|f3]; [lia|].
      cbn [insert_recurse]. rewrite Hk.
      now rewrite (child_set_same _ _ _ Hat).
    + destruct (Z.ltb_spec 1 (Occupation.num_set occ)) as [Hmany|Hone].
      * destruct (2 + size leaf - Occupation.num_set occ <=? capacity Class1).
        -- (* children of class 1 *)
           intros H Hf1 Hf2. inv_bind H. inv_bind H. inv_result H.
           assert (Hs : leaf_slot l0 (Occupation.num_set_until occ hashChunk - 1)
                          hash_ (hashPos + 1) (key e)).
           { eapply distribute_keeps; [exact E0|].
             eapply insert_into_child_hit; eauto. }
           destruct Hs as (c & lf & Hat & Hhit & Hsz).
           destruct fuel2 as [|f2]; [lia|].
           cbn [insert_recurse]. rewrite <- HhC. rewrite Hd, Htest. cbn [negb].
           rewrite Hat. destruct (fuel_step _ _ Hd Hf2) as [Hf3 _].
           rewrite insert_recurse_leaf_hit_fuel;
             [|assumption|apply Hd'; lia|assumption|assumption].
           now rewrite (child_set_same _ _ _ Hat).
        -- (* children of exact size *)
           intros H Hf1 Hf2. do 7 inv_bind H. inv_result H.
           assert (Hrepn : representable n = true).
           { eapply representable_child_at; [|exact E3].
             eapply distribute_representable; [exact E2|].
             eapply alloc_children_representable; eauto. }
           destruct fuel2 as [|f2]; [lia|].
           cbn [insert_recurse]. rewrite <- HhC. rewrite Hd, Htest. cbn [negb].
           rewrite (child_at_set _ _ _ _ E5).
           destruct (fuel_step _ _ Hd Hf2) as [Hf3 Hf4].
           rewrite (IH _ _ _ _ _ f2 Hrepn E4 Hf3 Hf4).
           rewrite (child_set_same _ _ _ (child_at_set _ _ _ _ E5)). reflexivity.
      * (* a single child: the leaf moves one level down *)
        intros H Hf1 Hf2. inv_bind H. inv_result H.
        assert (Hloc : Occupation.num_set_until occ hashChunk - 1 = 0).
        { pose proof (num_set_until_pos occ hashChunk ltac:(lia) Htest).
          pose proof (num_set_until_le_num_set occ hashChunk Hocc' ltac:(lia)). lia. }
        destruct fuel2 as [|f2]; [lia|].
        cbn [insert_recurse]. rewrite <- HhC. rewrite Hd, Htest. cbn [negb].
        rewrite Hloc. cbn [child_at Z.ltb Z.compare Z.to_nat nth_error].
        destruct (fuel_step _ _ Hd Hf2) as [Hf3 Hf4].
        rewrite (IH (InnerLeafPtr Class4 leaf) _ _ _ _ f2 Hrep E Hf3 Hf4).
        reflexivity.
  - (* branch *)
    cbn [representable] in Hrep. apply andb_prop in Hrep as [Hocc Hc].
    destruct (chunk_defined hashPos) eqn:Hd; [|discriminate]. cbn [negb].
    remember (get_hash_chunk hash_ hashPos) as hashChunk eqn:HhC.
    destruct (Occupation.test occ hashChunk) eqn:Ht.
    + intros H Hf1 Hf2. do 3 inv_bind H. inv_result H.
      destruct fuel2 as [|f2]; [lia|].
      cbn [insert_recurse]. rewrite <- HhC. rewrite Hd, Ht. cbn [negb].
      rewrite (child_at_set _ _ _ _ E1).
      destruct (fuel_step _ _ Hd Hf2) as [Hf3 Hf4].
      rewrite (IH _ _ _ _ _ f2 (representable_child_at _ _ _ Hc E) E0 Hf3 Hf4).
      rewrite (child_set_same _ _ _ (child_at_set _ _ _ _ E1)). reflexivity.
    + intros H Hf1 Hf2. inv_bind H. inv_bind E. injection E as <- <- <-.
      do 3 inv_bind H. inv_result H.
      rewrite (addChildToBranchNode_slot _ _ _ _ _ E0) in E. injection E as <-.
      destruct fuel2 as [|f2]; [lia|].
      cbn [insert_recurse]. rewrite <- HhC. rewrite Hd.
      rewrite test_set_same by lia. cbn [negb].
      rewrite num_set_until_set by (assumption || lia).
      replace (Occupation.num_set_until occ hashChunk + 1 - 1)
        with (Occupation.num_set_until occ hashChunk) by lia.
      rewrite (child_at_set _ _ _ _ E2).
      destruct (fuel_step _ _ Hd Hf2) as [Hf3 Hf4].
      rewrite (IH Empty _ _ _ _ f2 eq_refl E1 Hf3 Hf4).
      rewrite (child_set_same _ _ _ (child_at_set _ _ _ _ E2)). reflexivity.
Qed.

End InsertTwice.

(** ** Lookup after insertion *)

Section InsertThenFind.

Context {V : Type}.
Variable hash : Z -> Z.

#[local] Abbreviation Entry := (HighsHashTableEntry V).
#[local] Abbreviation Node := (@NodePtr V).

Implicit Types (e x : Entry) (node n : Node) (child : list Node).

Ltac inv_bind H :=
  match type of H with
  | match ?c with Some _ => _ | None => None end = Some _ =>
      let E := fresh "E" in
      destruct c eqn:E; [|discriminate H];
      repeat match goal with p : (_ * _)%type |- _ => destruct p end
  end.

Ltac inv_result H :=
  injection H; clear H; intros;
  repeat match goal with
         | Heq : ?x = true |- _ => is_var x; subst x
         | Heq : ?x = false |- _ => is_var x; subst x
         | Heq : _ = ?x |- _ => is_var x; subst x
         end.

(** [find_recurse] reports the key [k] below [node]. *)
Definition found (fuel : nat) node (hash_ hashPos k : Z) : Prop :=
  exists v, find_recurse fuel node hash_ hashPos k = Some (Some v).

Lemma found_leaf fuel c (leaf : @InnerLeaf V) hash_ hashPos k :
  (1 <= fuel)%nat -> chunk_defined hashPos = true ->
  leaf_hit leaf hash_ hashPos k ->
  found fuel (InnerLeafPtr c leaf) hash_ hashPos k.
Proof.
  destruct fuel as [|f]; [lia|]. intros _ Hd [v Hv]. exists v.
  cbn [find_recurse]. rewrite Hd. exact Hv.
Qed.

Lemma found_chain fuel first next count hash_ hashPos k :
  (1 <= fuel)%nat -> chain_has k (first :: next) = true ->
  found fuel (ListLeafPtr first next count) hash_ hashPos k.
Proof.
  destruct fuel as [|f]; [lia|]. intros _ Hc.
  apply chain_has_find in Hc. unfold found. cbn [find_recurse].
  destruct (find_chain k (first :: next)) as [v|]; [now exists v|discriminate].
Qed.

Lemma found_branch f occ child hash_ hashPos k n :
  chunk_defined hashPos = true ->
  Occupation.test occ (get_hash_chunk hash_ hashPos) = true ->
  child_at child (Occupation.num_set_until occ (get_hash_chunk hash_ hashPos) - 1)
  = Some n ->
  found f n hash_ (hashPos + 1) k ->
  found (S f) (BranchPtr occ child) hash_ hashPos k.
Proof.
  intros Hd Ht Hat [v Hv]. exists v. cbn [find_recurse].
  rewrite Hd, Ht. cbn [negb]. rewrite Hat. exact Hv.
Qed.

(** Whatever [insert_recurse] returns, the key of the entry is found in
    the node it leaves behind. *)
Lemma insert_recurse_then_found fuel : forall node hash_ hashPos e b node' fuel2,
  representable node = true ->
  insert_recurse hash fuel node hash_ hashPos e = Some (b, node') ->
  (1 <= fuel2)%nat -> kMaxDepth + 1 - hashPos <= Z.of_nat fuel2 ->
  found fuel2 node' hash_ hashPos (key e).
Proof.
  induction fuel as [|fuel IH]; intros node hash_ hashPos e b node' fuel2 Hrep;
    [discriminate|].
  pose proof (get_hash_chunk_range hash_ hashPos) as Hchunk.
  destruct node as [|first next count|c leaf|occ child]; cbn [insert_recurse].
  - (* empty slot *)
    destruct (Z.eqb_spec hashPos kMaxDepth).
    + intros H Hf1 _. inv_result H. apply found_chain; [assumption|].
      cbn [chain_has existsb]. now rewrite Z.eqb_refl.
    + destruct (chunk_defined hashPos) eqn:Hd; [|discriminate]. cbn [negb].
      intros H Hf1 _. inv_bind H. inv_result H.
      apply found_leaf; [assumption|assumption|].
      eapply insert_entry_hit_any; eauto.
  - (* list leaf *)
    destruct (chain_has (key e) (first :: next)) eqn:Hc.
    + intros H Hf1 _. inv_result H. now apply found_chain.
    + intros H Hf1 _. inv_result H. apply found_chain; [assumption|].
      unfold chain_has. change (first :: next ++ [e]) with ((first :: next) ++ [e]).
      rewrite existsb_app. cbn [existsb]. rewrite Z.eqb_refl.
      rewrite orb_false_r. apply orb_true_r.
  - (* inner leaf *)
    cbn [representable] in Hrep.
    pose proof (leaf_representable_uint64 _ _ Hrep) as Hocc.
    destruct (chunk_defined hashPos) eqn:Hd; [|destruct c; discriminate].
    cbn [negb].
    assert (Hleaf : forall c' b' leaf',
               insert_entry c' leaf hash_ hashPos e = Some (b', leaf') ->
               (1 <= fuel2)%nat ->
               found fuel2 (InnerLeafPtr c' leaf') hash_ hashPos (key e)).
    { intros c' b' leaf' Hi Hf1. apply found_leaf; [assumption|assumption|].
      eapply insert_entry_hit_any; eauto. }
    assert (Hinto : forall c', insert_into_leaf hash c' leaf hash_ hashPos e = Some (b, node') ->
               (1 <= fuel2)%nat ->
               found fuel2 node' hash_ hashPos (key e)).
    { intros c'. unfold insert_into_leaf.
      destruct (size leaf =? capacity c').
      - intros Hi Hf1. inv_bind Hi. destruct (is_some o) eqn:Hsome.
        + inv_result Hi. apply found_leaf; [assumption|assumption|].
          eapply find_entry_hit; eauto.
        + inv_bind Hi. inv_bind Hi. inv_result Hi.
          apply found_leaf; [assumption|assumption|].
          eapply insert_entry_hit_any; eauto.
      - intros Hi Hf1. inv_bind Hi. inv_result Hi. eapply Hleaf; eauto. }
    destruct c; try (intros H Hf1 _; now apply (Hinto _ H)).
    destruct (size leaf <? capacity Class4).
    { intros H Hf1 _. inv_bind H. inv_result H. eapply Hleaf; eauto. }
    destruct (find_entry leaf hash_ hashPos (key e)) as [o|] eqn:Hfind; [|discriminate].
    destruct (is_some o) eqn:Hsome.
    { intros H Hf1 _. inv_result H. apply found_leaf; [assumption|assumption|].
      eapply find_entry_hit; eauto. }
    cbv zeta.
    remember (get_hash_chunk hash_ hashPos) as hashChunk eqn:HhC.
    remember (Occupation.set (occupation leaf) hashChunk) as occ eqn:Hocceq.
    assert (Htest : Occupation.test occ hashChunk = true)
      by (subst occ; apply test_set_same; lia).
    assert (Hocc' : is_uint64 occ) by (subst occ; apply set_uint64; [assumption|lia]).
    clear Hocceq.
    pose proof (chunk_defined_range _ Hd) as Hrange.
    assert (Hd' : hashPos + 1 <> kMaxDepth -> chunk_defined (hashPos + 1) = true).
    { unfold chunk_defined. lia. }
    destruct (Z.eqb_spec (hashPos + 1) kMaxDepth) as [Hlast|Hnotlast].
    + (* list leaves *)
      intros H Hf1 Hf2. inv_bind H. inv_bind H. inv_result H.
      assert (Hs : chain_slot l0 (Occupation.num_set_until occ hashChunk - 1) (key e)).
      { eapply burst_list_loop_keeps; [exact E0|].
        exists e, [], 1. split; [eapply child_at_set; eauto|].
        cbn [chain_has existsb]. now rewrite Z.eqb_refl. }
      destruct Hs as (f & nx & cnt & Hat & Hk).
      destruct fuel2 as [|f2]; [lia|].
      destruct (fuel_step _ _ Hd Hf2) as [Hf3 _].
      eapply found_branch; [assumption|now rewrite <- HhC|rewrite <- HhC; exact Hat|].
      now apply found_chain.
    + destruct (Z.ltb_spec 1 (Occupation.num_set occ)) as [Hmany|Hone].
      * destruct (2 + size leaf - Occupation.num_set occ <=? capacity Class1).
        -- (* children of class 1 *)
           intros H Hf1 Hf2. inv_bind H. inv_bind H. inv_result H.
           assert (Hs : leaf_slot l0 (Occupation.num_set_until occ hashChunk - 1)
                          hash_ (hashPos + 1) (key e)).
           { eapply distribute_keeps; [exact E0|].
             eapply insert_into_child_hit; eauto. }
           destruct Hs as (c & lf & Hat & Hhit & Hsz).
           destruct fuel2 as [|f2]; [lia|].
           destruct (fuel_step _ _ Hd Hf2) as [Hf3 _].
           eapply found_branch; [assumption|now rewrite <- HhC|rewrite <- HhC; exact Hat|].
           apply found_leaf; [assumption|apply Hd'; lia|assumption].
        -- (* children of exact size *)
           intros H Hf1 Hf2. do 7 inv_bind H. inv_result H.
           assert (Hrepn : representable n = true).
           { eapply representable_child_at; [|exact E3].
             eapply distribute_representable; [exact E2|].
             eapply alloc_children_representable; eauto. }
           destruct fuel2 as [|f2]; [lia|].
           destruct (fuel_step _ _ Hd Hf2) as [Hf3 Hf4].
           eapply found_branch;
             [assumption|now rewrite <- HhC
             |rewrite <- HhC; eapply child_at_set; exact E5|].
           exact (IH _ _ _ _ _ _ f2 Hrepn E4 Hf3 Hf4).
      * (* a single child: the leaf moves one level down *)
        intros H Hf1 Hf2. inv_bind H. inv_result H.
        assert (Hloc : Occupation.num_set_until occ hashChunk - 1 = 0).
        { pose proof (num_set_until_pos occ hashChunk ltac:(lia) Htest).
          pose proof (num_set_until_le_num_set occ hashChunk Hocc' ltac:(lia)). lia. }
        destruct fuel2 as [|f2]; [lia|].
        destruct (fuel_step _ _ Hd Hf2) as [Hf3 Hf4].
        eapply found_branch;
          [assumption|now rewrite <- HhC|rewrite <- HhC, Hloc; reflexivity|].
        exact (IH (InnerLeafPtr Class4 leaf) _ _ _ _ _ f2 Hrep E Hf3 Hf4).
  - (* branch *)
    cbn [representable] in Hrep. apply andb_prop in Hrep as [Hocc Hc].
    destruct (chunk_defined hashPos) eqn:Hd; [|discriminate]. cbn [negb].
    remember (get_hash_chunk hash_ hashPos) as hashChunk eqn:HhC.
    destruct (Occupation.test occ hashChunk) eqn:Ht.
    + intros H Hf1 Hf2. do 3 inv_bind H. inv_result H.
      destruct fuel2 as [|f2]; [lia|].
      destruct (fuel_step _ _ Hd Hf2) as [Hf3 Hf4].
      eapply found_branch;
        [assumption|now rewrite <- HhC
        |rewrite <- HhC; eapply child_at_set; exact E1|].
      exact (IH _ _ _ _ _ _ f2 (representable_child_at _ _ _ Hc E) E0 Hf3 Hf4).
    + intros H Hf1 Hf2. inv_bind H. inv_bind E. injection E as <- <- <-.
      do 3 inv_bind H. inv_result H.
      rewrite (addChildToBranchNode_slot _ _ _ _ _ E0) in E. injection E as <-.
      destruct fuel2 as [|f2]; [lia|].
      destruct (fuel_step _ _ Hd Hf2) as [Hf3 Hf4].
      eapply found_branch; [assumption| | |].
      * rewrite <- HhC. apply test_set_same. lia.
      * rewrite <- HhC. rewrite num_set_until_set by (assumption || lia).
        replace (Occupation.num_set_until occ hashChunk + 1 - 1)
          with (Occupation.num_set_until occ hashChunk) by lia.
        eapply child_at_set; exact E2.
      * exact (IH Empty _ _ _ _ _ f2 eq_refl E1 Hf3 Hf4).
Qed.

End InsertThenFind.

(** ** Inner leaves as sorted maps *)

Section LeafInvariant.

Context {V : Type}.
Variable hash : Z -> Z.

#[local] Abbreviation Entry := (HighsHashTableEntry V).
#[local] Abbreviation Leaf := (@InnerLeaf V).

Implicit Types (l : list Entry) (e x : Entry) (leaf : Leaf) (k : Z).

Lemma sorted_keys_tail x l : sorted_keys (x :: l) = true -> sorted_keys l = true.
Proof.
  cbn [sorted_keys]. destruct l as [|y l]; [reflexivity|].
  intros H. now apply andb_prop in H as [_ H].
Qed.

Lemma sorted_keys_head x l :
  sorted_keys (x :: l) = true -> forall y, In y l -> key x < key y.
Proof.
  revert x. induction l as [|z l IH]; intros x Hs y Hy; [destruct Hy|].
  cbn [sorted_keys] in Hs. apply andb_prop in Hs as [Hxz Hs].
  destruct Hy as [->|Hy]; [lia|].
  specialize (IH z Hs y Hy). lia.
Qed.

Lemma sorted_keys_cons x l :
  sorted_keys l = true -> (forall y, In y l -> key x < key y) ->
  sorted_keys (x :: l) = true.
Proof.
  intros Hs Hx. cbn [sorted_keys]. destruct l as [|y l]; [reflexivity|].
  apply andb_true_intro. split; [|exact Hs].
  specialize (Hx y (or_introl eq_refl)). lia.
Qed.

Lemma lookup_key_none k l :
  (forall y, In y l -> key y <> k) -> lookup_key k l = None.
Proof.
  induction l as [|x l IH]; intros H; cbn [lookup_key]; [reflexivity|].
  destruct (Z.eqb_spec k (key x)) as [->|].
  - exfalso. apply (H x); [now left|reflexivity].
  - apply IH. intros y Hy. apply H. now right.
Qed.

Lemma lookup_key_some k l v :
  lookup_key k l = Some v -> exists x, In x l /\ key x = k /\ value x = v.
Proof.
  induction l as [|x l IH]; cbn [lookup_key]; [discriminate|].
  destruct (Z.eqb_spec k (key x)) as [->|].
  - intros H. injection H as <-. exists x. repeat split. now left.
  - intros H. destruct (IH H) as (y & Hy & Hk & Hv). exists y. repeat split; auto.
    now right.
Qed.

Lemma lookup_key_has k l : is_some (lookup_key k l) = chain_has k l.
Proof.
  induction l as [|x l IH]; [reflexivity|].
  cbn [lookup_key chain_has existsb]. rewrite (Z.eqb_sym (key x) k).
  destruct (k =? key x); [reflexivity|]. exact IH.
Qed.

(** On a sorted array the early exit of the scan loses nothing. *)
Lemma find_scan_lookup k l :
  sorted_keys l = true -> find_scan k l = lookup_key k l.
Proof.
  induction l as [|x l IH]; intros Hs; cbn [find_scan lookup_key]; [reflexivity|].
  destruct (Z.leb_spec k (key x)) as [Hle|Hgt].
  - destruct (Z.eqb_spec k (key x)) as [->|Hne]; [reflexivity|].
    symmetry. apply lookup_key_none. intros y Hy.
    pose proof (sorted_keys_head _ _ Hs y Hy). lia.
  - destruct (Z.eqb_spec k (key x)); [lia|].
    apply IH. eapply sorted_keys_tail; eauto.
Qed.

(** *** The occupation mask *)

Lemma chunk_mask_nonneg hashPos l : 0 <= chunk_mask hash hashPos l.
Proof.
  induction l as [|x l IH]; cbn [chunk_mask]; [lia|].
  unfold Occupation.set. apply Z.lor_nonneg. split; [exact IH|].
  apply Z.shiftl_nonneg. lia.
Qed.

Lemma chunk_mask_testbit hashPos l i :
  0 <= i ->
  Z.testbit (chunk_mask hash hashPos l) i
  = existsb (fun x => get_hash_chunk (hash (key x)) hashPos =? i) l.
Proof.
  intros Hi. induction l as [|x l IH]; cbn [chunk_mask existsb]; [apply Z.bits_0|].
  pose proof (get_hash_chunk_range (hash (key x)) hashPos).
  rewrite set_testbit by lia. rewrite IH.
  rewrite (Z.eqb_sym i). apply orb_comm.
Qed.

Lemma chunk_mask_uint64 hashPos l : is_uint64 (chunk_mask hash hashPos l).
Proof.
  apply uint64_of_bits; [apply chunk_mask_nonneg|].
  intros i Hi. rewrite chunk_mask_testbit by lia.
  apply not_true_is_false. intros H. apply existsb_exists in H as (x & _ & Hx).
  pose proof (get_hash_chunk_range (hash (key x)) hashPos). lia.
Qed.

Lemma masks_equal m m' :
  0 <= m -> 0 <= m' ->
  (forall i, 0 <= i -> Z.testbit m i = Z.testbit m' i) -> m = m'.
Proof. intros _ _ H. now apply Z.bits_inj'. Qed.

Lemma existsb_same_elements {A} (f : A -> bool) (s s' : list A) :
  (forall a, In a s <-> In a s') -> existsb f s = existsb f s'.
Proof.
  intros H. apply eq_true_iff_eq. rewrite !existsb_exists.
  split; intros (a & Ha & Hf); exists a; split; auto; now apply H.
Qed.

(** The mask depends on the set of entries only. *)
Lemma chunk_mask_same_elements hashPos l l' :
  (forall x, In x l <-> In x l') ->
  chunk_mask hash hashPos l = chunk_mask hash hashPos l'.
Proof.
  intros H. apply masks_equal; try apply chunk_mask_nonneg.
  intros i Hi. rewrite !chunk_mask_testbit by lia.
  now apply existsb_same_elements.
Qed.

Lemma set_idempotent m pos :
  0 <= pos -> Occupation.test m pos = true -> Occupation.set m pos = m.
Proof.
  intros Hp Ht. rewrite test_testbit in Ht by lia.
  apply Z.bits_inj'. intros i Hi. rewrite set_testbit by lia.
  destruct (Z.eqb_spec i pos) as [->|]; [now rewrite Ht|apply orb_false_r].
Qed.

(** With an exact mask, a clear bit rules the key out. *)
Lemma mask_clear_no_key hashPos l k :
  Occupation.test (chunk_mask hash hashPos l) (get_hash_chunk (hash k) hashPos) = false ->
  chain_has k l = false.
Proof.
  pose proof (get_hash_chunk_range (hash k) hashPos) as Hc.
  rewrite test_testbit, chunk_mask_testbit by lia. intros H.
  apply not_true_is_false. intros Hk. unfold chain_has in Hk.
  apply existsb_exists in Hk as (x & Hx & Hkx).
  assert (existsb (fun x => get_hash_chunk (hash (key x)) hashPos
                            =? get_hash_chunk (hash k) hashPos) l = true).
  { apply existsb_exists. exists x. split; [exact Hx|].
    replace (key x) with k by lia. apply Z.eqb_refl. }
  congruence.
Qed.

Lemma mask_set_nonempty hashPos l pos :
  Occupation.test (chunk_mask hash hashPos l) pos = true -> l <> [].
Proof. intros H ->. cbn [chunk_mask] in H. rewrite test_zero in H. discriminate. Qed.

(** *** Insertion into a sorted array *)

Lemma insert_occupied_fresh e l :
  chain_has (key e) l = false -> insert_occupied e l = Some (insert_fresh e l).
Proof.
  induction l as [|x l IH]; cbn [chain_has existsb insert_occupied insert_fresh];
    [reflexivity|].
  intros H. apply orb_false_elim in H as [Hx Hl].
  destruct (Z.leb_spec (key e) (key x)) as [Hle|Hgt].
  - destruct (Z.eqb_spec (key e) (key x)); [lia|].
    destruct (Z.ltb_spec (key e) (key x)); [reflexivity|lia].
  - destruct (Z.ltb_spec (key e) (key x)); [lia|].
    unfold chain_has in IH. now rewrite IH.
Qed.

Lemma insert_fresh_In e l x : In x (insert_fresh e l) <-> x = e \/ In x l.
Proof.
  induction l as [|y l IH]; cbn [insert_fresh].
  - cbn [In]. intuition.
  - destruct (key e <? key y); cbn [In]; [intuition|].
    rewrite IH. intuition.
Qed.

Lemma insert_fresh_sorted e l :
  sorted_keys l = true -> chain_has (key e) l = false ->
  sorted_keys (insert_fresh e l) = true.
Proof.
  induction l as [|y l IH]; intros Hs Hk; cbn [insert_fresh]; [reflexivity|].
  cbn [chain_has existsb] in Hk. apply orb_false_elim in Hk as [Hy Hl].
  destruct (Z.ltb_spec (key e) (key y)) as [Hlt|Hge].
  - apply sorted_keys_cons; [exact Hs|].
    intros z [<-|Hz]; [exact Hlt|].
    pose proof (sorted_keys_head _ _ Hs z Hz). lia.
  - apply sorted_keys_cons.
    + apply IH; [eapply sorted_keys_tail; eauto|exact Hl].
    + intros z Hz. apply insert_fresh_In in Hz as [->|Hz]; [lia|].
      eapply sorted_keys_head; eauto.
Qed.

Lemma insert_fresh_lookup e l k :
  chain_has (key e) l = false ->
  lookup_key k (insert_fresh e l)
  = if k =? key e then Some (value e) else lookup_key k l.
Proof.
  induction l as [|y l IH]; intros Hk; cbn [insert_fresh lookup_key]; [reflexivity|].
  cbn [chain_has existsb] in Hk. apply orb_false_elim in Hk as [Hy Hl].
  destruct (key e <? key y); cbn [lookup_key].
  - reflexivity.
  - rewrite (IH Hl).
    destruct (Z.eqb_spec k (key y)) as [->|]; [|reflexivity].
    destruct (Z.eqb_spec (key y) (key e)); [lia|reflexivity].
Qed.

(** An entry whose key is above every stored key goes to the end. *)
Lemma insert_fresh_append e l :
  (forall y, In y l -> key y < key e) -> insert_fresh e l = l ++ [e].
Proof.
  induction l as [|y l IH]; intros H; cbn [insert_fresh]; [reflexivity|].
  pose proof (H y (or_introl eq_refl)).
  destruct (Z.ltb_spec (key e) (key y)); [lia|].
  cbn [app]. f_equal. apply IH. intros z Hz. apply H. now right.
Qed.


Lemma leaf_ok_spec leaf hashPos :
  leaf_ok hash leaf hashPos = true <->
  sorted_keys (entries leaf) = true
  /\ occupation leaf = chunk_mask hash hashPos (entries leaf).
Proof.
  unfold leaf_ok. rewrite andb_true_iff, Z.eqb_eq. reflexivity.
Qed.

Lemma sorted_has_insert_occupied e l :
  sorted_keys l = true -> chain_has (key e) l = true -> insert_occupied e l = None.
Proof.
  intros Hs Hk. apply insert_occupied_found.
  now rewrite (find_scan_lookup _ _ Hs), lookup_key_has.
Qed.

Lemma find_entry_spec leaf hashPos k :
  leaf_ok hash leaf hashPos = true ->
  find_entry leaf (hash k) hashPos k = Some (lookup_key k (entries leaf)).
Proof.
  intros Hok. apply leaf_ok_spec in Hok as [Hs Ho].
  unfold find_entry. rewrite Ho.
  destruct (Occupation.test _ _) eqn:Ht; cbn [negb].
  - pose proof (mask_set_nonempty _ _ _ Ht) as Hne.
    destruct (entries leaf) as [|x l] eqn:E; [congruence|].
    now rewrite (find_scan_lookup _ _ Hs).
  - apply mask_clear_no_key in Ht.
    rewrite <- lookup_key_has in Ht.
    destruct (lookup_key k (entries leaf)); [discriminate|reflexivity].
Qed.

(** X4. On a leaf that satisfies its invariant, [find_entry] under the
    hash of the key returns exactly the value stored under that key, or the
    null pointer when the key is not stored. *)
Theorem find_entry_finds_stored_value leaf hashPos k :
  leaf_ok hash leaf hashPos = true ->
  find_entry leaf (hash k) hashPos k = Some (lookup_key k (entries leaf)).
Proof. exact (find_entry_spec leaf hashPos k). Qed.

Lemma insert_entry_spec c leaf hashPos e :
  leaf_ok hash leaf hashPos = true ->
  size leaf < capacity c ->
  exists leaf',
    insert_entry c leaf (hash (key e)) hashPos e
    = Some (negb (chain_has (key e) (entries leaf)), leaf')
    /\ leaf_invariant hash c leaf' hashPos = true
    /\ forall k, lookup_key k (entries leaf')
                 = if (k =? key e) && negb (chain_has (key e) (entries leaf))
                   then Some (value e) else lookup_key k (entries leaf).
Proof.
  intros Hok Hsz. pose proof Hok as Hok'. apply leaf_ok_spec in Hok as [Hs Ho].
  pose proof (get_hash_chunk_range (hash (key e)) hashPos) as Hc.
  unfold insert_entry. destruct (Z.leb_spec (capacity c) (size leaf)); [lia|].
  assert (Hnew : chain_has (key e) (entries leaf) = false ->
            let leaf' := mkInnerLeaf
                           (Occupation.set (occupation leaf)
                              (get_hash_chunk (hash (key e)) hashPos))
                           (insert_fresh e (entries leaf)) in
            leaf_invariant hash c leaf' hashPos = true
            /\ forall k, lookup_key k (entries leaf')
                         = if (k =? key e) && true
                           then Some (value e) else lookup_key k (entries leaf)).
  { intros Hk leaf'. split.
    - unfold leaf_invariant, leaf_ok, size. subst leaf'. cbn [entries occupation].
      rewrite insert_fresh_sorted by assumption.
      rewrite insert_fresh_length.
      rewrite (chunk_mask_same_elements hashPos (insert_fresh e (entries leaf))
                 (e :: entries leaf))
        by (intros x; rewrite insert_fresh_In; cbn [In]; intuition congruence).
      cbn [chunk_mask]. rewrite <- Ho, Z.eqb_refl. unfold size in Hsz.
      cbn [andb]. apply andb_true_intro. split; apply Z.leb_le; lia.
    - intros k. subst leaf'. cbn [entries]. rewrite andb_true_r.
      now apply insert_fresh_lookup. }
  destruct (chain_has (key e) (entries leaf)) eqn:Hk; cbn [negb].
  - (* the key is stored *)
    assert (Ht : Occupation.test (occupation leaf)
                   (get_hash_chunk (hash (key e)) hashPos) = true).
    { destruct (Occupation.test _ _) eqn:Ht; [reflexivity|].
      rewrite Ho in Ht. apply mask_clear_no_key in Ht. congruence. }
    rewrite Ht.
    destruct (entries leaf) as [|x l] eqn:E; [discriminate|].
    rewrite (sorted_has_insert_occupied _ _ Hs Hk).
    exists leaf. split; [reflexivity|]. split.
    + unfold leaf_invariant. rewrite Hok'. unfold size in *. rewrite E in *.
      cbn [length] in *. cbn [andb]. apply andb_true_intro. split; apply Z.leb_le; lia.
    + intros k. now rewrite andb_false_r, E.
  - destruct (Hnew eq_refl) as [Hinv Hlook].
    destruct (Occupation.test _ _) eqn:Ht.
    + rewrite Ho in Ht. pose proof (mask_set_nonempty _ _ _ Ht) as Hne.
      rewrite <- Ho in Ht.
      destruct (entries leaf) as [|x l] eqn:E; [congruence|].
      rewrite (insert_occupied_fresh _ _ Hk).
      rewrite (set_idempotent _ _ (proj1 Hc) Ht) in Hinv.
      eexists. split; [reflexivity|]. split; [exact Hinv|exact Hlook].
    + eexists. split; [reflexivity|]. split; [exact Hinv|exact Hlook].
Qed.

(** X5. [insert_entry] on a leaf with room that satisfies its invariant:
    it returns [true] exactly when the key was not stored, the leaf
    satisfies the invariant of its class afterwards, and the lookup of
    every key is unchanged except that a new key maps to the new value; a
    key that was stored keeps its old value. *)
Theorem insert_entry_keeps_invariant c leaf hashPos e :
  leaf_ok hash leaf hashPos = true ->
  size leaf < capacity c ->
  exists leaf',
    insert_entry c leaf (hash (key e)) hashPos e
    = Some (negb (chain_has (key e) (entries leaf)), leaf')
    /\ leaf_invariant hash c leaf' hashPos = true
    /\ forall k, lookup_key k (entries leaf')
                 = if (k =? key e) && negb (chain_has (key e) (entries leaf))
                   then Some (value e) else lookup_key k (entries leaf).
Proof. exact (insert_entry_spec c leaf hashPos e). Qed.

(** *** Erasure from a sorted array *)

Lemma erase_loop_after_found hashChunk hashPos k l fc :
  erase_loop hash hashChunk hashPos k l true fc
  = (l, true, fc + count_chunk hash hashChunk hashPos l).
Proof.
  revert fc. induction l as [|x l IH]; intros fc; cbn [erase_loop count_chunk].
  - f_equal. lia.
  - rewrite IH. destruct (negb _); f_equal; lia.
Qed.

Lemma count_chunk_nonneg hashChunk hashPos l :
  0 <= count_chunk hash hashChunk hashPos l.
Proof.
  induction l as [|x l IH]; cbn [count_chunk]; [lia|].
  destruct (_ =? _); lia.
Qed.

Lemma erase_loop_scan hashPos k l fc :
  0 <= fc ->
  erase_loop hash (get_hash_chunk (hash k) hashPos) hashPos k l false fc
  = (remove_key k l, chain_has k l,
     fc + count_chunk hash (get_hash_chunk (hash k) hashPos) hashPos l).
Proof.
  revert fc. induction l as [|x l IH]; intros fc Hfc;
    cbn [erase_loop count_chunk remove_key chain_has existsb].
  - f_equal. lia.
  - rewrite (Z.eqb_sym (key x) k).
    destruct (Z.eqb_spec k (key x)) as [->|Hne].
    + rewrite Z.eqb_refl.
      destruct (Z.eqb_spec (fc + 1) 0); [lia|]. cbn [negb orb].
      rewrite erase_loop_after_found. f_equal. lia.
    + cbn [orb].
      set (d := if get_hash_chunk (hash (key x)) hashPos
                   =? get_hash_chunk (hash k) hashPos then 1 else 0).
      assert (0 <= d) by (subst d; destruct (_ =? _); lia).
      rewrite (IH (fc + d)) by lia.
      fold (chain_has k l).
      destruct (negb (fc + d =? 0)); f_equal; lia.
Qed.

Lemma remove_key_In k l x : In x (remove_key k l) -> In x l.
Proof.
  induction l as [|y l IH]; cbn [remove_key]; [tauto|].
  destruct (k =? key y); cbn [In]; intuition.
Qed.

Lemma remove_key_sorted k l :
  sorted_keys l = true -> sorted_keys (remove_key k l) = true.
Proof.
  induction l as [|y l IH]; intros Hs; cbn [remove_key]; [reflexivity|].
  pose proof (sorted_keys_tail _ _ Hs) as Ht.
  destruct (k =? key y); [exact Ht|].
  apply sorted_keys_cons; [now apply IH|].
  intros z Hz. apply remove_key_In in Hz. eapply sorted_keys_head; eauto.
Qed.

Lemma remove_key_lookup k l k' :
  sorted_keys l = true ->
  lookup_key k' (remove_key k l) = if k' =? k then None else lookup_key k' l.
Proof.
  induction l as [|y l IH]; intros Hs; cbn [remove_key lookup_key].
  - now destruct (k' =? k).
  - pose proof (sorted_keys_tail _ _ Hs) as Ht.
    destruct (Z.eqb_spec k (key y)) as [Hk|Hne].
    + destruct (Z.eqb_spec k' k) as [Hk'|Hk'].
      * apply lookup_key_none. intros z Hz.
        pose proof (sorted_keys_head _ _ Hs z Hz). lia.
      * destruct (Z.eqb_spec k' (key y)); [lia|reflexivity].
    + cbn [lookup_key]. rewrite (IH Ht).
      destruct (Z.eqb_spec k' (key y)) as [Hy|]; [|reflexivity].
      destruct (Z.eqb_spec k' k); [lia|reflexivity].
Qed.

Lemma remove_key_absent k l : chain_has k l = false -> remove_key k l = l.
Proof.
  induction l as [|y l IH]; cbn [remove_key chain_has existsb]; [reflexivity|].
  intros H. apply orb_false_elim in H as [Hy Hl].
  rewrite (Z.eqb_sym k). rewrite Hy. f_equal. now apply IH.
Qed.

Lemma remove_key_length k l :
  chain_has k l = true -> length l = S (length (remove_key k l)).
Proof.
  induction l as [|y l IH]; cbn [remove_key chain_has existsb]; [discriminate|].
  rewrite (Z.eqb_sym (key y)).
  destruct (k =? key y); cbn [orb length]; [reflexivity|].
  intros H. now rewrite <- IH.
Qed.

Lemma count_chunk_exists hashChunk hashPos l :
  existsb (fun x => get_hash_chunk (hash (key x)) hashPos =? hashChunk) l
  = (0 <? count_chunk hash hashChunk hashPos l).
Proof.
  induction l as [|x l IH]; cbn [existsb count_chunk]; [reflexivity|].
  pose proof (count_chunk_nonneg hashChunk hashPos l).
  rewrite IH. destruct (_ =? hashChunk); cbn [orb]; [|reflexivity].
  symmetry. apply Z.ltb_lt. lia.
Qed.

Lemma count_chunk_remove hashPos k l :
  chain_has k l = true ->
  count_chunk hash (get_hash_chunk (hash k) hashPos) hashPos (remove_key k l)
  = count_chunk hash (get_hash_chunk (hash k) hashPos) hashPos l - 1.
Proof.
  induction l as [|y l IH]; cbn [remove_key chain_has existsb count_chunk];
    [discriminate|].
  rewrite (Z.eqb_sym (key y)).
  destruct (Z.eqb_spec k (key y)) as [->|]; cbn [orb].
  - intros _. rewrite Z.eqb_refl. lia.
  - intros H. cbn [count_chunk]. rewrite (IH H). lia.
Qed.

Lemma remove_key_other_chunk hashPos k l i :
  i <> get_hash_chunk (hash k) hashPos ->
  existsb (fun x => get_hash_chunk (hash (key x)) hashPos =? i) (remove_key k l)
  = existsb (fun x => get_hash_chunk (hash (key x)) hashPos =? i) l.
Proof.
  intros Hi. induction l as [|y l IH]; cbn [remove_key existsb]; [reflexivity|].
  destruct (Z.eqb_spec k (key y)) as [->|].
  - destruct (Z.eqb_spec (get_hash_chunk (hash (key y)) hashPos) i); [lia|reflexivity].
  - cbn [existsb]. now rewrite IH.
Qed.

Lemma erase_entry_spec leaf hashPos k :
  leaf_ok hash leaf hashPos = true ->
  exists leaf',
    erase_entry hash leaf (hash k) hashPos k
    = Some (chain_has k (entries leaf), leaf')
    /\ leaf_ok hash leaf' hashPos = true
    /\ entries leaf' = remove_key k (entries leaf)
    /\ (chain_has k (entries leaf) = false -> leaf' = leaf)
    /\ forall k', lookup_key k' (entries leaf')
                  = if k' =? k then None else lookup_key k' (entries leaf).
Proof.
  intros Hok. pose proof Hok as Hok'. apply leaf_ok_spec in Hok as [Hs Ho].
  pose proof (get_hash_chunk_range (hash k) hashPos) as Hc.
  assert (Habsent : chain_has k (entries leaf) = false ->
            leaf_ok hash leaf hashPos = true
            /\ entries leaf = remove_key k (entries leaf)
            /\ (chain_has k (entries leaf) = false -> leaf = leaf)
            /\ forall k', lookup_key k' (entries leaf)
                          = if k' =? k then None else lookup_key k' (entries leaf)).
  { intros Hk. split; [exact Hok'|]. split; [now rewrite remove_key_absent|].
    split; [reflexivity|]. intros k'.
    destruct (Z.eqb_spec k' k) as [->|]; [|reflexivity].
    rewrite <- lookup_key_has in Hk.
    destruct (lookup_key k (entries leaf)); [discriminate|reflexivity]. }
  unfold erase_entry.
  destruct (Occupation.test _ _) eqn:Ht; cbn [negb].
  - rewrite Ho in Ht. pose proof (mask_set_nonempty _ _ _ Ht) as Hne.
    destruct (entries leaf) as [|x l] eqn:E; [congruence|]. rewrite <- E in *.
    rewrite erase_loop_scan by lia. rewrite Z.add_0_l.
    destruct (chain_has k (entries leaf)) eqn:Hk.
    + eexists. split; [reflexivity|]. cbn [entries].
      split; [|split; [reflexivity|split; [discriminate|]]].
      * apply leaf_ok_spec. cbn [entries occupation].
        split; [now apply remove_key_sorted|].
        pose proof (count_chunk_remove hashPos k _ Hk) as Hcnt.
        pose proof (count_chunk_nonneg (get_hash_chunk (hash k) hashPos) hashPos
                      (remove_key k (entries leaf))) as Hnn.
        rewrite Ho.
        apply masks_equal.
        -- destruct (_ =? 1); [|apply chunk_mask_nonneg].
           unfold Occupation.flip. apply Z.lxor_nonneg.
           split; intros _; [apply Z.shiftl_nonneg; lia|apply chunk_mask_nonneg].
        -- apply chunk_mask_nonneg.
        -- intros i Hi.
           rewrite (chunk_mask_testbit hashPos (remove_key k (entries leaf))) by lia.
           destruct (Z.eq_dec i (get_hash_chunk (hash k) hashPos)) as [->|Hne'].
           ++ rewrite count_chunk_exists, Hcnt.
              rewrite test_testbit in Ht by lia.
              destruct (Z.eqb_spec (count_chunk hash (get_hash_chunk (hash k) hashPos)
                                      hashPos (entries leaf)) 1) as [H1|H1].
              ** rewrite flip_testbit, Ht, Z.eqb_refl by lia. rewrite H1. reflexivity.
              ** rewrite Ht. symmetry. apply Z.ltb_lt. lia.
           ++ rewrite remove_key_other_chunk by assumption.
              destruct (_ =? 1).
              ** rewrite flip_testbit by lia. rewrite chunk_mask_testbit by lia.
                 destruct (Z.eqb_spec i (get_hash_chunk (hash k) hashPos)); [lia|].
                 apply xorb_false_r.
              ** now rewrite chunk_mask_testbit by lia.
      * intros k'. now apply remove_key_lookup.
    + exists leaf. split; [reflexivity|].
      destruct (Habsent eq_refl) as (A & B & _ & D). repeat split; auto.
  - rewrite Ho in Ht. apply mask_clear_no_key in Ht.
    exists leaf. split; [now rewrite Ht|]. now apply Habsent.
Qed.

(** X6. [erase_entry] on a leaf that satisfies its invariant: it returns
    [true] exactly when the key was stored; afterwards the erased key is
    absent, every other key keeps its value, the entries are still strictly
    sorted and the occupation mask is still exact (the bit is cleared only
    when no other entry shares the chunk); erasing a key that is not stored
    leaves the leaf untouched. *)
Theorem erase_entry_keeps_invariant leaf hashPos k :
  leaf_ok hash leaf hashPos = true ->
  exists leaf',
    erase_entry hash leaf (hash k) hashPos k
    = Some (chain_has k (entries leaf), leaf')
    /\ leaf_ok hash leaf' hashPos = true
    /\ entries leaf' = remove_key k (entries leaf)
    /\ (chain_has k (entries leaf) = false -> leaf' = leaf)
    /\ forall k', lookup_key k' (entries leaf')
                  = if k' =? k then None else lookup_key k' (entries leaf).
Proof. exact (erase_entry_spec leaf hashPos k). Qed.


(** *** Re-insertion in sorted order: promotion and demotion *)

Lemma insert_entry_new_key c leaf hashPos e :
  leaf_ok hash leaf hashPos = true ->
  size leaf < capacity c ->
  chain_has (key e) (entries leaf) = false ->
  insert_entry c leaf (hash (key e)) hashPos e
  = Some (true, mkInnerLeaf
                  (Occupation.set (occupation leaf)
                     (get_hash_chunk (hash (key e)) hashPos))
                  (insert_fresh e (entries leaf))).
Proof.
  intros Hok Hsz Hk. apply leaf_ok_spec in Hok as [Hs Ho].
  pose proof (get_hash_chunk_range (hash (key e)) hashPos) as Hc.
  unfold insert_entry. destruct (Z.leb_spec (capacity c) (size leaf)); [lia|].
  destruct (Occupation.test _ _) eqn:Ht; [|reflexivity].
  rewrite Ho in Ht. pose proof (mask_set_nonempty _ _ _ Ht) as Hne.
  rewrite <- Ho in Ht.
  destruct (entries leaf) as [|x l] eqn:E; [congruence|].
  rewrite (insert_occupied_fresh _ _ Hk).
  now rewrite (set_idempotent _ _ (proj1 Hc) Ht).
Qed.

Lemma chain_has_below k l :
  (forall y, In y l -> key y < k) -> chain_has k l = false.
Proof.
  intros H. apply not_true_is_false. intros Hk. unfold chain_has in Hk.
  apply existsb_exists in Hk as (y & Hy & Hky). specialize (H y Hy). lia.
Qed.

Lemma sorted_keys_app_one l e :
  sorted_keys l = true -> (forall y, In y l -> key y < key e) ->
  sorted_keys (l ++ [e]) = true.
Proof.
  induction l as [|x l IH]; intros Hs H; [reflexivity|].
  cbn [app]. apply sorted_keys_cons.
  - apply IH; [eapply sorted_keys_tail; eauto|]. intros y Hy. apply H. now right.
  - intros y Hy. apply in_app_or in Hy as [Hy|[<-|[]]].
    + eapply sorted_keys_head; eauto.
    + apply H. now left.
Qed.

Lemma mergeEntries_sorted c hashPos : forall l leaf,
  leaf_ok hash leaf hashPos = true ->
  sorted_keys l = true ->
  (forall x y, In x (entries leaf) -> In y l -> key x < key y) ->
  size leaf + Z.of_nat (length l) <= capacity c ->
  exists leaf',
    mergeEntries hash c leaf hashPos l = Some leaf'
    /\ entries leaf' = entries leaf ++ l
    /\ leaf_ok hash leaf' hashPos = true.
Proof.
  induction l as [|x l IH]; intros leaf Hok Hs Hlt Hsz; cbn [mergeEntries].
  - exists leaf. rewrite app_nil_r. auto.
  - cbn [length] in Hsz.
    assert (Hk : chain_has (key x) (entries leaf) = false).
    { apply chain_has_below. intros y Hy. apply Hlt; [exact Hy|now left]. }
    rewrite insert_entry_new_key by (assumption || lia).
    rewrite insert_fresh_append
      by (intros y Hy; apply Hlt; [exact Hy|now left]).
    apply leaf_ok_spec in Hok as [Hsl Ho].
    destruct (IH (mkInnerLeaf
                    (Occupation.set (occupation leaf)
                       (get_hash_chunk (hash (key x)) hashPos))
                    (entries leaf ++ [x]))) as (leaf' & Hm & He & Hok').
    + apply leaf_ok_spec. cbn [entries occupation]. split.
      * apply sorted_keys_app_one; [exact Hsl|].
        intros y Hy. apply Hlt; [exact Hy|now left].
      * rewrite (chunk_mask_same_elements hashPos (entries leaf ++ [x])
                   (x :: entries leaf)).
        -- cbn [chunk_mask]. now rewrite Ho.
        -- intros y. rewrite in_app_iff. cbn [In]. intuition.
    + eapply sorted_keys_tail; eauto.
    + cbn [entries]. intros a b Ha Hb. apply in_app_or in Ha as [Ha|[<-|[]]].
      * apply Hlt; [exact Ha|now right].
      * eapply sorted_keys_head; eauto.
    + unfold size in *. cbn [entries]. rewrite length_app. cbn [length]. lia.
    + exists leaf'. split; [exact Hm|]. split; [|exact Hok'].
      rewrite He. cbn [entries]. now rewrite <- app_assoc.
Qed.

Lemma mergeEntries_reproduces c leaf hashPos :
  leaf_ok hash leaf hashPos = true ->
  size leaf <= capacity c ->
  mergeEntries hash c new_InnerLeaf hashPos (entries leaf) = Some leaf.
Proof.
  intros Hok Hsz.
  destruct (mergeEntries_sorted c hashPos (entries leaf) new_InnerLeaf)
    as (leaf' & Hm & He & Hok').
  - reflexivity.
  - now apply leaf_ok_spec in Hok as [Hs _].
  - intros x y [].
  - unfold size in *. cbn [new_InnerLeaf entries length]. lia.
  - rewrite Hm. f_equal. cbn [new_InnerLeaf entries app] in He.
    apply leaf_ok_spec in Hok as [_ Ho]. apply leaf_ok_spec in Hok' as [_ Ho'].
    destruct leaf as [o l], leaf' as [o' l']. cbn [entries occupation] in *.
    congruence.
Qed.



Lemma chain_has_below_first k x l :
  sorted_keys (x :: l) = true -> k < key x -> chain_has k (x :: l) = false.
Proof.
  intros Hs Hk. apply not_true_is_false. intros H. unfold chain_has in H.
  apply existsb_exists in H as (y & Hy & Hky).
  destruct Hy as [<-|Hy]; [lia|].
  pose proof (sorted_keys_head _ _ Hs y Hy). lia.
Qed.

Lemma sorted_keys_last x l d :
  sorted_keys (x :: l) = true ->
  forall y, In y (x :: l) -> key y <= key (last (x :: l) d).
Proof.
  revert x. induction l as [|z l IH]; intros x Hs y Hy.
  - destruct Hy as [<-|[]]. cbn. lia.
  - change (last (x :: z :: l) d) with (last (z :: l) d).
    pose proof (sorted_keys_tail _ _ Hs) as Ht.
    destruct Hy as [<-|Hy].
    + pose proof (sorted_keys_head _ _ Hs z (or_introl eq_refl)).
      specialize (IH z Ht z (or_introl eq_refl)). lia.
    + now apply IH.
Qed.

End LeafInvariant.

(** ** The intersection of two inner leaves *)

Section LeafIntersection.

Context {V : Type}.
Variable hash : Z -> Z.

#[local] Abbreviation Entry := (HighsHashTableEntry V).
#[local] Abbreviation Leaf := (@InnerLeaf V).

Implicit Types (l : list Entry) (e x y : Entry) (leaf : Leaf) (k : Z).

Lemma common_loop_nil_r l : common_loop l [] = None.
Proof. destruct l; reflexivity. Qed.

Lemma common_loop_cons x l1 y l2 :
  common_loop (x :: l1) (y :: l2)
  = if key x <? key y then common_loop l1 (y :: l2)
    else if key y <? key x then common_loop (x :: l1) l2
    else Some x.
Proof. reflexivity. Qed.

(** The two-pointer loop on two sorted arrays returns an entry of the
    first array whose key is in the second, and returns nothing only when
    the arrays share no key. *)
Lemma common_loop_spec : forall l1 l2,
  sorted_keys l1 = true -> sorted_keys l2 = true ->
  match common_loop l1 l2 with
  | Some x => In x l1 /\ chain_has (key x) l2 = true
  | None => forall x, In x l1 -> chain_has (key x) l2 = false
  end.
Proof.
  induction l1 as [|x l1 IH1]; intros l2 Hs1 Hs2.
  - destruct l2; intros x [].
  - induction l2 as [|y l2 IH2].
    + rewrite common_loop_nil_r. reflexivity.
    + rewrite common_loop_cons.
      pose proof (sorted_keys_tail _ _ Hs1) as Ht1.
      pose proof (sorted_keys_tail _ _ Hs2) as Ht2.
      destruct (Z.ltb_spec (key x) (key y)) as [Hxy|Hxy].
      * specialize (IH1 (y :: l2) Ht1 Hs2).
        destruct (common_loop l1 (y :: l2)) as [z|].
        -- destruct IH1 as [Hz Hk]. split; [now right|exact Hk].
        -- intros z [<-|Hz]; [|now apply IH1].
           apply chain_has_below_first with (x := y); [exact Hs2|lia].
      * destruct (Z.ltb_spec (key y) (key x)) as [Hyx|Hyx].
        -- specialize (IH2 Ht2).
           destruct (common_loop (x :: l1) l2) as [z|].
           ++ destruct IH2 as [Hz Hk]. split; [exact Hz|].
              cbn [chain_has existsb]. unfold chain_has in Hk. rewrite Hk.
              apply orb_true_r.
           ++ intros z Hz. cbn [chain_has existsb].
              specialize (IH2 z Hz). unfold chain_has in IH2. rewrite IH2.
              destruct (Z.eqb_spec (key y) (key z)) as [Heq|]; [|reflexivity].
              exfalso. destruct Hz as [<-|Hz]; [lia|].
              pose proof (sorted_keys_head _ _ Hs1 z Hz). lia.
        -- split; [now left|]. cbn [chain_has existsb].
           replace (key y) with (key x) by lia. now rewrite Z.eqb_refl.
Qed.


Lemma chunk_mask_has hashPos l x :
  In x l ->
  Z.testbit (chunk_mask hash hashPos l) (get_hash_chunk (hash (key x)) hashPos) = true.
Proof.
  intros Hx. pose proof (get_hash_chunk_range (hash (key x)) hashPos).
  rewrite chunk_mask_testbit by lia. apply existsb_exists.
  exists x. split; [exact Hx|apply Z.eqb_refl].
Qed.

Lemma chain_has_In k l : chain_has k l = true -> exists y, In y l /\ key y = k.
Proof.
  unfold chain_has. intros H. apply existsb_exists in H as (y & Hy & Hk).
  exists y. split; [exact Hy|lia].
Qed.

Lemma findCommonInLeaf2_spec leaf1 leaf2 hashPos :
  leaf_ok hash leaf1 hashPos = true ->
  leaf_ok hash leaf2 hashPos = true ->
  1 <= size leaf1 -> 1 <= size leaf2 ->
  exists r,
    findCommonInLeaf2 leaf1 leaf2 = Some r
    /\ match r with
       | Some x => In x (entries leaf1)
                   /\ chain_has (key x) (entries leaf2) = true
       | None => forall x, In x (entries leaf1) ->
                           chain_has (key x) (entries leaf2) = false
       end.
Proof.
  intros Hok1 Hok2 Hn1 Hn2.
  apply leaf_ok_spec in Hok1 as [Hs1 Ho1]. apply leaf_ok_spec in Hok2 as [Hs2 Ho2].
  unfold findCommonInLeaf2.
  destruct (Z.eqb_spec (Z.land (occupation leaf1) (occupation leaf2)) 0) as [Hl|Hl].
  - exists None. split; [reflexivity|]. intros x Hx.
    apply not_true_is_false. intros Hk.
    apply chain_has_In in Hk as (y & Hy & Hky).
    pose proof (chunk_mask_has hashPos _ _ Hx) as H1.
    pose proof (chunk_mask_has hashPos _ _ Hy) as H2.
    rewrite Hky in H2.
    assert (Z.testbit (Z.land (occupation leaf1) (occupation leaf2))
              (get_hash_chunk (hash (key x)) hashPos) = true)
      by (rewrite Z.land_spec, Ho1, Ho2, H1, H2; reflexivity).
    rewrite Hl, Z.bits_0 in H. discriminate.
  - unfold size in *.
    destruct (entries leaf1) as [|x l1] eqn:E1; [cbn in Hn1; lia|].
    destruct (entries leaf2) as [|y l2] eqn:E2; [cbn in Hn2; lia|].
    destruct (orb _ _) eqn:Hrange.
    + exists None. split; [reflexivity|]. intros z Hz.
      apply not_true_is_false. intros Hk.
      apply chain_has_In in Hk as (w & Hw & Hkw).
      pose proof (sorted_keys_last x l1 x Hs1 z Hz).
      pose proof (sorted_keys_last y l2 y Hs2 w Hw).
      assert (key x <= key z).
      { destruct Hz as [<-|Hz]; [lia|].
        pose proof (sorted_keys_head _ _ Hs1 z Hz). lia. }
      assert (key y <= key w).
      { destruct Hw as [<-|Hw]; [lia|].
        pose proof (sorted_keys_head _ _ Hs2 w Hw). lia. }
      apply orb_prop in Hrange as [Hr|Hr]; apply Z.ltb_lt in Hr; lia.
    + eexists. split; [reflexivity|].
      exact (common_loop_spec (x :: l1) (y :: l2) Hs1 Hs2).
Qed.

(** X8. [findCommonInLeaf] on two leaves of the same depth that satisfy
    their invariant: the result is an entry of the first leaf whose key is
    also stored in the second, and the null pointer is returned only when
    the leaves share no key; the early exits on disjoint occupation masks
    and on disjoint key ranges lose nothing. *)
Theorem findCommonInLeaf_finds_shared_key leaf1 leaf2 hashPos :
  leaf_ok hash leaf1 hashPos = true ->
  leaf_ok hash leaf2 hashPos = true ->
  1 <= size leaf1 -> 1 <= size leaf2 ->
  exists r,
    findCommonInLeaf2 leaf1 leaf2 = Some r
    /\ match r with
       | Some x => In x (entries leaf1)
                   /\ chain_has (key x) (entries leaf2) = true
       | None => forall x, In x (entries leaf1) ->
                           chain_has (key x) (entries leaf2) = false
       end.
Proof. exact (findCommonInLeaf2_spec leaf1 leaf2 hashPos). Qed.

End LeafIntersection.

(** ** Erasing a key that is not stored *)

Section EraseAbsent.

Context {V : Type}.
Variable hash : Z -> Z.

#[local] Abbreviation Entry := (HighsHashTableEntry V).
#[local] Abbreviation Node := (@NodePtr V).

Implicit Types (l : list Entry) (e x : Entry) (node n : Node) (child : list Node).

Lemma erase_loop_absent hashChunk hashPos k l fc :
  chain_has k l = false ->
  erase_loop hash hashChunk hashPos k l false fc
  = (l, false, fc + count_chunk hash hashChunk hashPos l).
Proof.
  revert fc. induction l as [|x l IH]; intros fc;
    cbn [erase_loop count_chunk chain_has existsb].
  - intros _. f_equal. lia.
  - intros H. apply orb_false_elim in H as [Hx Hl].
    rewrite (Z.eqb_sym k), Hx. rewrite (IH _ Hl).
    destruct (negb _); f_equal; lia.
Qed.

Lemma erase_entry_absent (leaf : @InnerLeaf V) hash_ hashPos k :
  sorted_keys (entries leaf) = true ->
  find_entry leaf hash_ hashPos k = Some None ->
  erase_entry hash leaf hash_ hashPos k = Some (false, leaf).
Proof.
  intros Hs. unfold find_entry, erase_entry.
  destruct (Occupation.test _ _); cbn [negb]; [|reflexivity].
  destruct (entries leaf) as [|x l] eqn:E; [discriminate|].
  rewrite (find_scan_lookup _ _ Hs). intros Hf.
  assert (Hk : chain_has k (x :: l) = false).
  { rewrite <- lookup_key_has.
    replace (lookup_key k (x :: l)) with (@None V) by congruence. reflexivity. }
  now rewrite (erase_loop_absent _ _ _ _ _ Hk).
Qed.

Lemma erase_chain_absent k : forall (next : list Entry) first,
  chain_has k (first :: next) = false ->
  erase_chain k first next = (false, first, next).
Proof.
  induction next as [|y next IH]; intros first; cbn [chain_has existsb erase_chain].
  - intros H. apply orb_false_elim in H as [Hf _]. now rewrite Hf.
  - intros H. apply orb_false_elim in H as [Hf Hn]. rewrite Hf.
    change (existsb (fun x => key x =? k) (y :: next)) with (chain_has k (y :: next)) in Hn.
    now rewrite (IH y Hn).
Qed.

Lemma find_chain_none_has k (chain : list Entry) :
  find_chain k chain = None -> chain_has k chain = false.
Proof.
  induction chain as [|x chain IH]; cbn [find_chain chain_has existsb]; [reflexivity|].
  destruct (key x =? k); [discriminate|]. exact IH.
Qed.

Lemma well_formed_not_empty hashPos n : well_formed hash hashPos n = true -> isEmpty n = false.
Proof. destruct n; [discriminate|reflexivity..]. Qed.

(** On a well-formed node, erasing a key that [find_recurse] does not find
    changes nothing. *)
Lemma erase_recurse_absent fuel : forall node hash_ hashPos k,
  well_formed hash hashPos node = true ->
  find_recurse fuel node hash_ hashPos k = Some None ->
  erase_recurse hash fuel node hash_ hashPos k = Some node.
Proof.
  induction fuel as [|fuel IH]; intros node hash_ hashPos k Hwf; [discriminate|].
  destruct node as [|first next count|c leaf|occ child];
    cbn [find_recurse erase_recurse].
  - reflexivity.
  - intros Hf. assert (Hc : find_chain k (first :: next) = None) by congruence.
    rewrite (erase_chain_absent _ _ _ (find_chain_none_has _ _ Hc)).
    cbn [well_formed] in Hwf. apply andb_prop in Hwf as [_ Hcount].
    apply Z.eqb_eq in Hcount.
    destruct (Z.eqb_spec count 0); [lia|reflexivity].
  - cbn [well_formed] in Hwf. apply andb_prop in Hwf as [Hd Hinv].
    unfold leaf_invariant in Hinv. apply andb_prop in Hinv as [Hinv _].
    apply andb_prop in Hinv as [Hok _]. apply leaf_ok_spec in Hok as [Hs _].
    rewrite Hd. cbn [negb]. intros Hf.
    destruct c; rewrite (erase_entry_absent _ _ _ _ Hs Hf); reflexivity.
  - cbn [well_formed] in Hwf. apply andb_prop in Hwf as [Hwf Hc].
    apply andb_prop in Hwf as [Hwf _]. apply andb_prop in Hwf as [Hd _].
    rewrite Hd. cbn [negb].
    destruct (Occupation.test occ (get_hash_chunk hash_ hashPos)); cbn [negb];
      [|reflexivity].
    destruct (child_at child _) as [n|] eqn:En; [|discriminate].
    intros Hf.
    assert (Hn : well_formed hash (hashPos + 1) n = true).
    { apply child_at_Some in En as [_ En]. eapply forallb_nth_error; eauto. }
    rewrite (IH n _ _ _ Hn Hf).
    rewrite (child_set_same _ _ _ En).
    now rewrite (well_formed_not_empty _ _ Hn).
Qed.

(** X9. [erase] of a key that [find] does not find leaves a well-formed
    tree exactly as it was. *)
Theorem erase_absent_key_changes_nothing (root : Node) (k : Z) :
  well_formed_root hash root = true ->
  find hash root k = Some None ->
  erase hash root k = Some root.
Proof.
  unfold well_formed_root, find, erase. intros Hwf Hf.
  destruct root as [|first next count|c leaf|occ child];
    [reflexivity|apply erase_recurse_absent; assumption..].
Qed.

End EraseAbsent.

(** ** Behaviour of the burst at the last level, of list-leaf erasure and of
    copying, evaluated on concrete trees *)

(** C1. A full leaf of size class 4 at depth 10 (so [hashPos + 1 ==
    kMaxDepth]) holds the keys 0 to 29 with an exact occupation mask; key 30
    is inserted. The burst computes the child slot once, for the incoming
    entry, and funnels all 30 old entries into that one list leaf: the slots
    of the other 15 set occupation bits stay empty, and key 1 (chunk 1) is
    no longer found, where the claim has every entry in the child of its own
    chunk and all 31 keys findable. *)
Theorem burst_at_last_level_misplaces_entries :
  exists first next child,
    insert_recurse Examples.hash_top max_fuel Examples.full_leaf_depth10
      (Examples.hash_top 30) 10 (Examples.entry_of 30)
    = Some (true, BranchPtr 65535 child)
    /\ child_at child (Occupation.num_set_until 65535
                         (get_hash_chunk (Examples.hash_top 30) 10) - 1)
       = Some (ListLeafPtr first next 31)
    /\ Occupation.test 65535 (get_hash_chunk (Examples.hash_top 1) 10) = true
    /\ child_at child (Occupation.num_set_until 65535
                         (get_hash_chunk (Examples.hash_top 1) 10) - 1)
       = Some Empty
    /\ find_recurse max_fuel (BranchPtr 65535 child)
         (Examples.hash_top 1) 10 1 = Some None.
Proof.
  let r := eval vm_compute in
        (insert_recurse Examples.hash_top max_fuel Examples.full_leaf_depth10
           (Examples.hash_top 30) 10 (Examples.entry_of 30)) in
  match r with
  | Some (_, BranchPtr _ ?child) =>
      let n := eval vm_compute in (nth 1 child Empty) in
      match n with
      | ListLeafPtr ?first ?next _ => exists first, next, child
      end
  end.
  repeat split; vm_compute; reflexivity.
Qed.

(** The same defect through the public interface: after inserting the keys
    0 to 30, whose hashes agree on the low 60 bits, key 1 is not found. *)
Lemma insert_31_colliding_keys_loses_key :
  exists root,
    Examples.insert_all Examples.hash_top Empty (Examples.entries_from 0 31)
    = Some root
    /\ find Examples.hash_top root 30 = Some (Some 130)
    /\ find Examples.hash_top root 1 = Some None.
Proof.
  let r := eval vm_compute in
        (Examples.insert_all Examples.hash_top Empty (Examples.entries_from 0 31)) in
  match r with Some ?root => exists root end.
  repeat split; vm_compute; reflexivity.
Qed.

(** C2. Erasing the key of the last node of a two-node chain decrements
    [count] but leaves the node linked: the chain still has two nodes while
    [count] is 1, and the erased key is still found. The claim has the
    entry unlinked, [count] equal to the chain length and the erased key
    absent. *)
Theorem erase_chain_tail_stays_linked :
  erase_recurse Examples.hash_id max_fuel Examples.chain_of_two
    (Examples.hash_id 2) kMaxDepth 2
  = Some (ListLeafPtr (Examples.entry_of 1) [Examples.entry_of 2] 1)
  /\ find_recurse max_fuel
       (ListLeafPtr (Examples.entry_of 1) [Examples.entry_of 2] 1)
       (Examples.hash_id 2) kMaxDepth 2 = Some (Some 102).
Proof. split; vm_compute; reflexivity. Qed.

(** The same defect through the public interface, on the tree built from
    the keys 0 to 30 above: [erase(30)] removes the last node of its chain,
    and [find(30)] still succeeds afterwards. *)
Lemma erase_last_chained_key_still_found :
  exists root root',
    Examples.insert_all Examples.hash_top Empty (Examples.entries_from 0 31)
    = Some root
    /\ erase Examples.hash_top root 30 = Some root'
    /\ find Examples.hash_top root' 30 = Some (Some 130).
Proof.
  let r := eval vm_compute in
        (Examples.insert_all Examples.hash_top Empty (Examples.entries_from 0 31)) in
  match r with
  | Some ?root =>
      let r' := eval vm_compute in (erase Examples.hash_top root 30) in
      match r' with Some ?root' => exists root, root' end
  end.
  repeat split; vm_compute; reflexivity.
Qed.

(** C3. Copying the empty tree runs into [assert(false)], and copying a
    list leaf with a single node dereferences the null [next] pointer of
    that node; neither produces a copy, where the claim covers the empty
    tree and list leaves of any chain length. *)
Theorem copy_undefined_on_empty_and_single_node_chain :
  copy (V := Z) Empty = None
  /\ copy Examples.chain_of_one = None
  /\ (forall (first : HighsHashTableEntry Z) count,
        copy (ListLeafPtr first [] count) = None).
Proof. repeat split. Qed.

(** ** Hash chunks: reading, rewriting and truncating *)

Lemma get_hash_chunk_testbit hash pos j :
  0 <= pos -> 0 <= j ->
  Z.testbit (get_hash_chunk hash pos) j
  = Z.testbit hash (pos * kBitsPerLevel + j) && (j <? 6).
Proof.
  intros Hp Hj. unfold get_hash_chunk. change (kBranchFactor - 1) with (Z.ones 6).
  rewrite Z.land_spec, Z.shiftr_spec by lia.
  rewrite Z.testbit_ones_nonneg by lia.
  f_equal. f_equal. lia.
Qed.

Lemma small_testbit_high c j : 0 <= c <= 63 -> 6 <= j -> Z.testbit c j = false.
Proof.
  intros Hc Hj. destruct (Z.eq_dec c 0) as [->|]; [apply Z.bits_0|].
  apply Z.bits_above_log2; [lia|].
  assert (Z.log2 c < 6) by (apply Z.log2_lt_pow2; lia). lia.
Qed.

Lemma set_hash_chunk_testbit hash chunk chunkPos n :
  0 <= chunkPos -> 0 <= n ->
  Z.testbit (set_hash_chunk hash chunk chunkPos) n
  = xorb (Z.testbit hash n)
         ((n <? 64)
          && Z.testbit (Z.lxor chunk (get_hash_chunk hash chunkPos))
               (n - chunkPos * kBitsPerLevel)).
Proof.
  intros Hp Hn. unfold set_hash_chunk. cbv zeta.
  rewrite Z.lxor_spec, wrap64_testbit, Z.shiftl_spec by lia.
  reflexivity.
Qed.

(** X10. [set_hash_chunk] followed by [get_hash_chunk] at the same
    position returns the chunk that was written, for the positions 0 to 9
    whose six bits lie inside the 64-bit word. *)
Theorem set_hash_chunk_then_get hash chunk chunkPos :
  0 <= chunkPos <= 9 -> 0 <= chunk <= 63 ->
  get_hash_chunk (set_hash_chunk hash chunk chunkPos) chunkPos = chunk.
Proof.
  intros Hp Hc. apply Z.bits_inj'. intros j Hj.
  rewrite get_hash_chunk_testbit by lia.
  destruct (Z.ltb_spec j 6) as [Hlt|Hge].
  - rewrite andb_true_r, set_hash_chunk_testbit by (unfold kBitsPerLevel; lia).
    unfold kBitsPerLevel.
    destruct (Z.ltb_spec (chunkPos * 6 + j) 64); [|lia].
    replace (chunkPos * 6 + j - chunkPos * 6) with j by lia.
    rewrite Z.lxor_spec, get_hash_chunk_testbit by lia.
    unfold kBitsPerLevel. destruct (Z.ltb_spec j 6); [|lia].
    rewrite andb_true_r. cbn [andb].
    destruct (Z.testbit hash (chunkPos * 6 + j)), (Z.testbit chunk j); reflexivity.
  - rewrite andb_false_r. symmetry. now apply small_testbit_high.
Qed.


(** X12. [get_first_n_hash_chunks] keeps the chunks at the positions below
    [n] and clears every chunk from position [n] on, for [n] up to 10 (a
    shift below 64 bits). *)
Theorem get_first_n_hash_chunks_keeps_prefix hash n pos :
  0 <= n <= 10 -> 0 <= pos ->
  get_hash_chunk (get_first_n_hash_chunks hash n) pos
  = if pos <? n then get_hash_chunk hash pos else 0.
Proof.
  intros Hn Hp.
  assert (Hmask : wrap64 (Z.shiftl 1 (n * kBitsPerLevel) - 1) = Z.ones (n * 6)).
  { unfold kBitsPerLevel. rewrite Z.ones_equiv, Z.shiftl_1_l.
    unfold wrap64. rewrite Z.mod_small; [lia|].
    assert (2 ^ (n * 6) <= 2 ^ 60) by (apply Z.pow_le_mono_r; lia).
    assert (0 < 2 ^ (n * 6)) by (apply Z.pow_pos_nonneg; lia).
    change (2 ^ 64) with (16 * 2 ^ 60). lia. }
  apply Z.bits_inj'. intros j Hj.
  rewrite get_hash_chunk_testbit by lia.
  unfold get_first_n_hash_chunks. rewrite Hmask, Z.land_spec.
  unfold kBitsPerLevel.
  rewrite Z.testbit_ones_nonneg by lia.
  destruct (Z.ltb_spec pos n) as [Hlt|Hge].
  - rewrite get_hash_chunk_testbit by lia. unfold kBitsPerLevel.
    destruct (Z.ltb_spec j 6); [|now rewrite !andb_false_r].
    destruct (Z.ltb_spec (pos * 6 + j) (n * 6)); [|lia].
    now rewrite !andb_true_r.
  - rewrite Z.bits_0.
    destruct (Z.ltb_spec j 6); [|apply andb_false_r].
    destruct (Z.ltb_spec (pos * 6 + j) (n * 6)); [lia|].
    now rewrite andb_false_r.
Qed.

Lemma set_hash_chunk_then_get_witness :
  0 <= 3 <= 9 /\ 0 <= 42 <= 63
  /\ get_hash_chunk (set_hash_chunk 123456789 42 3) 3 = 42.
Proof.
  split; [lia|]. split; [lia|].
  apply (set_hash_chunk_then_get 123456789 42 3); lia.
Defined.


Lemma get_first_n_hash_chunks_keeps_prefix_witness :
  0 <= 2 <= 10 /\ 0 <= 1
  /\ get_hash_chunk (get_first_n_hash_chunks 123456789 2) 1
     = if 1 <? 2 then get_hash_chunk 123456789 1 else 0.
Proof.
  split; [lia|]. split; [lia|].
  apply (get_first_n_hash_chunks_keeps_prefix 123456789 2 1); lia.
Defined.

(** ** Ranks in an occupation mask and the child array of a branch *)

Lemma num_set_bits occ : Occupation.num_set occ = bits_between occ 0 64.
Proof. reflexivity. Qed.

Lemma bits_between_split occ lo (a b : nat) :
  bits_between occ lo (a + b)
  = bits_between occ lo a + bits_between occ (lo + Z.of_nat a) b.
Proof. apply bits_between_app. Qed.

(** On a 64-bit mask, the rank from [pos] upwards only sees the bits
    [pos .. 63]. *)
Lemma num_set_until_window occ pos :
  is_uint64 occ -> 0 <= pos <= 64 ->
  Occupation.num_set_until occ pos = bits_between occ pos (64 - Z.to_nat pos).
Proof.
  intros Ho Hp. rewrite num_set_until_bits by lia.
  set (a := Z.to_nat pos). set (b := (64 - a)%nat).
  replace 64%nat with (b + a)%nat by lia.
  rewrite bits_between_app.
  rewrite (bits_between_zero occ (pos + _)); [lia|].
  intros i Hi. apply uint64_testbit_high; [assumption|lia].
Qed.

Lemma num_set_window occ pos :
  0 <= pos <= 64 ->
  Occupation.num_set occ
  = bits_between occ 0 (Z.to_nat pos) + bits_between occ pos (64 - Z.to_nat pos).
Proof.
  intros Hp. unfold Occupation.num_set, popcnt.
  set (a := Z.to_nat pos). set (b := (64 - a)%nat).
  replace 64%nat with (a + b)%nat by lia.
  rewrite bits_between_app. do 2 f_equal. lia.
Qed.

Lemma rank_sum occ pos :
  is_uint64 occ -> 0 <= pos <= 63 ->
  Occupation.num_set_after occ pos + Occupation.num_set_until occ pos
  = Occupation.num_set occ + (if Occupation.test occ pos then 1 else 0).
Proof.
  intros Ho Hp.
  rewrite num_set_after_low by lia.
  rewrite num_set_until_window by (assumption || lia).
  rewrite (num_set_window occ pos) by lia.
  rewrite test_testbit by lia.
  replace (Z.to_nat (pos + 1)) with (Z.to_nat pos + 1)%nat by lia.
  rewrite bits_between_app, bits_between_single.
  replace (0 + Z.of_nat (Z.to_nat pos)) with pos by lia.
  lia.
Qed.

(** X13. The assertion of [addChildToBranchNode]: for a 64-bit occupation
    mask whose bit [hashValue] is clear, the children after the new slot
    ([num_set_after]) and the children before it ([num_set_until]) add up
    to all children ([num_set]). *)
Theorem addChild_assertion_holds occ hashValue :
  is_uint64 occ -> 0 <= hashValue <= 63 ->
  Occupation.test occ hashValue = false ->
  Occupation.num_set_after occ hashValue + Occupation.num_set_until occ hashValue
  = Occupation.num_set occ.
Proof.
  intros Ho Hp Ht. rewrite rank_sum by assumption. rewrite Ht. lia.
Qed.

Lemma num_set_until_slot_range occ pos :
  is_uint64 occ -> 0 <= pos <= 63 -> Occupation.test occ pos = true ->
  0 <= Occupation.num_set_until occ pos - 1 < Occupation.num_set occ.
Proof.
  intros Ho Hp Ht.
  pose proof (num_set_until_pos occ pos ltac:(lia) Ht).
  pose proof (num_set_until_le_num_set occ pos Ho Hp). lia.
Qed.

(** X14. The child slots of a branch follow the set bits of its 64-bit
    occupation mask from the highest bit down: a set bit has a slot inside
    the child array, and of two set bits the higher one has the smaller
    slot, so different chunks never share a slot. *)
Theorem child_slots_descend occ p q :
  is_uint64 occ -> 0 <= p < q -> q <= 63 ->
  Occupation.test occ p = true -> Occupation.test occ q = true ->
  0 <= Occupation.num_set_until occ q - 1
  /\ Occupation.num_set_until occ q - 1 < Occupation.num_set_until occ p - 1
  /\ Occupation.num_set_until occ p - 1 < Occupation.num_set occ.
Proof.
  intros Ho Hpq Hq Htp Htq.
  pose proof (num_set_until_slot_range occ p Ho ltac:(lia) Htp).
  pose proof (num_set_until_slot_range occ q Ho ltac:(lia) Htq).
  split; [lia|]. split; [|lia].
  rewrite test_testbit in Htp by lia.
  rewrite !num_set_until_window by (assumption || lia).
  set (m := (Z.to_nat (q - p) - 1)%nat). set (b := (64 - Z.to_nat q)%nat).
  assert (E : (64 - Z.to_nat p)%nat = (1 + m + b)%nat) by lia.
  rewrite E. clear E.
  rewrite !bits_between_app, bits_between_single, Htp.
  replace (p + Z.of_nat (1 + m)) with q by lia.
  pose proof (bits_between_nonneg occ (p + Z.of_nat 1) m).
  lia.
Qed.

Lemma addChild_assertion_holds_witness :
  is_uint64 44 /\ 0 <= 4 <= 63 /\ Occupation.test 44 4 = false
  /\ Occupation.num_set_after 44 4 + Occupation.num_set_until 44 4
     = Occupation.num_set 44.
Proof.
  split; [unfold is_uint64; lia|]. split; [lia|]. split; [reflexivity|].
  apply (addChild_assertion_holds 44 4); [unfold is_uint64; lia|lia|reflexivity].
Defined.

Lemma child_slots_descend_witness :
  is_uint64 44 /\ 0 <= 2 < 5 /\ 5 <= 63
  /\ Occupation.test 44 2 = true /\ Occupation.test 44 5 = true
  /\ 0 <= Occupation.num_set_until 44 5 - 1
  /\ Occupation.num_set_until 44 5 - 1 < Occupation.num_set_until 44 2 - 1
  /\ Occupation.num_set_until 44 2 - 1 < Occupation.num_set 44.
Proof.
  split; [unfold is_uint64; lia|]. split; [lia|]. split; [lia|].
  split; [reflexivity|]. split; [reflexivity|].
  apply (child_slots_descend 44 2 5);
    [unfold is_uint64; lia|lia|lia|reflexivity|reflexivity].
Defined.

(** ** Adding and removing a child slot of a branch *)

Section BranchFacts.

Context {V : Type}.
Variable hash : Z -> Z.

#[local] Abbreviation Entry := (HighsHashTableEntry V).
#[local] Abbreviation Node := (@NodePtr V).

Implicit Types (n : Node) (child slots : list Node).

Lemma child_prefix_all child :
  child_prefix child (Z.of_nat (length child)) = Some child.
Proof.
  unfold child_prefix.
  destruct (Z.leb_spec 0 (Z.of_nat (length child))); [|lia].
  rewrite Z.leb_refl. cbn [andb]. rewrite Nat2Z.id. now rewrite firstn_all.
Qed.

Lemma child_prefix_defined child (m : Z) :
  0 <= m <= Z.of_nat (length child) ->
  child_prefix child m = Some (firstn (Z.to_nat m) child).
Proof.
  intros Hm. unfold child_prefix.
  destruct (Z.leb_spec 0 m); [|lia].
  destruct (Z.leb_spec m (Z.of_nat (length child))); [|lia]. reflexivity.
Qed.

Lemma num_set_nonneg occ : 0 <= Occupation.num_set occ.
Proof. apply bits_between_nonneg. Qed.

Lemma num_set_until_nonneg occ pos : 0 <= Occupation.num_set_until occ pos.
Proof. apply bits_between_nonneg. Qed.

Lemma num_set_after_nonneg occ pos : 0 <= Occupation.num_set_after occ pos.
Proof. apply bits_between_nonneg. Qed.

(** Setting a clear bit adds one to the population count. *)
Lemma num_set_set occ pos :
  0 <= pos <= 63 -> Occupation.test occ pos = false ->
  Occupation.num_set (Occupation.set occ pos) = Occupation.num_set occ + 1.
Proof.
  intros Hp Ht. rewrite test_testbit in Ht by lia.
  rewrite (num_set_window (Occupation.set occ pos) pos) by lia.
  rewrite (num_set_window occ pos) by lia.
  set (b := (64 - Z.to_nat pos)%nat).
  assert (E : b = (1 + (b - 1))%nat) by lia. rewrite E. clear E.
  rewrite !bits_between_app, !bits_between_single.
  rewrite set_testbit, Z.eqb_refl, Ht by lia. cbn [orb].
  rewrite (bits_between_ext (Occupation.set occ pos) occ 0).
  - rewrite (bits_between_ext (Occupation.set occ pos) occ (pos + Z.of_nat 1)); [lia|].
    intros i Hi. rewrite set_testbit by lia.
    destruct (Z.eqb_spec i pos); [lia|apply orb_false_r].
  - intros i Hi. rewrite set_testbit by lia.
    destruct (Z.eqb_spec i pos); [lia|apply orb_false_r].
Qed.

Lemma addChild_opens_spec occ child hashValue :
  is_uint64 occ -> 0 <= hashValue <= 63 ->
  Occupation.test occ hashValue = false ->
  Z.of_nat (length child) = Occupation.num_set occ ->
  exists child',
    addChildToBranchNode occ child hashValue
      (Occupation.num_set_until occ hashValue) = Some child'
    /\ child' = firstn (Z.to_nat (Occupation.num_set_until occ hashValue)) child
                ++ Empty
                   :: skipn (Z.to_nat (Occupation.num_set_until occ hashValue)) child
    /\ Z.of_nat (length child')
       = Occupation.num_set (Occupation.set occ hashValue).
Proof.
  intros Ho Hp Ht Hlen.
  pose proof (rank_sum occ hashValue Ho Hp) as Hsum. rewrite Ht in Hsum.
  pose proof (num_set_until_nonneg occ hashValue) as Hnn.
  pose proof (num_set_after_nonneg occ hashValue) as Hnn'.
  remember (Occupation.num_set_until occ hashValue) as location eqn:Hl.
  remember (Occupation.num_set_after occ hashValue) as rightChilds eqn:Hr.
  unfold addChildToBranchNode. rewrite <- Hr.
  rewrite child_prefix_defined by lia.
  assert (Hright : rightChilds
                   = Z.of_nat (length (skipn (Z.to_nat location) child))).
  { rewrite length_skipn. lia. }
  rewrite Hright, child_prefix_all.
  eexists. split; [reflexivity|]. split; [reflexivity|].
  rewrite num_set_set by assumption.
  rewrite length_app, length_cons, length_firstn, length_skipn.
  clear Hright Hl Hr Ht Ho. revert Hsum Hlen.
  generalize (Occupation.num_set occ). intros ns Hsum Hlen. lia.
Qed.

(** X15. [addChildToBranchNode] on a branch with one child per set bit of
    its 64-bit occupation mask, for a chunk whose bit is clear: the result
    is the old child array with one empty slot opened at the rank of the
    chunk, every other child kept in order, and its length is the
    population count of the mask with the new bit set. *)
Theorem addChild_opens_slot occ child hashValue :
  is_uint64 occ -> 0 <= hashValue <= 63 ->
  Occupation.test occ hashValue = false ->
  Z.of_nat (length child) = Occupation.num_set occ ->
  exists child',
    addChildToBranchNode occ child hashValue
      (Occupation.num_set_until occ hashValue) = Some child'
    /\ child' = firstn (Z.to_nat (Occupation.num_set_until occ hashValue)) child
                ++ Empty
                   :: skipn (Z.to_nat (Occupation.num_set_until occ hashValue)) child
    /\ Z.of_nat (length child')
       = Occupation.num_set (Occupation.set occ hashValue).
Proof. exact (addChild_opens_spec occ child hashValue). Qed.

Lemma removeChild_keeps_spec occ child location hashPos :
  Z.of_nat (length child) = Occupation.num_set occ + 1 ->
  0 <= location <= Occupation.num_set occ ->
  5 < Occupation.num_set occ
  \/ kLeafBurstThreshold <= estimate_loop child 0
  \/ kLeafBurstThreshold <= sum_numEntries child ->
  removeChildFromBranchNode hash occ child location hashPos
  = Some (BranchPtr occ (firstn (Z.to_nat location) child
                         ++ skipn (Z.to_nat location + 1) child)).
Proof.
  intros Hlen Hloc Hkeep. unfold removeChildFromBranchNode.
  rewrite <- Hlen, child_prefix_all.
  replace (Z.of_nat (length child)) with (Occupation.num_set occ + 1) by lia.
  destruct (Z.leb_spec 0 location); [|lia].
  destruct (Z.leb_spec location (Occupation.num_set occ)); [|lia].
  cbn [andb]. change (capacity Class1) with 6.
  destruct (Z.leb_spec (Occupation.num_set occ * 6) kLeafBurstThreshold) as [H5|];
    [|reflexivity].
  destruct (Z.ltb_spec (estimate_loop child 0) kLeafBurstThreshold) as [He|];
    [|reflexivity].
  destruct (Z.ltb_spec (sum_numEntries child) kLeafBurstThreshold) as [Hs|];
    [|reflexivity].
  change kLeafBurstThreshold with 30 in *. lia.
Qed.

(** X16. [removeChildFromBranchNode] keeps the branch, with the emptied
    slot cut out of the child array and every other child in place,
    whenever more than five children remain, or the capacity estimates of
    the remaining children reach the burst threshold of 30, or their entry
    counts do; only otherwise does it merge the children into one leaf. *)
Theorem removeChild_keeps_branch occ child location hashPos :
  Z.of_nat (length child) = Occupation.num_set occ + 1 ->
  0 <= location <= Occupation.num_set occ ->
  5 < Occupation.num_set occ
  \/ kLeafBurstThreshold <= estimate_loop child 0
  \/ kLeafBurstThreshold <= sum_numEntries child ->
  removeChildFromBranchNode hash occ child location hashPos
  = Some (BranchPtr occ (firstn (Z.to_nat location) child
                         ++ skipn (Z.to_nat location + 1) child)).
Proof. exact (removeChild_keeps_spec occ child location hashPos). Qed.

End BranchFacts.

(** ** Merging the children of a branch into one leaf *)

Section MergeBack.

Context {V : Type}.
Variable hash : Z -> Z.

#[local] Abbreviation Entry := (HighsHashTableEntry V).
#[local] Abbreviation Node := (@NodePtr V).
#[local] Abbreviation Leaf := (@InnerLeaf V).

Implicit Types (n : Node) (child slots : list Node) (l : list Entry) (leaf acc : Leaf).

Lemma leaf_invariant_ok c leaf hashPos :
  leaf_invariant hash c leaf hashPos = true -> leaf_ok hash leaf hashPos = true.
Proof.
  unfold leaf_invariant. intros H. apply andb_prop in H as [H _].
  now apply andb_prop in H as [H _].
Qed.

Lemma mergeEntries_keys c hashPos : forall l acc,
  leaf_ok hash acc hashPos = true ->
  size acc + Z.of_nat (length l) <= capacity c ->
  exists acc',
    mergeEntries hash c acc hashPos l = Some acc'
    /\ leaf_ok hash acc' hashPos = true
    /\ size acc' <= size acc + Z.of_nat (length l)
    /\ forall k, chain_has k (entries acc')
                 = chain_has k (entries acc) || chain_has k l.
Proof.
  induction l as [|x l IH]; intros acc Hok Hsz; cbn [mergeEntries].
  - exists acc. split; [reflexivity|]. split; [exact Hok|]. split; [lia|].
    intros k. cbn. now rewrite orb_false_r.
  - cbn [length] in Hsz.
    destruct (insert_entry_spec hash c acc hashPos x Hok ltac:(lia))
      as (acc1 & Hins & Hinv & Hlook).
    rewrite Hins.
    pose proof (insert_entry_size _ _ _ _ _ _ _ Hins) as (_ & Hs1 & _).
    destruct (IH acc1 (leaf_invariant_ok _ _ _ Hinv) ltac:(lia))
      as (acc' & Hm & Hok' & Hsz' & Hkeys).
    exists acc'. split; [exact Hm|]. split; [exact Hok'|].
    split; [rewrite length_cons; lia|].
    intros k. rewrite Hkeys. rewrite <- !lookup_key_has, Hlook.
    rewrite !lookup_key_has. cbn [chain_has existsb].
    rewrite (Z.eqb_sym (key x) k).
    destruct (k =? key x) eqn:Hk; cbn [andb orb].
    + apply Z.eqb_eq in Hk. subst k.
      destruct (chain_has (key x) (entries acc)) eqn:Hh; cbn [negb]; [|reflexivity].
      rewrite lookup_key_has, Hh. reflexivity.
    + now rewrite lookup_key_has.
Qed.

Lemma mergeIntoLeaf_entries c acc hashPos n :
  mergeIntoLeaf hash c acc hashPos n = mergeEntries hash c acc hashPos (node_entries n).
Proof. destruct n; reflexivity. Qed.

Lemma total_entries_nonneg slots : 0 <= total_entries slots.
Proof. induction slots as [|n slots IH]; cbn [total_entries fold_right]; [lia|]. fold (total_entries slots). lia. Qed.

Lemma merge_children_keys c hashPos : forall slots acc,
  leaf_ok hash acc hashPos = true ->
  size acc + total_entries slots <= capacity c ->
  exists acc',
    merge_children hash c acc hashPos slots = Some acc'
    /\ leaf_ok hash acc' hashPos = true
    /\ size acc' <= size acc + total_entries slots
    /\ forall k, chain_has k (entries acc')
                 = chain_has k (entries acc)
                   || existsb (fun n => chain_has k (node_entries n)) slots.
Proof.
  induction slots as [|n slots IH]; intros acc Hok Hsz; cbn [merge_children].
  - exists acc. split; [reflexivity|]. split; [exact Hok|].
    cbn [total_entries fold_right]. split; [lia|].
    intros k. cbn [existsb]. now rewrite orb_false_r.
  - cbn [total_entries fold_right] in Hsz. fold (total_entries slots) in Hsz.
    pose proof (total_entries_nonneg slots) as Hnn.
    rewrite mergeIntoLeaf_entries.
    destruct (mergeEntries_keys c hashPos (node_entries n) acc Hok ltac:(lia))
      as (acc1 & Hm1 & Hok1 & Hsz1 & Hk1).
    rewrite Hm1.
    destruct (IH acc1 Hok1 ltac:(lia)) as (acc' & Hm & Hok' & Hsz' & Hkeys).
    exists acc'. split; [exact Hm|]. split; [exact Hok'|].
    cbn [total_entries fold_right]. fold (total_entries slots). split; [lia|].
    intros k. rewrite Hkeys, Hk1. cbn [existsb]. now rewrite orb_assoc.
Qed.

Lemma sum_numEntries_from slots : forall a,
  fold_left (fun s n => s + numEntries n) slots a
  = a + fold_left (fun s n => s + numEntries n) slots 0.
Proof.
  induction slots as [|n slots IH]; intros a; cbn [fold_left]; [lia|].
  rewrite (IH (a + numEntries n)), (IH (0 + numEntries n)). lia.
Qed.

Lemma sum_numEntries_cons n slots :
  sum_numEntries (n :: slots) = numEntries n + sum_numEntries slots.
Proof.
  unfold sum_numEntries. cbn [fold_left]. rewrite sum_numEntries_from. lia.
Qed.

Lemma numEntries_nonneg n : count_exact n = true -> 0 <= numEntries n.
Proof.
  destruct n as [| f nx cnt | c leaf | occ child]; cbn [count_exact numEntries].
  - lia.
  - intros H. apply Z.eqb_eq in H. lia.
  - intros _. unfold size. lia.
  - intros _. now vm_compute.
Qed.

Lemma sum_numEntries_total slots :
  forallb count_exact slots = true ->
  sum_numEntries slots < kLeafBurstThreshold ->
  0 <= sum_numEntries slots /\ total_entries slots = sum_numEntries slots.
Proof.
  induction slots as [|n slots IH]; intros Hc Hs.
  - split; [now vm_compute|reflexivity].
  - cbn [forallb] in Hc. apply andb_prop in Hc as [Hn Hc].
    rewrite sum_numEntries_cons in *.
    pose proof (numEntries_nonneg n Hn) as Hnn.
    assert (Hrest : 0 <= sum_numEntries slots).
    { clear IH Hs. induction slots as [|m slots IHs]; [now vm_compute|].
      cbn [forallb] in Hc. apply andb_prop in Hc as [Hm Hc].
      rewrite sum_numEntries_cons. pose proof (numEntries_nonneg m Hm). 
      specialize (IHs Hc). lia. }
    destruct (IH Hc ltac:(lia)) as [_ IHt].
    cbn [total_entries fold_right]. fold (total_entries slots). rewrite IHt.
    split; [lia|]. f_equal.
    destruct n as [| f nx cnt | c leaf | occ child];
      cbn [count_exact numEntries node_entries length] in *.
    + reflexivity.
    + apply Z.eqb_eq in Hn. lia.
    + reflexivity.
    + exfalso. change kBranchFactor with 64 in *.
      change kLeafBurstThreshold with 30 in *. lia.
Qed.

Lemma class_for_defined s :
  0 <= s < kLeafBurstThreshold ->
  exists c, class_for s = Some c
            /\ s <= capacity c
            /\ (c = Class1 \/ capacity (prev_class c) < s).
Proof.
  intros Hs. change kLeafBurstThreshold with 30 in Hs. unfold class_for.
  assert (Hq : 0 <= (s + 1) / 8 <= 3).
  { split; [apply Z.div_pos; lia|].
    apply Z.lt_succ_r. apply Z.div_lt_upper_bound; lia. }
  pose proof (Z.div_mod (s + 1) 8 ltac:(lia)) as Hdm.
  pose proof (Z.mod_pos_bound (s + 1) 8 ltac:(lia)) as Hm.
  destruct ((s + 1) / 8) as [|q|q] eqn:E; [| |lia].
  - exists Class1. split; [reflexivity|]. change (capacity Class1) with 6.
    split; [lia|now left].
  - destruct q as [[|[]|]|[|[]|]|]; try lia.
    + exists Class4. split; [reflexivity|].
      change (capacity Class4) with 30. change (capacity (prev_class Class4)) with 22.
      split; [lia|right; lia].
    + exists Class3. split; [reflexivity|].
      change (capacity Class3) with 22. change (capacity (prev_class Class3)) with 14.
      split; [lia|right; lia].
    + exists Class2. split; [reflexivity|].
      change (capacity Class2) with 14. change (capacity (prev_class Class2)) with 6.
      split; [lia|right; lia].
Qed.

Lemma removeChild_merges_spec occ child location hashPos :
  Z.of_nat (length child) = Occupation.num_set occ + 1 ->
  Occupation.num_set occ <= 5 ->
  estimate_loop child 0 < kLeafBurstThreshold ->
  sum_numEntries child < kLeafBurstThreshold ->
  forallb count_exact child = true ->
  exists c leaf,
    removeChildFromBranchNode hash occ child location hashPos
    = Some (InnerLeafPtr c leaf)
    /\ sum_numEntries child <= capacity c
    /\ (c = Class1 \/ capacity (prev_class c) < sum_numEntries child)
    /\ leaf_ok hash leaf hashPos = true
    /\ size leaf <= sum_numEntries child
    /\ forall k, chain_has k (entries leaf)
                 = existsb (fun n => chain_has k (node_entries n)) child.
Proof.
  intros Hlen H5 Hest Hsum Hcount.
  destruct (sum_numEntries_total child Hcount Hsum) as [Hnn Htot].
  destruct (class_for_defined (sum_numEntries child) ltac:(lia))
    as (c & Hclass & Hcap & Hsmall).
  destruct (merge_children_keys c hashPos child new_InnerLeaf eq_refl)
    as (leaf & Hm & Hok & Hsz & Hkeys).
  { rewrite Htot. unfold size. cbn [new_InnerLeaf entries length]. lia. }
  exists c, leaf.
  split; [|split; [exact Hcap|split; [exact Hsmall|split; [exact Hok|split]]]].
  - unfold removeChildFromBranchNode.
    rewrite <- Hlen, child_prefix_all.
    change (capacity Class1) with 6.
    destruct (Z.leb_spec (Occupation.num_set occ * 6) kLeafBurstThreshold) as [_|Hbad];
      [|change kLeafBurstThreshold with 30 in Hbad; lia].
    destruct (Z.ltb_spec (estimate_loop child 0) kLeafBurstThreshold); [|lia].
    destruct (Z.ltb_spec (sum_numEntries child) kLeafBurstThreshold); [|lia].
    now rewrite Hclass, Hm.
  - rewrite Htot in Hsz. unfold size in *. cbn [new_InnerLeaf entries length] in Hsz. lia.
  - intros k. rewrite Hkeys. reflexivity.
Qed.

(** X17. [removeChildFromBranchNode] replaces the branch by a single inner
    leaf when at most five children remain, their capacity estimates sum
    to less than 30 and so do their entry counts (list leaves counting
    their chains): the leaf has the smallest size class that holds that
    many entries, satisfies the leaf invariant at the depth of the branch,
    and stores exactly the keys of the children. *)
Theorem removeChild_merges_into_leaf occ child location hashPos :
  Z.of_nat (length child) = Occupation.num_set occ + 1 ->
  Occupation.num_set occ <= 5 ->
  estimate_loop child 0 < kLeafBurstThreshold ->
  sum_numEntries child < kLeafBurstThreshold ->
  forallb count_exact child = true ->
  exists c leaf,
    removeChildFromBranchNode hash occ child location hashPos
    = Some (InnerLeafPtr c leaf)
    /\ sum_numEntries child <= capacity c
    /\ (c = Class1 \/ capacity (prev_class c) < sum_numEntries child)
    /\ leaf_ok hash leaf hashPos = true
    /\ size leaf <= sum_numEntries child
    /\ forall k, chain_has k (entries leaf)
                 = existsb (fun n => chain_has k (node_entries n)) child.
Proof. exact (removeChild_merges_spec occ child location hashPos). Qed.

End MergeBack.

(** ** Inner leaves as tree nodes: promotion and demotion *)

Section LeafNodes.

Context {V : Type}.
Variable hash : Z -> Z.

#[local] Abbreviation Entry := (HighsHashTableEntry V).
#[local] Abbreviation Node := (@NodePtr V).
#[local] Abbreviation Leaf := (@InnerLeaf V).

Implicit Types (e : Entry) (leaf : Leaf) (k : Z) (c : SizeClass).

Lemma capacity_next_class c : c <> Class4 -> capacity c < capacity (next_class c).
Proof. destruct c; intros H; try congruence; now vm_compute. Qed.

Lemma capacity_prev_class c : c <> Class1 -> capacity (prev_class c) < capacity c.
Proof. destruct c; intros H; try congruence; now vm_compute. Qed.

Lemma capacity_min c : kMinLeafSize <= capacity c.
Proof. destruct c; vm_compute; discriminate. Qed.

Lemma leaf_invariant_intro c leaf hashPos :
  leaf_ok hash leaf hashPos = true -> 1 <= size leaf <= capacity c ->
  leaf_invariant hash c leaf hashPos = true.
Proof.
  intros Hok [H1 H2]. unfold leaf_invariant. rewrite Hok. cbn [andb].
  apply andb_true_intro. split; apply Z.leb_le; assumption.
Qed.

Lemma leaf_invariant_size c leaf hashPos :
  leaf_invariant hash c leaf hashPos = true -> 1 <= size leaf <= capacity c.
Proof.
  unfold leaf_invariant. intros H. apply andb_prop in H as [H H2].
  apply andb_prop in H as [_ H1]. apply Z.leb_le in H1, H2. lia.
Qed.

Lemma insert_entry_old_key c leaf hashPos e :
  leaf_ok hash leaf hashPos = true ->
  size leaf < capacity c ->
  chain_has (key e) (entries leaf) = true ->
  insert_entry c leaf (hash (key e)) hashPos e = Some (false, leaf).
Proof.
  intros Hok Hsz Hhas. apply insert_entry_duplicate; [|exact Hsz].
  unfold leaf_hit. rewrite (find_entry_spec hash leaf hashPos (key e) Hok).
  rewrite <- lookup_key_has in Hhas.
  destruct (lookup_key (key e) (entries leaf)) as [v|]; [|discriminate].
  now exists v.
Qed.

Lemma insert_entry_new_size c leaf hashPos e :
  leaf_ok hash leaf hashPos = true ->
  size leaf < capacity c ->
  chain_has (key e) (entries leaf) = false ->
  exists leaf',
    insert_entry c leaf (hash (key e)) hashPos e = Some (true, leaf')
    /\ size leaf' = size leaf + 1.
Proof.
  intros Hok Hsz Hhas. eexists. split.
  - exact (insert_entry_new_key hash c leaf hashPos e Hok Hsz Hhas).
  - unfold size. cbn [entries]. rewrite insert_fresh_length. lia.
Qed.

Lemma insert_into_leaf_spec c leaf hashPos e :
  c <> Class4 ->
  leaf_ok hash leaf hashPos = true ->
  size leaf <= capacity c ->
  exists leaf',
    insert_into_leaf hash c leaf (hash (key e)) hashPos e
    = Some (negb (chain_has (key e) (entries leaf)),
            InnerLeafPtr
              (if (size leaf =? capacity c)
                  && negb (chain_has (key e) (entries leaf))
               then next_class c else c) leaf')
    /\ leaf_ok hash leaf' hashPos = true
    /\ size leaf'
       = size leaf + (if chain_has (key e) (entries leaf) then 0 else 1)
    /\ forall k, lookup_key k (entries leaf')
                 = if (k =? key e) && negb (chain_has (key e) (entries leaf))
                   then Some (value e) else lookup_key k (entries leaf).
Proof.
  intros Hc Hok Hsz. unfold insert_into_leaf.
  pose proof (capacity_next_class c Hc) as Hnext.
  destruct (Z.eqb_spec (size leaf) (capacity c)) as [Hfull|Hfree]; cbn [andb].
  - rewrite (find_entry_spec hash leaf hashPos (key e) Hok), lookup_key_has.
    destruct (chain_has (key e) (entries leaf)) eqn:Hhas; cbn [negb].
    + exists leaf. split; [reflexivity|]. split; [exact Hok|]. split; [lia|].
      intros k. now rewrite andb_false_r.
    + rewrite (mergeEntries_reproduces hash (next_class c) leaf hashPos Hok)
        by lia.
      destruct (insert_entry_spec hash (next_class c) leaf hashPos e Hok
                  ltac:(lia)) as (leaf' & Hins & Hinv & Hlook).
      rewrite Hins, Hhas. cbn [negb].
      exists leaf'. split; [reflexivity|].
      split; [exact (leaf_invariant_ok hash _ _ _ Hinv)|].
      split; [|intros k; rewrite Hlook, Hhas; reflexivity].
      destruct (insert_entry_new_size (next_class c) leaf hashPos e Hok
                  ltac:(lia) Hhas) as (leaf2 & Hins2 & Hsz2).
      rewrite Hins2 in Hins. now replace leaf' with leaf2 by congruence.
  - destruct (insert_entry_spec hash c leaf hashPos e Hok ltac:(lia))
      as (leaf' & Hins & Hinv & Hlook).
    rewrite Hins. exists leaf'. split; [reflexivity|].
    split; [exact (leaf_invariant_ok hash _ _ _ Hinv)|].
    split; [|exact Hlook].
    destruct (chain_has (key e) (entries leaf)) eqn:Hhas.
    + rewrite (insert_entry_old_key c leaf hashPos e Hok ltac:(lia) Hhas) in Hins.
      replace leaf' with leaf by congruence. lia.
    + destruct (insert_entry_new_size c leaf hashPos e Hok ltac:(lia) Hhas)
        as (leaf2 & Hins2 & Hsz2).
      rewrite Hins2 in Hins. now replace leaf' with leaf2 by congruence.
Qed.

(** X18. [insert_into_leaf] on a sorted, mask-consistent leaf of size class
    1, 2 or 3: the insert is defined and returns true exactly for a new
    key; a full leaf that receives a new key moves to the next size class,
    every other leaf keeps its class; the resulting leaf is sorted and
    mask-consistent again, has grown by one entry exactly for a new key,
    and holds the old entries and the new one. *)
Theorem insert_into_leaf_promotes_when_full c leaf hashPos e :
  c <> Class4 ->
  leaf_ok hash leaf hashPos = true ->
  size leaf <= capacity c ->
  exists leaf',
    insert_into_leaf hash c leaf (hash (key e)) hashPos e
    = Some (negb (chain_has (key e) (entries leaf)),
            InnerLeafPtr
              (if (size leaf =? capacity c)
                  && negb (chain_has (key e) (entries leaf))
               then next_class c else c) leaf')
    /\ leaf_ok hash leaf' hashPos = true
    /\ size leaf'
       = size leaf + (if chain_has (key e) (entries leaf) then 0 else 1)
    /\ forall k, lookup_key k (entries leaf')
                 = if (k =? key e) && negb (chain_has (key e) (entries leaf))
                   then Some (value e) else lookup_key k (entries leaf).
Proof. exact (insert_into_leaf_spec c leaf hashPos e). Qed.

Lemma erase_inner_leaf_spec fuel c leaf hashPos k :
  chunk_defined hashPos = true ->
  leaf_invariant hash c leaf hashPos = true ->
  class_tight c leaf ->
  exists n',
    erase_recurse hash (S fuel) (InnerLeafPtr c leaf) (hash k) hashPos k = Some n'
    /\ (chain_has k (entries leaf) = false -> n' = InnerLeafPtr c leaf)
    /\ (chain_has k (entries leaf) = true -> size leaf = 1 -> n' = Empty)
    /\ (chain_has k (entries leaf) = true -> 1 < size leaf ->
        exists leaf',
          n' = InnerLeafPtr (class_after_erase c leaf) leaf'
          /\ entries leaf' = remove_key k (entries leaf)
          /\ leaf_invariant hash (class_after_erase c leaf) leaf' hashPos = true
          /\ class_tight (class_after_erase c leaf) leaf').
Proof.
  intros Hdef Hinv Htight.
  pose proof (leaf_invariant_size c leaf hashPos Hinv) as Hsize.
  pose proof (leaf_invariant_ok hash c leaf hashPos Hinv) as Hok.
  destruct (erase_entry_spec hash leaf hashPos k Hok)
    as (leaf' & Her & Hok' & Hent & Hsame & _).
  assert (Hsz' : chain_has k (entries leaf) = true -> size leaf' = size leaf - 1).
  { intros Hhas. unfold size. rewrite Hent.
    rewrite (remove_key_length k (entries leaf) Hhas). lia. }
  unfold class_after_erase, class_tight in *.
  destruct (chain_has k (entries leaf)) eqn:Hhas.
  - specialize (Hsz' eq_refl). clear Hsame.
    destruct c; cbn [erase_recurse]; rewrite Hdef; cbn [negb]; rewrite Her;
      cbn [andb prev_class] in *.
    + (* class 1 *)
      change (capacity Class1) with 6 in *.
      destruct (Z.eqb_spec (size leaf') 0) as [H0|H0].
      * exists Empty. split; [reflexivity|]. split; [discriminate|].
        split; [reflexivity|]. intros _ H1. lia.
      * exists (InnerLeafPtr Class1 leaf'). split; [reflexivity|].
        split; [discriminate|]. split; [intros _ H1; lia|]. intros _ H1.
        destruct (Z.eqb_spec (size leaf - 1) 6); [lia|].
        exists leaf'. split; [reflexivity|]. split; [exact Hent|].
        split; [|now left].
        apply leaf_invariant_intro; [exact Hok'|].
        change (capacity Class1) with 6. lia.
    + (* class 2 *)
      change (capacity Class1) with 6 in *. change (capacity Class2) with 14 in *.
      destruct Htight as [|Htight]; [discriminate|].
      rewrite Hsz'.
      destruct (Z.eqb_spec (size leaf - 1) 6) as [Hd|Hd].
      * rewrite (mergeEntries_reproduces hash Class1 leaf' hashPos Hok')
          by (change (capacity Class1) with 6; lia).
        exists (InnerLeafPtr Class1 leaf'). split; [reflexivity|].
        split; [discriminate|]. split; [intros _ H1; lia|]. intros _ _.
        exists leaf'. split; [reflexivity|]. split; [exact Hent|].
        split; [|now left].
        apply leaf_invariant_intro; [exact Hok'|].
        change (capacity Class1) with 6. lia.
      * exists (InnerLeafPtr Class2 leaf'). split; [reflexivity|].
        split; [discriminate|]. split; [intros _ H1; lia|]. intros _ _.
        exists leaf'. split; [reflexivity|]. split; [exact Hent|].
        split; [|right; change (capacity (prev_class Class2)) with 6; lia].
        apply leaf_invariant_intro; [exact Hok'|].
        change (capacity Class2) with 14. lia.
    + (* class 3 *)
      change (capacity Class2) with 14 in *. change (capacity Class3) with 22 in *.
      destruct Htight as [|Htight]; [discriminate|].
      rewrite Hsz'.
      destruct (Z.eqb_spec (size leaf - 1) 14) as [Hd|Hd].
      * rewrite (mergeEntries_reproduces hash Class2 leaf' hashPos Hok')
          by (change (capacity Class2) with 14; lia).
        exists (InnerLeafPtr Class2 leaf'). split; [reflexivity|].
        split; [discriminate|]. split; [intros _ H1; lia|]. intros _ _.
        exists leaf'. split; [reflexivity|]. split; [exact Hent|].
        split; [|right; change (capacity (prev_class Class2)) with 6; lia].
        apply leaf_invariant_intro; [exact Hok'|].
        change (capacity Class2) with 14. lia.
      * exists (InnerLeafPtr Class3 leaf'). split; [reflexivity|].
        split; [discriminate|]. split; [intros _ H1; lia|]. intros _ _.
        exists leaf'. split; [reflexivity|]. split; [exact Hent|].
        split; [|right; change (capacity (prev_class Class3)) with 14; lia].
        apply leaf_invariant_intro; [exact Hok'|].
        change (capacity Class3) with 22. lia.
    + (* class 4 *)
      change (capacity Class3) with 22 in *. change (capacity Class4) with 30 in *.
      destruct Htight as [|Htight]; [discriminate|].
      rewrite Hsz'.
      destruct (Z.eqb_spec (size leaf - 1) 22) as [Hd|Hd].
      * rewrite (mergeEntries_reproduces hash Class3 leaf' hashPos Hok')
          by (change (capacity Class3) with 22; lia).
        exists (InnerLeafPtr Class3 leaf'). split; [reflexivity|].
        split; [discriminate|]. split; [intros _ H1; lia|]. intros _ _.
        exists leaf'. split; [reflexivity|]. split; [exact Hent|].
        split; [|right; change (capacity (prev_class Class3)) with 14; lia].
        apply leaf_invariant_intro; [exact Hok'|].
        change (capacity Class3) with 22. lia.
      * exists (InnerLeafPtr Class4 leaf'). split; [reflexivity|].
        split; [discriminate|]. split; [intros _ H1; lia|]. intros _ _.
        exists leaf'. split; [reflexivity|]. split; [exact Hent|].
        split; [|right; change (capacity (prev_class Class4)) with 22; lia].
        apply leaf_invariant_intro; [exact Hok'|].
        change (capacity Class4) with 30. lia.
  - specialize (Hsame eq_refl). subst leaf'.
    exists (InnerLeafPtr c leaf).
    split; [|split; [reflexivity|split; discriminate]].
    destruct c; cbn [erase_recurse]; rewrite Hdef; cbn [negb]; rewrite Her;
      reflexivity.
Qed.

(** X19. [erase_recurse] on an inner leaf that satisfies the leaf
    invariant of its size class and is too large for the class below: an
    absent key leaves the node as it is; erasing the only entry gives the
    empty node; otherwise the entry is removed and the leaf moves to the
    class below exactly when the remaining entries fill that class, and
    the result again satisfies the invariant of its class. *)
Theorem erase_leaf_node_demotes fuel c leaf hashPos k :
  chunk_defined hashPos = true ->
  leaf_invariant hash c leaf hashPos = true ->
  class_tight c leaf ->
  exists n',
    erase_recurse hash (S fuel) (InnerLeafPtr c leaf) (hash k) hashPos k = Some n'
    /\ (chain_has k (entries leaf) = false -> n' = InnerLeafPtr c leaf)
    /\ (chain_has k (entries leaf) = true -> size leaf = 1 -> n' = Empty)
    /\ (chain_has k (entries leaf) = true -> 1 < size leaf ->
        exists leaf',
          n' = InnerLeafPtr (class_after_erase c leaf) leaf'
          /\ entries leaf' = remove_key k (entries leaf)
          /\ leaf_invariant hash (class_after_erase c leaf) leaf' hashPos = true
          /\ class_tight (class_after_erase c leaf) leaf').
Proof. exact (erase_inner_leaf_spec fuel c leaf hashPos k). Qed.

End LeafNodes.

(** ** Copying, list leaves and occupation bits *)

Section CopyAndChains.

Context {V : Type}.
Variable hash : Z -> Z.

#[local] Abbreviation Entry := (HighsHashTableEntry V).
#[local] Abbreviation Node := (@NodePtr V).

Implicit Types (first x : Entry) (next : list Entry) (k : Z).


Lemma erase_chain_spec k : forall next first,
  next <> [] -> before_chain_end k first next ->
  exists f' n',
    erase_chain k first next = (chain_has k (first :: next), f', n')
    /\ f' :: n' = remove_key k (first :: next).
Proof.
  induction next as [|y next IH]; intros first Hne Hsafe; [congruence|].
  cbn [erase_chain]. cbn [remove_key chain_has existsb].
  rewrite (Z.eqb_sym k (key first)).
  destruct (key first =? k) eqn:Hk; cbn [orb].
  - exists y, next. split; reflexivity.
  - destruct next as [|z next].
    + assert (Hy : (key y =? k) = false).
      { apply not_true_is_false. intros Hy.
        unfold before_chain_end in Hsafe.
        specialize (Hsafe Hne). cbn [chain_has existsb removelast] in Hsafe.
        rewrite Hk, Hy in Hsafe. cbn [orb] in Hsafe.
        specialize (Hsafe eq_refl). discriminate. }
      cbn [erase_chain]. rewrite Hy. exists first, [y].
      cbn [existsb remove_key orb]. rewrite (Z.eqb_sym k (key y)), Hy.
      split; reflexivity.
    + destruct (IH y ltac:(discriminate)) as (f' & n' & He & Hr).
      { unfold before_chain_end in *. intros _ Hhas.
        specialize (Hsafe Hne).
        change (removelast (first :: y :: z :: next))
          with (first :: removelast (y :: z :: next)) in Hsafe.
        change (chain_has k (first :: y :: z :: next))
          with ((key first =? k) || chain_has k (y :: z :: next)) in Hsafe.
        change (chain_has k (first :: removelast (y :: z :: next)))
          with ((key first =? k) || chain_has k (removelast (y :: z :: next)))
          in Hsafe.
        rewrite Hk in Hsafe. cbn [orb] in Hsafe. exact (Hsafe Hhas). }
      rewrite He. exists first, (f' :: n'). split; [reflexivity|].
      now rewrite Hr.
Qed.

Lemma erase_list_leaf_spec fuel first next count hash_ hashPos k :
  count = 1 + Z.of_nat (length next) ->
  before_chain_end k first next ->
  erase_recurse hash (S fuel) (ListLeafPtr first next count) hash_ hashPos k
  = Some (chain_node (remove_key k (first :: next))).
Proof.
  intros Hcount Hsafe. cbn [erase_recurse].
  destruct next as [|y next].
  - cbn [erase_chain remove_key]. rewrite (Z.eqb_sym k (key first)).
    cbn [length] in Hcount.
    destruct (key first =? k).
    + destruct (Z.eqb_spec (count - 1) 0); [reflexivity|lia].
    + destruct (Z.eqb_spec count 0); [lia|]. cbn [chain_node length].
      now rewrite Hcount.
  - destruct (erase_chain_spec k (y :: next) first ltac:(discriminate) Hsafe)
      as (f' & n' & He & Hr).
    rewrite He, <- Hr. cbn [chain_node].
    assert (Hlen : chain_has k (first :: y :: next) = true ->
                   length (y :: next) = S (length n')).
    { intros Hhas. apply remove_key_length in Hhas. rewrite <- Hr in Hhas.
      rewrite !length_cons in *. lia. }
    assert (Hsame : chain_has k (first :: y :: next) = false ->
                    length (y :: next) = length n').
    { intros Hhas. apply remove_key_absent in Hhas. rewrite <- Hr in Hhas.
      assert (E : length (f' :: n') = length (first :: y :: next)) by now rewrite Hhas.
      rewrite !length_cons in *. lia. }
    destruct (chain_has k (first :: y :: next)).
    + specialize (Hlen eq_refl). rewrite length_cons in *.
      destruct (Z.eqb_spec (count - 1) 0); [lia|]. do 2 f_equal. lia.
    + specialize (Hsame eq_refl). rewrite length_cons in *.
      destruct (Z.eqb_spec count 0); [lia|]. do 2 f_equal. lia.
Qed.


(** X21. [erase_recurse] on a list leaf whose count is the length of its
    chain, for a key that is absent or whose first holder is not the last
    node of a longer chain: the first node holding the key is removed,
    the count follows the chain, and a chain that loses its only node
    becomes the empty node. *)
Theorem erase_list_leaf_unlinks fuel first next count hash_ hashPos k :
  count = 1 + Z.of_nat (length next) ->
  before_chain_end k first next ->
  erase_recurse hash (S fuel) (ListLeafPtr first next count) hash_ hashPos k
  = Some (chain_node (remove_key k (first :: next))).
Proof. exact (erase_list_leaf_spec fuel first next count hash_ hashPos k). Qed.

End CopyAndChains.

Lemma flip_set_bit_spec occ pos :
  is_uint64 occ -> 0 <= pos <= 63 ->
  Occupation.test occ pos = true ->
  Occupation.test (Occupation.flip occ pos) pos = false
  /\ Occupation.set (Occupation.flip occ pos) pos = occ
  /\ Occupation.num_set (Occupation.flip occ pos) = Occupation.num_set occ - 1
  /\ is_uint64 (Occupation.flip occ pos).
Proof.
  intros Ho Hp Ht. rewrite test_testbit in Ht by lia.
  assert (Hclear : Occupation.test (Occupation.flip occ pos) pos = false).
  { rewrite test_testbit, flip_testbit, Ht, Z.eqb_refl by lia. reflexivity. }
  assert (Hback : Occupation.set (Occupation.flip occ pos) pos = occ).
  { apply Z.bits_inj'. intros i Hi.
    rewrite set_testbit, flip_testbit by lia.
    destruct (Z.eqb_spec i pos) as [->|Hne].
    - rewrite Ht. reflexivity.
    - now rewrite xorb_false_r, orb_false_r. }
  split; [exact Hclear|]. split; [exact Hback|]. split.
  - pose proof (num_set_set (Occupation.flip occ pos) pos Hp Hclear) as Hn.
    rewrite Hback in Hn. lia.
  - now apply flip_uint64.
Qed.

(** X22. Flipping a set bit of a 64-bit occupation mask, as [erase_recurse]
    does before it removes a child: the bit is clear afterwards, setting
    it again restores the mask, the population count drops by one, and
    the mask still is a 64-bit word. *)
Theorem flip_clears_set_bit occ pos :
  is_uint64 occ -> 0 <= pos <= 63 ->
  Occupation.test occ pos = true ->
  Occupation.test (Occupation.flip occ pos) pos = false
  /\ Occupation.set (Occupation.flip occ pos) pos = occ
  /\ Occupation.num_set (Occupation.flip occ pos) = Occupation.num_set occ - 1
  /\ is_uint64 (Occupation.flip occ pos).
Proof. exact (flip_set_bit_spec occ pos). Qed.

(** ** Lookup, traversal and intersection of trees *)

Section Traversal.

Context {V : Type}.
Variable hash : Z -> Z.

#[local] Abbreviation Entry := (HighsHashTableEntry V).
#[local] Abbreviation Node := (@NodePtr V).
#[local] Abbreviation Leaf := (@InnerLeaf V).

Implicit Types (l : list Entry) (e x y : Entry) (leaf : Leaf) (k : Z)
         (n : Node) (child : list Node).

Lemma for_each_branch occ child :
  Z.of_nat (length child) = Occupation.num_set occ ->
  for_each_entries (BranchPtr occ child) = flat_map for_each_entries child.
Proof.
  intros H. cbn [for_each_entries]. rewrite <- H, Nat2Z.id. clear H.
  induction child as [|n child IH]; [reflexivity|].
  cbn [length flat_map]. now rewrite IH.
Qed.

Lemma sized_branch occ child :
  sized (BranchPtr occ child) = true ->
  Z.of_nat (length child) = Occupation.num_set occ
  /\ forall n, In n child -> sized n = true.
Proof.
  cbn [sized]. intros H. apply andb_prop in H as [Hl Ha].
  apply Z.eqb_eq in Hl. split; [exact Hl|].
  now apply forallb_forall.
Qed.

Lemma child_at_In child i n : child_at child i = Some n -> In n child.
Proof.
  intros H. apply child_at_Some in H as [_ H]. exact (nth_error_In _ _ H).
Qed.

Lemma for_each_child occ child n e :
  sized (BranchPtr occ child) = true -> In n child ->
  In e (for_each_entries n) -> In e (for_each_entries (BranchPtr occ child)).
Proof.
  intros Hs Hn He. apply sized_branch in Hs as [Hl _].
  rewrite (for_each_branch occ child Hl). apply in_flat_map. now exists n.
Qed.

Lemma find_chain_In k l v : find_chain k l = Some v -> In (mkEntry k v) l.
Proof.
  induction l as [|x l IH]; cbn [find_chain]; [discriminate|].
  destruct (Z.eqb_spec (key x) k) as [Hk|Hk].
  - intros H. left. destruct x as [kx vx]. cbn [key value] in *. congruence.
  - intros H. right. now apply IH.
Qed.

Lemma find_scan_In k l v : find_scan k l = Some v -> In (mkEntry k v) l.
Proof.
  induction l as [|x l IH]; cbn [find_scan]; [discriminate|].
  destruct (k <=? key x).
  - destruct (Z.eqb_spec k (key x)) as [Hk|Hk]; [|discriminate].
    intros H. left. destruct x as [kx vx]. cbn [key value] in *. congruence.
  - intros H. right. now apply IH.
Qed.

Lemma In_chain_has e l : In e l -> chain_has (key e) l = true.
Proof.
  intros H. unfold chain_has. apply existsb_exists. exists e.
  split; [exact H|apply Z.eqb_refl].
Qed.

Lemma find_recurse_visited fuel : forall n hash_ hashPos k v,
  sized n = true ->
  find_recurse fuel n hash_ hashPos k = Some (Some v) ->
  In (mkEntry k v) (for_each_entries n).
Proof.
  induction fuel as [|fuel IH]; intros n hash_ hashPos k v Hs; [discriminate|].
  destruct n as [| f nx cnt | c leaf | occ child]; cbn [find_recurse].
  - discriminate.
  - intros H. cbn [for_each_entries]. apply find_chain_In. congruence.
  - destruct (negb (chunk_defined hashPos)); [discriminate|].
    unfold find_entry. destruct (negb (Occupation.test _ _)); [discriminate|].
    cbn [for_each_entries].
    destruct (entries leaf) as [|x l]; [discriminate|].
    intros H. apply find_scan_In. congruence.
  - destruct (negb (chunk_defined hashPos)); [discriminate|].
    destruct (negb (Occupation.test _ _)); [discriminate|].
    destruct (child_at child _) as [n|] eqn:Hc; [|discriminate].
    intros H. apply child_at_In in Hc.
    apply (for_each_child occ child n _ Hs Hc).
    apply (IH n hash_ (hashPos + 1) k v); [|exact H].
    apply sized_branch in Hs as [_ Hs]. now apply Hs.
Qed.

Lemma probe_sound n2 hashPos : forall l e,
  sized n2 = true ->
  find_common_probe hash n2 hashPos l = Some (Some e) ->
  In e l /\ chain_has (key e) (for_each_entries n2) = true.
Proof.
  induction l as [|x l IH]; intros e Hs; cbn [find_common_probe]; [discriminate|].
  destruct (find_recurse max_fuel n2 (hash (key x)) hashPos (key x)) as [r|] eqn:Hf;
    [|discriminate].
  destruct r as [v|]; cbn [is_some].
  - intros H. replace e with x by congruence. split; [now left|].
    apply find_recurse_visited in Hf; [|exact Hs].
    exact (In_chain_has (mkEntry (key x) v) _ Hf).
  - intros H. destruct (IH e Hs H) as [Hi Hk]. split; [now right|exact Hk].
Qed.

Lemma common_loop_sound : forall l1 l2 x,
  common_loop l1 l2 = Some x -> In x l1 /\ chain_has (key x) l2 = true.
Proof.
  induction l1 as [|a l1 IH1]; intros l2 x.
  - destruct l2; discriminate.
  - induction l2 as [|b l2 IH2].
    + rewrite common_loop_nil_r. discriminate.
    + rewrite common_loop_cons.
      destruct (Z.ltb_spec (key a) (key b)) as [Hab|Hab].
      * intros H. destruct (IH1 _ _ H) as [Hi Hk]. split; [now right|exact Hk].
      * destruct (Z.ltb_spec (key b) (key a)) as [Hba|Hba].
        -- intros H. destruct (IH2 H) as [Hi Hk]. split; [exact Hi|].
           cbn [chain_has existsb]. unfold chain_has in Hk. rewrite Hk.
           apply orb_true_r.
        -- intros H. replace x with a by congruence. split; [now left|].
           cbn [chain_has existsb]. replace (key b) with (key a) by lia.
           now rewrite Z.eqb_refl.
Qed.

Lemma findCommonInLeaf2_sound leaf1 leaf2 e :
  findCommonInLeaf2 leaf1 leaf2 = Some (Some e) ->
  In e (entries leaf1) /\ chain_has (key e) (entries leaf2) = true.
Proof.
  unfold findCommonInLeaf2.
  destruct (Z.land _ _ =? 0); [discriminate|].
  destruct (entries leaf1) as [|x l1]; [discriminate|].
  destruct (entries leaf2) as [|y l2]; [discriminate|].
  destruct (orb _ _); [discriminate|].
  intros H. apply common_loop_sound. congruence.
Qed.

Lemma findCommonInLeaf_sound c leaf n2 hashPos e :
  sized n2 = true ->
  findCommonInLeaf hash leaf n2 hashPos = Some (Some e) ->
  shared_key e (InnerLeafPtr c leaf) n2.
Proof.
  intros Hs. unfold shared_key. cbn [for_each_entries].
  destruct n2 as [| f nx cnt | c2 leaf2 | occ child]; cbn [findCommonInLeaf];
    try discriminate.
  - intros H. apply findCommonInLeaf2_sound in H as [Hi Hk].
    split; [now apply In_chain_has|exact Hk].
  - intros H. apply probe_sound in H as [Hi Hk]; [|exact Hs].
    split; [now apply In_chain_has|exact Hk].
Qed.

Lemma chain_has_child occ child n k :
  sized (BranchPtr occ child) = true -> In n child ->
  chain_has k (for_each_entries n) = true ->
  chain_has k (for_each_entries (BranchPtr occ child)) = true.
Proof.
  intros Hs Hn Hk. apply chain_has_In in Hk as (y & Hy & <-).
  apply In_chain_has. exact (for_each_child occ child n y Hs Hn Hy).
Qed.

Lemma find_common_probe_root_sound (n1 n2 : Node) hashPos l e :
  sized n2 = true ->
  (forall x, In x l -> In x (for_each_entries n1)) ->
  find_common_probe hash n2 hashPos l = Some (Some e) ->
  shared_key e n1 n2.
Proof.
  intros Hs Hl H. apply probe_sound in H as [Hi Hk]; [|exact Hs].
  split; [|exact Hk]. apply In_chain_has. now apply Hl.
Qed.

Lemma shared_key_sym e (n1 n2 : Node) : shared_key e n1 n2 -> shared_key e n2 n1.
Proof. intros [H1 H2]. split; assumption. Qed.

Ltac solve_shared_key :=
  let H := fresh "H" in
  intros H;
  first
    [ eapply find_common_probe_root_sound;
      [ | | exact H]; [assumption|intros ? Hx; exact Hx]
    | apply shared_key_sym; eapply find_common_probe_root_sound;
      [ | | exact H]; [assumption|intros ? Hx; exact Hx]
    | eapply findCommonInLeaf_sound; [|exact H]; assumption
    | apply shared_key_sym; eapply findCommonInLeaf_sound; [|exact H];
      assumption ].

Lemma find_common_leaf_sound fuel (n1 n2 : Node) hashPos e :
  sized n1 = true -> sized n2 = true ->
  not_branch n1 = true ->
  find_common_recurse hash (S fuel) n1 n2 hashPos = Some (Some e) ->
  shared_key e n1 n2.
Proof.
  intros Hs1 Hs2 Hn1.
  destruct n1 as [| f1 nx1 cnt1 | c1 leaf1 | occ1 child1]; [| | |discriminate].
  - destruct n2 as [| f2 nx2 cnt2 | [] leaf2 | occ2 child2];
      cbn [find_common_recurse getType Type_tag Z.ltb Z.compare Pos.compare
             Pos.compare_cont]; discriminate.
  - destruct n2 as [| f2 nx2 cnt2 | [] leaf2 | occ2 child2];
      cbn [find_common_recurse getType Type_tag Z.ltb Z.compare Pos.compare
             Pos.compare_cont];
      try discriminate; solve_shared_key.
  - destruct c1;
      destruct n2 as [| f2 nx2 cnt2 | [] leaf2 | occ2 child2];
      cbn [find_common_recurse getType Type_tag Z.ltb Z.compare Pos.compare
             Pos.compare_cont];
      try discriminate; solve_shared_key.
Qed.

Lemma find_common_recurse_swap fuel (n1 n2 : Node) hashPos :
  not_branch n2 = true ->
  find_common_recurse hash (S fuel) n1 n2 hashPos
  = if Type_tag (getType n2) <? Type_tag (getType n1)
    then find_common_recurse hash (S fuel) n2 n1 hashPos
    else find_common_recurse hash (S fuel) n1 n2 hashPos.
Proof.
  intros Hn2. destruct (Type_tag (getType n2) <? Type_tag (getType n1)) eqn:E;
    [|reflexivity].
  destruct n2 as [| f2 nx2 cnt2 | [] leaf2 | occ2 child2]; [| | | | | |discriminate];
    destruct n1 as [| f1 nx1 cnt1 | [] leaf1 | occ1 child1];
    try discriminate E; reflexivity.
Qed.

(** X23. On a tree whose branches hold one child per set occupation bit,
    an entry reported by [find] is one of the entries that
    [for_each_recurse] visits. *)
Theorem find_returns_visited_entry (root : Node) k v :
  sized root = true ->
  find hash root k = Some (Some v) ->
  In (mkEntry k v) (for_each_entries root).
Proof.
  intros Hs H. exact (find_recurse_visited max_fuel root (hash k) 0 k v Hs H).
Qed.

(** X24. Whenever [find_common] returns an entry, for two trees whose
    branches hold one child per set occupation bit and of which at least
    one is not rooted in a branch node, the key of that entry is the key
    of an entry visited in the first tree and of an entry visited in the
    second. *)
Theorem find_common_returns_shared_key (root other : Node) e :
  sized root = true -> sized other = true ->
  not_branch root || not_branch other = true ->
  find_common hash root other = Some (Some e) ->
  chain_has (key e) (for_each_entries root) = true
  /\ chain_has (key e) (for_each_entries other) = true.
Proof.
  intros Hs1 Hs2 Hn. unfold find_common. change max_fuel with (S 11).
  destruct (not_branch root) eqn:Hr.
  - exact (find_common_leaf_sound 11 root other 0 e Hs1 Hs2 Hr).
  - cbn [orb] in Hn. rewrite (find_common_recurse_swap 11 root other 0 Hn).
    destruct (Type_tag (getType other) <? Type_tag (getType root)) eqn:E.
    + intros H. apply shared_key_sym.
      exact (find_common_leaf_sound 11 other root 0 e Hs2 Hs1 Hn H).
    + destruct root as [| | |occ1 child1]; try discriminate Hr.
      destruct other as [| f2 nx2 cnt2 | [] leaf2 | occ2 child2];
        discriminate.
Qed.

End Traversal.

(** ** Erasing a key from a tree *)

Section EraseTree.

Context {V : Type}.
Variable hash : Z -> Z.

#[local] Abbreviation Entry := (HighsHashTableEntry V).
#[local] Abbreviation Node := (@NodePtr V).
#[local] Abbreviation Leaf := (@InnerLeaf V).

Implicit Types (e x : Entry) (leaf : Leaf) (k : Z) (n node : Node)
         (child : list Node).

Lemma routed_slots hashPos occ : forall child (i : Z),
  (fix slots (l : list Node) (i : Z) {struct l} : bool :=
     match l with
     | [] => true
     | c :: l' =>
         forallb (in_slot hash hashPos occ i) (node_entries c)
         && routed hash (hashPos + 1) c
         && slots l' (i + 1)
     end) child i = true ->
  forall (j : nat) n, nth_error child j = Some n ->
    forallb (in_slot hash hashPos occ (i + Z.of_nat j)) (node_entries n) = true
    /\ routed hash (hashPos + 1) n = true.
Proof.
  induction child as [|c child IH]; intros i H j n Hn.
  - destruct j; discriminate.
  - apply andb_prop in H as [H Hrest]. apply andb_prop in H as [Hc Hr].
    destruct j as [|j]; cbn [nth_error] in Hn.
    + replace n with c by congruence. rewrite Z.add_0_r. split; assumption.
    + destruct (IH (i + 1) Hrest j n Hn) as [H1 H2].
      replace (i + Z.of_nat (S j)) with (i + 1 + Z.of_nat j) by lia.
      split; assumption.
Qed.

Lemma routed_child hashPos occ child (j : nat) n :
  routed hash hashPos (BranchPtr occ child) = true ->
  nth_error child j = Some n ->
  forallb (in_slot hash hashPos occ (Z.of_nat j)) (node_entries n) = true
  /\ routed hash (hashPos + 1) n = true.
Proof.
  intros H Hn. exact (routed_slots hashPos occ child 0 H j n Hn).
Qed.

Lemma In_list_set {A} (l : list A) (i : nat) (a m : A) :
  In m (list_set l i a) ->
  m = a \/ exists j, j <> i /\ nth_error l j = Some m.
Proof.
  revert i. induction l as [|y l IH]; intros i; [intros []|].
  destruct i as [|i]; cbn [list_set In].
  - intros [<-|H]; [now left|]. right.
    apply In_nth_error in H as [j Hj]. exists (S j). split; [discriminate|exact Hj].
  - intros [<-|H].
    + right. exists 0%nat. split; [discriminate|reflexivity].
    + destruct (IH i H) as [->|(j & Hj & Hn)]; [now left|].
      right. exists (S j). split; [congruence|exact Hn].
Qed.

Lemma routed_other_slot hashPos occ k (j : nat) n :
  forallb (in_slot hash hashPos occ (Z.of_nat j)) (node_entries n) = true ->
  Occupation.num_set_until occ (get_hash_chunk (hash k) hashPos) - 1 <> Z.of_nat j ->
  chain_has k (node_entries n) = false.
Proof.
  intros Hall Hne. apply not_true_is_false. intros Hk.
  apply chain_has_In in Hk as (y & Hy & Hky).
  rewrite forallb_forall in Hall. specialize (Hall y Hy).
  unfold in_slot in Hall. cbv zeta in Hall. rewrite Hky in Hall.
  apply andb_prop in Hall as [_ Hs]. apply Z.eqb_eq in Hs. contradiction.
Qed.

Lemma find_recurse_empty_leaf fuel2 c leaf hashPos k :
  (1 <= fuel2)%nat ->
  chunk_defined hashPos = true ->
  leaf_ok hash leaf hashPos = true ->
  chain_has k (entries leaf) = false ->
  find_recurse fuel2 (InnerLeafPtr c leaf) (hash k) hashPos k = Some None.
Proof.
  intros Hf Hd Hok Hk. destruct fuel2 as [|f2]; [lia|].
  cbn [find_recurse]. rewrite Hd. cbn [negb].
  rewrite (find_entry_spec hash leaf hashPos k Hok).
  rewrite <- lookup_key_has in Hk.
  destruct (lookup_key k (entries leaf)); [discriminate|reflexivity].
Qed.

Lemma erase_leaf_then_absent fuel c leaf hashPos k :
  chunk_defined hashPos = true ->
  leaf_ok hash leaf hashPos = true ->
  exists node',
    erase_recurse hash (S fuel) (InnerLeafPtr c leaf) (hash k) hashPos k = Some node'
    /\ forall fuel2, (1 <= fuel2)%nat ->
         find_recurse fuel2 node' (hash k) hashPos k = Some None.
Proof.
  intros Hd Hok.
  destruct (erase_entry_spec hash leaf hashPos k Hok)
    as (leaf' & Her & Hok' & Hent & _ & Hlook).
  assert (Hgone : chain_has k (entries leaf') = false).
  { rewrite <- lookup_key_has, Hlook, Z.eqb_refl. reflexivity. }
  assert (Hleaf : forall c', forall fuel2, (1 <= fuel2)%nat ->
            find_recurse fuel2 (InnerLeafPtr c' leaf') (hash k) hashPos k = Some None).
  { intros c' fuel2 Hf. now apply find_recurse_empty_leaf. }
  assert (Hempty : forall fuel2, (1 <= fuel2)%nat ->
            find_recurse fuel2 (@Empty V) (hash k) hashPos k = Some None).
  { intros fuel2 Hf. destruct fuel2; [lia|reflexivity]. }
  destruct c; cbn [erase_recurse]; rewrite Hd; cbn [negb]; rewrite Her;
    cbn [prev_class].
  - destruct (chain_has k (entries leaf) && (size leaf' =? 0)).
    + exists Empty. split; [reflexivity|exact Hempty].
    + exists (InnerLeafPtr Class1 leaf'). split; [reflexivity|exact (Hleaf Class1)].
  - destruct (chain_has k (entries leaf)); cbn [andb];
      [destruct (Z.eqb_spec (size leaf') (capacity Class1)) as [Hsz|Hsz]|].
    + rewrite (mergeEntries_reproduces hash Class1 leaf' hashPos Hok') by lia.
      exists (InnerLeafPtr Class1 leaf'). split; [reflexivity|exact (Hleaf Class1)].
    + exists (InnerLeafPtr Class2 leaf'). split; [reflexivity|exact (Hleaf Class2)].
    + exists (InnerLeafPtr Class2 leaf'). split; [reflexivity|exact (Hleaf Class2)].
  - destruct (chain_has k (entries leaf)); cbn [andb];
      [destruct (Z.eqb_spec (size leaf') (capacity Class2)) as [Hsz|Hsz]|].
    + rewrite (mergeEntries_reproduces hash Class2 leaf' hashPos Hok') by lia.
      exists (InnerLeafPtr Class2 leaf'). split; [reflexivity|exact (Hleaf Class2)].
    + exists (InnerLeafPtr Class3 leaf'). split; [reflexivity|exact (Hleaf Class3)].
    + exists (InnerLeafPtr Class3 leaf'). split; [reflexivity|exact (Hleaf Class3)].
  - destruct (chain_has k (entries leaf)); cbn [andb];
      [destruct (Z.eqb_spec (size leaf') (capacity Class3)) as [Hsz|Hsz]|].
    + rewrite (mergeEntries_reproduces hash Class3 leaf' hashPos Hok') by lia.
      exists (InnerLeafPtr Class3 leaf'). split; [reflexivity|exact (Hleaf Class3)].
    + exists (InnerLeafPtr Class4 leaf'). split; [reflexivity|exact (Hleaf Class4)].
    + exists (InnerLeafPtr Class4 leaf'). split; [reflexivity|exact (Hleaf Class4)].
Qed.

Lemma well_formed_branch hashPos occ child :
  well_formed hash hashPos (BranchPtr occ child) = true ->
  chunk_defined hashPos = true
  /\ is_uint64 occ
  /\ Z.of_nat (length child) = Occupation.num_set occ
  /\ forallb (well_formed hash (hashPos + 1)) child = true.
Proof.
  cbn [well_formed]. intros H. apply andb_prop in H as [H Hall].
  apply andb_prop in H as [H Hlen]. apply andb_prop in H as [Hd Hu].
  apply Z.eqb_eq in Hlen. apply uint64b_spec in Hu. auto.
Qed.

Lemma child_at_defined child (i : Z) :
  0 <= i < Z.of_nat (length child) -> exists n, child_at child i = Some n.
Proof.
  intros Hi. unfold child_at. destruct (Z.ltb_spec i 0); [lia|].
  destruct (nth_error child (Z.to_nat i)) as [n|] eqn:E; [now exists n|].
  apply nth_error_None in E. lia.
Qed.

Lemma well_formed_count_exact hashPos n :
  well_formed hash hashPos n = true -> count_exact n = true.
Proof.
  destruct n as [| f nx cnt | c leaf | occ child]; cbn [well_formed count_exact];
    try reflexivity.
  intros H. now apply andb_prop in H as [_ H].
Qed.

Lemma emptied_slot_count_exact hashPos child (i : nat) :
  forallb (well_formed hash hashPos) child = true ->
  forallb count_exact (list_set child i Empty) = true.
Proof.
  intros Hall. apply forallb_forall. intros m Hm.
  apply In_list_set in Hm as [->|(j & _ & Hj)]; [reflexivity|].
  apply (well_formed_count_exact hashPos).
  exact (forallb_nth_error _ _ _ _ Hall Hj).
Qed.

Lemma emptied_slot_no_key hashPos occ child k :
  routed hash hashPos (BranchPtr occ child) = true ->
  0 <= Occupation.num_set_until occ (get_hash_chunk (hash k) hashPos) - 1 ->
  existsb (fun n => chain_has k (node_entries n))
    (list_set child
       (Z.to_nat (Occupation.num_set_until occ (get_hash_chunk (hash k) hashPos) - 1))
       Empty) = false.
Proof.
  intros Hr Hloc. apply not_true_is_false. intros Hex.
  apply existsb_exists in Hex as (m & Hm & Hkm).
  apply In_list_set in Hm as [->|(j & Hj & Hn)]; [discriminate|].
  destruct (routed_child hashPos occ child j m Hr Hn) as [Hslot _].
  rewrite (routed_other_slot hashPos occ k j m Hslot) in Hkm; [discriminate|].
  intros E. apply Hj. rewrite E. now rewrite Nat2Z.id.
Qed.

Lemma erase_recurse_then_absent fuel : forall node hashPos k,
  well_formed hash hashPos node = true ->
  routed hash hashPos node = true ->
  chains_safe k node = true ->
  kMaxDepth + 1 - hashPos <= Z.of_nat fuel ->
  exists node',
    erase_recurse hash fuel node (hash k) hashPos k = Some node'
    /\ forall fuel2, kMaxDepth + 1 - hashPos <= Z.of_nat fuel2 ->
         find_recurse fuel2 node' (hash k) hashPos k = Some None.
Proof.
  induction fuel as [|fuel IH]; intros node hashPos k Hwf Hr Hnl Hfuel.
  - exfalso. destruct node as [| f nx cnt | c leaf | occ child];
      try discriminate.
    + cbn [well_formed] in Hwf. apply andb_prop in Hwf as [Hd _].
      apply Z.eqb_eq in Hd. change kMaxDepth with 11 in *. lia.
    + cbn [well_formed] in Hwf. apply andb_prop in Hwf as [Hd _].
      apply chunk_defined_range in Hd. change kMaxDepth with 11 in *. lia.
    + apply well_formed_branch in Hwf as (Hd & _).
      apply chunk_defined_range in Hd. change kMaxDepth with 11 in *. lia.
  - destruct node as [| f nx cnt | c leaf | occ child]; try discriminate.
    + (* list leaf *)
      cbn [well_formed] in Hwf. apply andb_prop in Hwf as [Hpos Hcount].
      apply Z.eqb_eq in Hcount. apply Z.eqb_eq in Hpos.
      assert (Hempty : forall fuel2 : nat, kMaxDepth + 1 - hashPos <= Z.of_nat fuel2 ->
                find_recurse fuel2 (@Empty V) (hash k) hashPos k = Some None).
      { intros fuel2 H2. destruct fuel2; [lia|reflexivity]. }
      cbn [erase_recurse].
      destruct (chain_has k (f :: nx)) eqn:Hhas.
      * cbn [chains_safe] in Hnl. rewrite Hhas in Hnl. cbn [negb orb] in Hnl.
        destruct nx as [|y nx]; [|discriminate].
        cbn [chain_has existsb] in Hhas. rewrite orb_false_r in Hhas.
        cbn [erase_chain]. rewrite Hhas. cbn [length] in Hcount.
        destruct (Z.eqb_spec (cnt - 1) 0); [|lia].
        exists Empty. split; [reflexivity|exact Hempty].
      * rewrite (erase_chain_absent k nx f Hhas).
        destruct (Z.eqb_spec cnt 0); [lia|].
        eexists. split; [reflexivity|]. intros fuel2 H2.
        destruct fuel2 as [|f2]; [lia|cbn [find_recurse]].
        destruct (find_chain k (f :: nx)) as [v|] eqn:Hf; [|reflexivity].
        apply find_chain_has in Hf. congruence.
    + (* inner leaf *)
      cbn [well_formed] in Hwf. apply andb_prop in Hwf as [Hd Hinv].
      pose proof (leaf_invariant_ok hash c leaf hashPos Hinv) as Hok.
      destruct (erase_leaf_then_absent fuel c leaf hashPos k Hd Hok)
        as (node' & He & Hf).
      exists node'. split; [exact He|]. intros fuel2 H2. apply Hf.
      apply chunk_defined_range in Hd. change kMaxDepth with 11 in *. lia.
    + (* branch *)
      pose proof (well_formed_branch _ _ _ Hwf) as (Hd & Hu & Hlen & Hall).
      destruct (fuel_step hashPos fuel Hd Hfuel) as [Hf1 Hfuel'].
      pose proof (get_hash_chunk_range (hash k) hashPos) as Hc.
      cbn [erase_recurse]. rewrite Hd. cbn [negb].
      destruct (Occupation.test occ (get_hash_chunk (hash k) hashPos)) eqn:Ht;
        cbn [negb].
      * pose proof (num_set_until_slot_range occ (get_hash_chunk (hash k) hashPos)
                      Hu ltac:(lia) Ht) as Hloc.
        pose proof (emptied_slot_no_key hashPos occ child k Hr (proj1 Hloc)) as Hno.
        destruct (flip_set_bit_spec occ (get_hash_chunk (hash k) hashPos)
                    Hu ltac:(lia) Ht) as (Hclear & _ & Hnum & _).
        remember (Occupation.num_set_until occ
                    (get_hash_chunk (hash k) hashPos) - 1) as loc eqn:Eloc.
        assert (Hrange : 0 <= loc < Z.of_nat (length child)) by lia.
        destruct (child_at_defined child loc Hrange) as (n & En).
        rewrite En.
        pose proof (proj2 (child_at_Some _ _ _ En)) as Hnth.
        destruct (routed_child hashPos occ child _ n Hr Hnth) as [_ Hrn].
        assert (Hwfn : well_formed hash (hashPos + 1) n = true)
          by exact (forallb_nth_error _ _ _ _ Hall Hnth).
        assert (Hnln : chains_safe k n = true)
          by exact (forallb_nth_error _ _ _ _ Hnl Hnth).
        destruct (IH n (hashPos + 1) k Hwfn Hrn Hnln Hfuel')
          as (n' & He & Hfind).
        rewrite He.
        rewrite (child_set_defined child loc n' Hrange).
        assert (Hfuel2 : forall fuel2 : nat,
                  kMaxDepth + 1 - hashPos <= Z.of_nat fuel2 ->
                  exists f2, fuel2 = S f2
                             /\ kMaxDepth + 1 - (hashPos + 1) <= Z.of_nat f2).
        { intros fuel2 H2. apply chunk_defined_range in Hd.
          change kMaxDepth with 11 in *.
          destruct fuel2 as [|f2]; [lia|]. exists f2. split; [reflexivity|lia]. }
        destruct n' as [| f' nx' cnt' | c' leaf' | occ' child'];
          cbn [isEmpty negb].
        -- (* the child became empty *)
           assert (Hlen' :
             Z.of_nat (length (list_set child (Z.to_nat loc) (@Empty V)))
             = Occupation.num_set
                 (Occupation.flip occ (get_hash_chunk (hash k) hashPos)) + 1)
             by (rewrite list_set_length; lia).
           pose proof (emptied_slot_count_exact (hashPos + 1) child
                         (Z.to_nat loc) Hall) as Hcnt.
           revert Hlen' Hcnt Hno.
           generalize (list_set child (Z.to_nat loc) (@Empty V)).
           intros slots Hlen' Hcnt Hno.
           assert (Hloc' : 0 <= loc <= Occupation.num_set
                     (Occupation.flip occ (get_hash_chunk (hash k) hashPos)))
             by lia.
           assert (Hbranch : forall (child2 : list Node) (fuel2 : nat),
                     kMaxDepth + 1 - hashPos <= Z.of_nat fuel2 ->
                     find_recurse fuel2
                       (BranchPtr
                          (Occupation.flip occ (get_hash_chunk (hash k) hashPos))
                          child2) (hash k) hashPos k = Some None).
           { intros child2 fuel2 H2.
             destruct (Hfuel2 fuel2 H2) as (f2 & -> & _).
             cbn [find_recurse]. rewrite Hd. cbn [negb]. now rewrite Hclear. }
           destruct (Z.ltb_spec 5 (Occupation.num_set
                       (Occupation.flip occ (get_hash_chunk (hash k) hashPos))))
             as [H5|H5];
             [|destruct (Z.leb_spec kLeafBurstThreshold (estimate_loop slots 0))
                 as [Hest|Hest];
               [|destruct (Z.leb_spec kLeafBurstThreshold (sum_numEntries slots))
                   as [Hsum|Hsum]]].
           ++ rewrite (removeChild_keeps_spec hash _ slots loc hashPos Hlen'
                         Hloc' (or_introl H5)).
              eexists. split; [reflexivity|]. apply Hbranch.
           ++ rewrite (removeChild_keeps_spec hash _ slots loc hashPos Hlen'
                         Hloc' (or_intror (or_introl Hest))).
              eexists. split; [reflexivity|]. apply Hbranch.
           ++ rewrite (removeChild_keeps_spec hash _ slots loc hashPos Hlen'
                         Hloc' (or_intror (or_intror Hsum))).
              eexists. split; [reflexivity|]. apply Hbranch.
           ++ destruct (removeChild_merges_spec hash _ slots loc
                          hashPos Hlen' H5 Hest Hsum Hcnt)
                as (c & leaf & Hrm & _ & _ & Hok & _ & Hkeys).
              rewrite Hrm. eexists. split; [reflexivity|]. intros fuel2 H2.
              destruct (Hfuel2 fuel2 H2) as (f2 & -> & _).
              apply find_recurse_empty_leaf; [lia|exact Hd|exact Hok|].
              now rewrite Hkeys.
        -- eexists. split; [reflexivity|]. intros fuel2 H2.
           destruct (Hfuel2 fuel2 H2) as (f2 & -> & Hf2).
           cbn [find_recurse]. rewrite Hd, Ht. cbn [negb]. rewrite <- Eloc.
           rewrite (child_at_set child _ _ _ (child_set_defined child loc _ Hrange)).
           now apply Hfind.
        -- eexists. split; [reflexivity|]. intros fuel2 H2.
           destruct (Hfuel2 fuel2 H2) as (f2 & -> & Hf2).
           cbn [find_recurse]. rewrite Hd, Ht. cbn [negb]. rewrite <- Eloc.
           rewrite (child_at_set child _ _ _ (child_set_defined child loc _ Hrange)).
           now apply Hfind.
        -- eexists. split; [reflexivity|]. intros fuel2 H2.
           destruct (Hfuel2 fuel2 H2) as (f2 & -> & Hf2).
           cbn [find_recurse]. rewrite Hd, Ht. cbn [negb]. rewrite <- Eloc.
           rewrite (child_at_set child _ _ _ (child_set_defined child loc _ Hrange)).
           now apply Hfind.
      * eexists. split; [reflexivity|]. intros fuel2 H2.
        destruct fuel2 as [|f2];
          [apply chunk_defined_range in Hd; change kMaxDepth with 11 in *; lia|].
        cbn [find_recurse]. rewrite Hd, Ht. reflexivity.
Qed.

Lemma erase_then_absent_spec (root : Node) k :
  well_formed_root hash root = true ->
  routed hash 0 root = true ->
  chains_safe k root = true ->
  exists root',
    erase hash root k = Some root'
    /\ contains hash root' k = Some false.
Proof.
  intros Hwf Hr Hc. unfold erase, contains, find.
  assert (Hfuel : kMaxDepth + 1 - 0 <= Z.of_nat max_fuel)
    by (vm_compute; discriminate).
  assert (Hnode : well_formed hash 0 root = true ->
            exists root',
              erase_recurse hash max_fuel root (hash k) 0 k = Some root'
              /\ option_map is_some (find_recurse max_fuel root' (hash k) 0 k)
                 = Some false).
  { intros Hwf0.
    destruct (erase_recurse_then_absent max_fuel root 0 k Hwf0 Hr Hc Hfuel)
      as (root' & He & Hf).
    exists root'. split; [exact He|]. now rewrite (Hf max_fuel Hfuel). }
  destruct root as [| f nx cnt | c leaf | occ child];
    [|exact (Hnode Hwf)..].
  exists Empty. split; reflexivity.
Qed.

(** X25. On a well-formed tree in which every leaf below a branch holds
    only entries routed to its slot, and in which no list leaf holds the
    key in a chain of two or more nodes, [erase] is defined and
    [contains] reports the key as absent from the resulting tree. *)
Theorem erase_then_absent (root : Node) k :
  well_formed_root hash root = true ->
  routed hash 0 root = true ->
  chains_safe k root = true ->
  exists root',
    erase hash root k = Some root'
    /\ contains hash root' k = Some false.
Proof. exact (erase_then_absent_spec root k). Qed.

End EraseTree.

(** ** Erasing a key keeps the other keys *)

Lemma num_set_until_strict occ p q :
  is_uint64 occ -> 0 <= p < q -> q <= 63 ->
  Occupation.test occ p = true ->
  Occupation.num_set_until occ q < Occupation.num_set_until occ p.
Proof.
  intros Ho Hpq Hq Htp.
  rewrite test_testbit in Htp by lia.
  rewrite !num_set_until_window by (assumption || lia).
  set (m := (Z.to_nat (q - p) - 1)%nat). set (b := (64 - Z.to_nat q)%nat).
  assert (E : (64 - Z.to_nat p)%nat = (1 + m + b)%nat) by lia.
  rewrite E. clear E.
  rewrite !bits_between_app, bits_between_single, Htp.
  replace (p + Z.of_nat (1 + m)) with q by lia.
  pose proof (bits_between_nonneg occ (p + Z.of_nat 1) m).
  lia.
Qed.

Lemma bits_between_flip m c lo (n1 n2 : nat) :
  0 <= c -> lo + Z.of_nat n1 = c -> Z.testbit m c = true ->
  bits_between (Occupation.flip m c) lo (n1 + (1 + n2))
  = bits_between m lo (n1 + (1 + n2)) - 1.
Proof.
  intros Hc Hlo Ht. rewrite !bits_between_app, !bits_between_single, Hlo.
  rewrite flip_testbit, Ht, Z.eqb_refl by lia. cbn [xorb].
  rewrite (bits_between_ext (Occupation.flip m c) m lo n1).
  2:{ intros i Hi. rewrite flip_testbit by lia.
      destruct (Z.eqb_spec i c); [lia|apply xorb_false_r]. }
  rewrite (bits_between_ext (Occupation.flip m c) m (c + Z.of_nat 1) n2).
  2:{ intros i Hi. rewrite flip_testbit by lia.
      destruct (Z.eqb_spec i c); [lia|apply xorb_false_r]. }
  lia.
Qed.

Lemma num_set_until_flip occ c c' :
  0 <= c <= 63 -> 0 <= c' <= 63 ->
  Occupation.test occ c = true ->
  Occupation.num_set_until (Occupation.flip occ c) c'
  = Occupation.num_set_until occ c' - (if c' <=? c then 1 else 0).
Proof.
  intros Hc Hc' Ht. rewrite test_testbit in Ht by lia.
  rewrite !num_set_until_bits by lia.
  destruct (Z.leb_spec c' c) as [Hle|Hgt].
  - replace 64%nat
      with (Z.to_nat (c - c') + (1 + (63 - Z.to_nat (c - c'))))%nat by lia.
    apply bits_between_flip; [lia|lia|exact Ht].
  - rewrite Z.sub_0_r. apply bits_between_ext. intros i Hi.
    rewrite flip_testbit by lia.
    destruct (Z.eqb_spec i c); [lia|apply xorb_false_r].
Qed.

Lemma test_flip_other occ c c' :
  0 <= c -> 0 <= c' -> c' <> c ->
  Occupation.test (Occupation.flip occ c) c' = Occupation.test occ c'.
Proof.
  intros Hc Hc' Hne. rewrite !test_testbit, flip_testbit by lia.
  destruct (Z.eqb_spec c' c); [contradiction|apply xorb_false_r].
Qed.

Lemma nth_error_cut {A} (l : list A) : forall (loc i : nat),
  nth_error (firstn loc l ++ skipn (loc + 1) l) i
  = if (i <? loc)%nat then nth_error l i else nth_error l (S i).
Proof.
  induction l as [|x l IH]; intros loc i.
  - rewrite firstn_nil, skipn_nil. cbn [app].
    destruct (i <? loc)%nat; destruct i; reflexivity.
  - destruct loc as [|loc].
    + cbn [firstn skipn Nat.add app]. destruct i; reflexivity.
    + cbn [firstn skipn Nat.add app]. destruct i as [|i]; [reflexivity|].
      cbn [nth_error]. rewrite IH.
      change (S i <? S loc)%nat with (i <? loc)%nat. reflexivity.
Qed.

Section EraseKeeps.

Context {V : Type}.
Variable hash : Z -> Z.

#[local] Abbreviation Entry := (HighsHashTableEntry V).
#[local] Abbreviation Node := (@NodePtr V).
#[local] Abbreviation Leaf := (@InnerLeaf V).

Implicit Types (e x : Entry) (l : list Entry) (leaf acc : Leaf) (k : Z)
         (n node : Node) (child slots : list Node).

Lemma mergeEntries_lookup c hashPos : forall l acc acc',
  leaf_ok hash acc hashPos = true ->
  size acc + Z.of_nat (length l) <= capacity c ->
  mergeEntries hash c acc hashPos l = Some acc' ->
  forall k, lookup_key k (entries acc')
            = match lookup_key k (entries acc) with
              | Some v => Some v
              | None => lookup_key k l
              end.
Proof.
  induction l as [|x l IH]; intros acc acc' Hok Hsz; cbn [mergeEntries].
  - intros H k. replace acc' with acc by congruence.
    cbn [lookup_key]. now destruct (lookup_key k (entries acc)).
  - rewrite length_cons in Hsz.
    destruct (insert_entry_spec hash c acc hashPos x Hok ltac:(lia))
      as (acc1 & Hins & Hinv & Hlook).
    rewrite Hins.
    pose proof (insert_entry_size _ _ _ _ _ _ _ Hins) as (_ & Hs1 & _).
    intros Hm k.
    rewrite (IH acc1 acc' (leaf_invariant_ok hash _ _ _ Hinv) ltac:(lia) Hm k).
    rewrite Hlook. cbn [lookup_key].
    destruct (Z.eqb_spec k (key x)) as [->|Hne]; cbn [andb].
    + rewrite <- lookup_key_has.
      destruct (lookup_key (key x) (entries acc)); reflexivity.
    + reflexivity.
Qed.

Lemma merge_children_lookup c hashPos : forall slots acc acc',
  leaf_ok hash acc hashPos = true ->
  size acc + total_entries slots <= capacity c ->
  merge_children hash c acc hashPos slots = Some acc' ->
  forall k, lookup_key k (entries acc')
            = match lookup_key k (entries acc) with
              | Some v => Some v
              | None => lookup_slots k slots
              end.
Proof.
  induction slots as [|n slots IH]; intros acc acc' Hok Hsz; cbn [merge_children].
  - intros H k. replace acc' with acc by congruence.
    cbn [lookup_slots]. now destruct (lookup_key k (entries acc)).
  - cbn [total_entries fold_right] in Hsz. fold (total_entries slots) in Hsz.
    pose proof (total_entries_nonneg slots) as Hnn.
    rewrite mergeIntoLeaf_entries.
    destruct (mergeEntries_keys hash c hashPos (node_entries n) acc Hok ltac:(lia))
      as (acc1 & Hm1 & Hok1 & Hsz1 & _).
    rewrite Hm1. intros Hm k.
    rewrite (IH acc1 acc' Hok1 ltac:(lia) Hm k).
    rewrite (mergeEntries_lookup c hashPos (node_entries n) acc acc1 Hok
               ltac:(lia) Hm1 k).
    cbn [lookup_slots].
    destruct (lookup_key k (entries acc)); reflexivity.
Qed.

Lemma lookup_slots_none k slots :
  (forall m, In m slots -> lookup_key k (node_entries m) = None) ->
  lookup_slots k slots = None.
Proof.
  induction slots as [|n slots IH]; intros H; [reflexivity|].
  cbn [lookup_slots]. rewrite (H n (or_introl eq_refl)).
  apply IH. intros m Hm. apply H. now right.
Qed.

(** Only the slot [t] can hold the key. *)
Lemma lookup_slots_at k : forall slots (t : nat),
  (forall (j : nat) m, nth_error slots j = Some m -> j <> t ->
     lookup_key k (node_entries m) = None) ->
  lookup_slots k slots
  = match nth_error slots t with
    | Some m => lookup_key k (node_entries m)
    | None => None
    end.
Proof.
  induction slots as [|n slots IH]; intros t H.
  - destruct t; reflexivity.
  - cbn [lookup_slots]. destruct t as [|t]; cbn [nth_error].
    + rewrite (lookup_slots_none k slots).
      * now destruct (lookup_key k (node_entries n)).
      * intros m Hm. apply In_nth_error in Hm as [j Hj].
        apply (H (S j) m Hj). discriminate.
    + rewrite (H 0%nat n eq_refl ltac:(discriminate)).
      apply IH. intros j m Hj Hne. apply (H (S j)); [exact Hj|congruence].
Qed.

Lemma find_chain_lookup k l : find_chain k l = lookup_key k l.
Proof.
  induction l as [|x l IH]; [reflexivity|]. cbn [find_chain lookup_key].
  rewrite (Z.eqb_sym (key x) k). now rewrite IH.
Qed.

Lemma find_recurse_leaf_lookup fuel2 hashPos n k :
  (1 <= fuel2)%nat ->
  well_formed hash hashPos n = true -> not_branch n = true ->
  find_recurse fuel2 n (hash k) hashPos k = Some (lookup_key k (node_entries n)).
Proof.
  intros Hf Hwf Hnb. destruct fuel2 as [|f2]; [lia|].
  destruct n as [| f nx cnt | c leaf | occ child]; try discriminate;
    cbn [find_recurse node_entries].
  - now rewrite find_chain_lookup.
  - cbn [well_formed] in Hwf. apply andb_prop in Hwf as [Hd Hinv].
    rewrite Hd. cbn [negb].
    exact (find_entry_spec hash leaf hashPos k
             (leaf_invariant_ok hash c leaf hashPos Hinv)).
Qed.

Lemma sum_numEntries_nonneg slots :
  forallb count_exact slots = true -> 0 <= sum_numEntries slots.
Proof.
  induction slots as [|m slots IH]; [intros _; now vm_compute|].
  cbn [forallb]. intros H. apply andb_prop in H as [Hm Hc].
  rewrite sum_numEntries_cons. pose proof (numEntries_nonneg m Hm).
  specialize (IH Hc). lia.
Qed.

Lemma sum_small_no_branch : forall slots,
  forallb count_exact slots = true ->
  sum_numEntries slots < kLeafBurstThreshold ->
  forall m, In m slots -> not_branch m = true.
Proof.
  induction slots as [|n slots IH]; intros Hc Hs m Hm; [destruct Hm|].
  cbn [forallb] in Hc. apply andb_prop in Hc as [Hn Hc].
  rewrite sum_numEntries_cons in Hs.
  pose proof (numEntries_nonneg n Hn) as Hnn.
  pose proof (sum_numEntries_nonneg slots Hc) as Hrest.
  destruct Hm as [<-|Hm].
  - destruct n as [| f nx cnt | c leaf | occ child]; try reflexivity.
    exfalso. cbn [numEntries] in Hs. change kBranchFactor with 64 in Hs.
    change kLeafBurstThreshold with 30 in Hs. lia.
  - apply (IH Hc); [lia|exact Hm].
Qed.

Lemma routed_key_slot hashPos occ child (j : nat) m k v :
  routed hash hashPos (BranchPtr occ child) = true ->
  nth_error child j = Some m ->
  lookup_key k (node_entries m) = Some v ->
  Occupation.test occ (get_hash_chunk (hash k) hashPos) = true
  /\ Occupation.num_set_until occ (get_hash_chunk (hash k) hashPos) - 1
     = Z.of_nat j.
Proof.
  intros Hr Hn Hl.
  destruct (routed_child hash hashPos occ child j m Hr Hn) as [Hslot _].
  assert (Hk : chain_has k (node_entries m) = true)
    by (rewrite <- lookup_key_has, Hl; reflexivity).
  apply chain_has_In in Hk as (y & Hy & Hky).
  rewrite forallb_forall in Hslot. specialize (Hslot y Hy).
  unfold in_slot in Hslot. cbv zeta in Hslot. rewrite Hky in Hslot.
  apply andb_prop in Hslot as [Ht Hs]. apply Z.eqb_eq in Hs. auto.
Qed.

Lemma erase_leaf_cases fuel c leaf hashPos k :
  chunk_defined hashPos = true ->
  leaf_ok hash leaf hashPos = true ->
  exists leaf',
    leaf_ok hash leaf' hashPos = true
    /\ (forall k', k' <> k ->
          lookup_key k' (entries leaf') = lookup_key k' (entries leaf))
    /\ ((erase_recurse hash (S fuel) (InnerLeafPtr c leaf) (hash k) hashPos k
         = Some Empty /\ entries leaf' = [])
        \/ exists c',
             erase_recurse hash (S fuel) (InnerLeafPtr c leaf) (hash k) hashPos k
             = Some (InnerLeafPtr c' leaf')).
Proof.
  intros Hd Hok.
  destruct (erase_entry_spec hash leaf hashPos k Hok)
    as (leaf' & Her & Hok' & Hent & _ & Hlook).
  exists leaf'. split; [exact Hok'|]. split.
  { intros k' Hne. rewrite Hlook.
    destruct (Z.eqb_spec k' k); [contradiction|reflexivity]. }
  destruct c; cbn [erase_recurse]; rewrite Hd; cbn [negb]; rewrite Her;
    cbn [prev_class].
  - destruct (chain_has k (entries leaf)); cbn [andb];
      [destruct (Z.eqb_spec (size leaf') 0) as [Hsz|Hsz]|].
    + left. split; [reflexivity|]. unfold size in Hsz.
      destruct (entries leaf'); [reflexivity|]. rewrite length_cons in Hsz. lia.
    + right. now exists Class1.
    + right. now exists Class1.
  - destruct (chain_has k (entries leaf)); cbn [andb];
      [destruct (Z.eqb_spec (size leaf') (capacity Class1)) as [Hsz|Hsz]|].
    + rewrite (mergeEntries_reproduces hash Class1 leaf' hashPos Hok') by lia.
      right. now exists Class1.
    + right. now exists Class2.
    + right. now exists Class2.
  - destruct (chain_has k (entries leaf)); cbn [andb];
      [destruct (Z.eqb_spec (size leaf') (capacity Class2)) as [Hsz|Hsz]|].
    + rewrite (mergeEntries_reproduces hash Class2 leaf' hashPos Hok') by lia.
      right. now exists Class2.
    + right. now exists Class3.
    + right. now exists Class3.
  - destruct (chain_has k (entries leaf)); cbn [andb];
      [destruct (Z.eqb_spec (size leaf') (capacity Class3)) as [Hsz|Hsz]|].
    + rewrite (mergeEntries_reproduces hash Class3 leaf' hashPos Hok') by lia.
      right. now exists Class3.
    + right. now exists Class4.
    + right. now exists Class4.
Qed.

Lemma removeChild_merges_lookup occ slots location hashPos c leaf :
  Z.of_nat (length slots) = Occupation.num_set occ + 1 ->
  Occupation.num_set occ <= 5 ->
  estimate_loop slots 0 < kLeafBurstThreshold ->
  sum_numEntries slots < kLeafBurstThreshold ->
  forallb count_exact slots = true ->
  removeChildFromBranchNode hash occ slots location hashPos
  = Some (InnerLeafPtr c leaf) ->
  forall k, lookup_key k (entries leaf) = lookup_slots k slots.
Proof.
  intros Hlen H5 Hest Hsum Hcount.
  destruct (sum_numEntries_total slots Hcount Hsum) as [Hnn Htot].
  destruct (class_for_defined (sum_numEntries slots) ltac:(lia))
    as (c0 & Hclass & Hcap & _).
  assert (Hfit : size (@new_InnerLeaf V) + total_entries slots <= capacity c0).
  { rewrite Htot. unfold size. cbn [new_InnerLeaf entries length]. lia. }
  destruct (merge_children_keys hash c0 hashPos slots new_InnerLeaf eq_refl Hfit)
    as (leaf0 & Hm & _).
  unfold removeChildFromBranchNode.
  rewrite <- Hlen, child_prefix_all.
  change (capacity Class1) with 6.
  destruct (Z.leb_spec (Occupation.num_set occ * 6) kLeafBurstThreshold) as [_|Hbad];
    [|change kLeafBurstThreshold with 30 in Hbad; lia].
  destruct (Z.ltb_spec (estimate_loop slots 0) kLeafBurstThreshold); [|lia].
  destruct (Z.ltb_spec (sum_numEntries slots) kLeafBurstThreshold); [|lia].
  rewrite Hclass, Hm. intros Hres k.
  replace leaf with leaf0 by congruence.
  exact (merge_children_lookup c0 hashPos slots new_InnerLeaf leaf0 eq_refl
           Hfit Hm k).
Qed.

Lemma find_branch_unfold f2 occ child hash_ hashPos k :
  chunk_defined hashPos = true ->
  find_recurse (S f2) (BranchPtr occ child) hash_ hashPos k
  = if Occupation.test occ (get_hash_chunk hash_ hashPos)
    then match child_at child
                 (Occupation.num_set_until occ (get_hash_chunk hash_ hashPos) - 1)
         with
         | Some n => find_recurse f2 n hash_ (hashPos + 1) k
         | None => None
         end
    else Some None.
Proof.
  intros Hd. cbn [find_recurse]. rewrite Hd. cbn [negb].
  destruct (Occupation.test occ (get_hash_chunk hash_ hashPos)); reflexivity.
Qed.

(** After the slot of chunk [c] is cut out of the child array and its bit
    is cleared, every other set chunk still selects its own child. *)
Lemma child_at_cut occ slots c c' :
  is_uint64 occ -> 0 <= c <= 63 -> 0 <= c' <= 63 -> c' <> c ->
  Occupation.test occ c = true -> Occupation.test occ c' = true ->
  child_at (firstn (Z.to_nat (Occupation.num_set_until occ c - 1)) slots
            ++ skipn (Z.to_nat (Occupation.num_set_until occ c - 1) + 1) slots)
           (Occupation.num_set_until (Occupation.flip occ c) c' - 1)
  = child_at slots (Occupation.num_set_until occ c' - 1).
Proof.
  intros Ho Hc Hc' Hne Ht Ht'.
  rewrite (num_set_until_flip occ c c' Hc Hc' Ht).
  pose proof (num_set_until_pos occ c ltac:(lia) Ht) as Hp.
  pose proof (num_set_until_pos occ c' ltac:(lia) Ht') as Hp'.
  unfold child_at. rewrite nth_error_cut.
  destruct (Z.leb_spec c' c) as [Hle|Hgt].
  - pose proof (num_set_until_strict occ c' c Ho ltac:(lia) ltac:(lia) Ht') as Hlt.
    revert Hp Hp' Hlt.
    generalize (Occupation.num_set_until occ c), (Occupation.num_set_until occ c').
    intros a b Hp Hp' Hlt.
    destruct (Z.ltb_spec (b - 1 - 1) 0); [lia|].
    destruct (Z.ltb_spec (b - 1) 0); [lia|].
    destruct (Nat.ltb_spec (Z.to_nat (b - 1 - 1)) (Z.to_nat (a - 1))); [lia|].
    f_equal. lia.
  - pose proof (num_set_until_strict occ c c' Ho ltac:(lia) ltac:(lia) Ht) as Hlt.
    revert Hp Hp' Hlt.
    generalize (Occupation.num_set_until occ c), (Occupation.num_set_until occ c').
    intros a b Hp Hp' Hlt. rewrite Z.sub_0_r.
    destruct (Z.ltb_spec (b - 1) 0); [lia|].
    destruct (Nat.ltb_spec (Z.to_nat (b - 1)) (Z.to_nat (a - 1))); [reflexivity|lia].
Qed.

(** What the emptied child array [list_set child loc Empty] holds for a
    key: nothing in the emptied slot, and elsewhere only in the slot that
    the key's chunk selects. *)
Lemma emptied_slots_lookup hashPos occ child (loc : nat) k :
  routed hash hashPos (BranchPtr occ child) = true ->
  forall (j : nat) m,
    nth_error (list_set child loc Empty) j = Some m ->
    (j = loc /\ m = Empty)
    \/ (j <> loc /\ nth_error child j = Some m
        /\ forall v, lookup_key k (node_entries m) = Some v ->
             Occupation.test occ (get_hash_chunk (hash k) hashPos) = true
             /\ Occupation.num_set_until occ (get_hash_chunk (hash k) hashPos) - 1
                = Z.of_nat j).
Proof.
  intros Hr j m Hj. destruct (Nat.eq_dec j loc) as [->|Hne].
  - left. split; [reflexivity|].
    assert (Hlt : (loc < length child)%nat).
    { rewrite <- (list_set_length child loc (@Empty V)).
      apply nth_error_Some. congruence. }
    rewrite (list_set_nth child loc Empty Hlt) in Hj. congruence.
  - right. rewrite list_set_nth_other in Hj by congruence.
    split; [exact Hne|]. split; [exact Hj|].
    intros v Hv. exact (routed_key_slot hashPos occ child j m k v Hr Hj Hv).
Qed.

Lemma erase_recurse_keeps fuel : forall node hashPos k k' node',
  k' <> k ->
  well_formed hash hashPos node = true ->
  routed hash hashPos node = true ->
  chains_safe k node = true ->
  erase_recurse hash fuel node (hash k) hashPos k = Some node' ->
  forall fuel2 : nat, kMaxDepth + 1 - hashPos <= Z.of_nat fuel2 ->
    find_recurse fuel2 node' (hash k') hashPos k'
    = find_recurse fuel2 node (hash k') hashPos k'.
Proof.
  induction fuel as [|fuel IH]; intros node hashPos k k' node' Hne Hwf Hr Hcs;
    [discriminate|].
  destruct node as [| f nx cnt | c leaf | occ child]; try discriminate.
  - (* list leaf *)
    cbn [well_formed] in Hwf. apply andb_prop in Hwf as [Hpos Hcount].
    apply Z.eqb_eq in Hcount. apply Z.eqb_eq in Hpos.
    cbn [erase_recurse].
    destruct (chain_has k (f :: nx)) eqn:Hhas.
    + cbn [chains_safe] in Hcs. rewrite Hhas in Hcs. cbn [negb orb] in Hcs.
      destruct nx as [|y nx]; [|discriminate].
      cbn [chain_has existsb] in Hhas. rewrite orb_false_r in Hhas.
      cbn [erase_chain]. rewrite Hhas. cbn [length] in Hcount.
      destruct (Z.eqb_spec (cnt - 1) 0); [|lia].
      intros Hres fuel2 H2. replace node' with (@Empty V) by congruence.
      destruct fuel2 as [|f2]; [lia|]. cbn [find_recurse find_chain].
      apply Z.eqb_eq in Hhas.
      destruct (Z.eqb_spec (key f) k'); [congruence|reflexivity].
    + rewrite (erase_chain_absent k nx f Hhas).
      destruct (Z.eqb_spec cnt 0); [lia|].
      intros Hres fuel2 H2.
      replace node' with (ListLeafPtr f nx cnt) by congruence. reflexivity.
  - (* inner leaf *)
    cbn [well_formed] in Hwf. apply andb_prop in Hwf as [Hd Hinv].
    pose proof (leaf_invariant_ok hash c leaf hashPos Hinv) as Hok.
    destruct (erase_leaf_cases fuel c leaf hashPos k Hd Hok)
      as (leaf' & Hok' & Hlook & [[He Hnil]|[c' He]]);
      rewrite He; intros Hres fuel2 H2;
      (destruct fuel2 as [|f2];
       [apply chunk_defined_range in Hd; change kMaxDepth with 11 in *; lia|]).
    + replace node' with (@Empty V) by congruence.
      cbn [find_recurse]. rewrite Hd. cbn [negb].
      rewrite (find_entry_spec hash leaf hashPos k' Hok).
      now rewrite <- (Hlook k' Hne), Hnil.
    + replace node' with (InnerLeafPtr c' leaf') by congruence.
      cbn [find_recurse]. rewrite Hd. cbn [negb].
      rewrite (find_entry_spec hash leaf hashPos k' Hok).
      rewrite (find_entry_spec hash leaf' hashPos k' Hok').
      f_equal. now apply Hlook.
  - (* branch *)
    pose proof (well_formed_branch hash _ _ _ Hwf) as (Hd & Hu & Hlen & Hall).
    pose proof (get_hash_chunk_range (hash k) hashPos) as Hc.
    pose proof (get_hash_chunk_range (hash k') hashPos) as Hc'.
    assert (Hfuel2 : forall fuel2 : nat,
              kMaxDepth + 1 - hashPos <= Z.of_nat fuel2 ->
              exists f2, fuel2 = S f2 /\ (1 <= f2)%nat
                         /\ kMaxDepth + 1 - (hashPos + 1) <= Z.of_nat f2).
    { intros fuel2 H2. apply chunk_defined_range in Hd.
      change kMaxDepth with 11 in *.
      destruct fuel2 as [|f2]; [lia|]. exists f2. split; [reflexivity|lia]. }
    cbn [erase_recurse]. rewrite Hd. cbn [negb].
    destruct (Occupation.test occ (get_hash_chunk (hash k) hashPos)) eqn:Ht;
      cbn [negb].
    2:{ intros Hres fuel2 H2.
        replace node' with (BranchPtr occ child) by congruence. reflexivity. }
    pose proof (num_set_until_slot_range occ (get_hash_chunk (hash k) hashPos)
                  Hu ltac:(lia) Ht) as Hloc.
    destruct (flip_set_bit_spec occ (get_hash_chunk (hash k) hashPos)
                Hu ltac:(lia) Ht) as (Hclear & _ & Hnum & _).
    pose proof (emptied_slots_lookup hashPos occ child
                  (Z.to_nat (Occupation.num_set_until occ
                               (get_hash_chunk (hash k) hashPos) - 1)) k' Hr)
      as Hslots.
    assert (Hrank : forall c2, 0 <= c2 <= 63 ->
              c2 <> get_hash_chunk (hash k) hashPos ->
              Occupation.test occ c2 = true ->
              Occupation.num_set_until occ c2 - 1
              <> Occupation.num_set_until occ (get_hash_chunk (hash k) hashPos) - 1).
    { intros c2 Hc2 Hne2 Ht2.
      destruct (Z.lt_ge_cases c2 (get_hash_chunk (hash k) hashPos)) as [Hlt|Hge].
      - pose proof (num_set_until_strict occ c2 _ Hu (conj (proj1 Hc2) Hlt)
                      (proj2 Hc) Ht2). lia.
      - assert (Hgt : get_hash_chunk (hash k) hashPos < c2) by lia.
        pose proof (num_set_until_strict occ _ c2 Hu (conj (proj1 Hc) Hgt)
                      (proj2 Hc2) Ht). lia. }
    pose proof (fun c2 => child_at_cut occ
                  (list_set child
                     (Z.to_nat (Occupation.num_set_until occ
                                  (get_hash_chunk (hash k) hashPos) - 1)) Empty)
                  (get_hash_chunk (hash k) hashPos) c2 Hu Hc) as Hcut.
    remember (Occupation.num_set_until occ
                (get_hash_chunk (hash k) hashPos) - 1) as loc eqn:Eloc.
    assert (Hrange : 0 <= loc < Z.of_nat (length child)) by lia.
    destruct (child_at_defined child loc Hrange) as (n & En).
    rewrite En.
    pose proof (proj2 (child_at_Some _ _ _ En)) as Hnth.
    destruct (routed_child hash hashPos occ child _ n Hr Hnth) as [_ Hrn].
    assert (Hwfn : well_formed hash (hashPos + 1) n = true)
      by exact (forallb_nth_error _ _ _ _ Hall Hnth).
    assert (Hcsn : chains_safe k n = true)
      by exact (forallb_nth_error _ _ _ _ Hcs Hnth).
    destruct (erase_recurse hash fuel n (hash k) (hashPos + 1) k) as [n'|] eqn:He;
      [|discriminate].
    pose proof (IH n (hashPos + 1) k k' n' Hne Hwfn Hrn Hcsn He) as Hkeep.
    rewrite (child_set_defined child loc n' Hrange).
    assert (Hsame : forall f2 : nat,
              kMaxDepth + 1 - (hashPos + 1) <= Z.of_nat f2 ->
              find_recurse (S f2)
                (BranchPtr occ (list_set child (Z.to_nat loc) n'))
                (hash k') hashPos k'
              = find_recurse (S f2) (BranchPtr occ child) (hash k') hashPos k').
    { intros f2 Hf2. rewrite !find_branch_unfold by exact Hd.
      destruct (Occupation.test occ (get_hash_chunk (hash k') hashPos)) eqn:Ht';
        [|reflexivity].
      destruct (Z.eq_dec (Occupation.num_set_until occ
                            (get_hash_chunk (hash k') hashPos) - 1) loc) as [E|E].
      - rewrite E, En.
        rewrite (child_at_set child _ _ _ (child_set_defined child loc n' Hrange)).
        now apply Hkeep.
      - pose proof (num_set_until_pos occ _ (proj1 Hc') Ht') as Hp.
        rewrite (child_at_set_other child loc _ n' _
                   (child_set_defined child loc n' Hrange)) by lia.
        reflexivity. }
    destruct n' as [| f' nx' cnt' | c' leaf' | occ' child'];
      cbn [isEmpty negb];
      [|intros Hres fuel2 H2; injection Hres as <-;
        destruct (Hfuel2 fuel2 H2) as (f2 & -> & Hf21 & Hf2);
        exact (Hsame f2 Hf2)..].
    (* the child became empty *)
    assert (Hgone : forall f2 : nat, (1 <= f2)%nat ->
              kMaxDepth + 1 - (hashPos + 1) <= Z.of_nat f2 ->
              find_recurse f2 n (hash k') (hashPos + 1) k' = Some None).
    { intros f2 Hf21 Hf2. rewrite <- (Hkeep f2 Hf2).
      destruct f2; [lia|reflexivity]. }
    assert (Hlen' :
      Z.of_nat (length (list_set child (Z.to_nat loc) (@Empty V)))
      = Occupation.num_set
          (Occupation.flip occ (get_hash_chunk (hash k) hashPos)) + 1)
      by (rewrite list_set_length; lia).
    pose proof (emptied_slot_count_exact hash (hashPos + 1) child
                  (Z.to_nat loc) Hall) as Hcnt.
    assert (Hother : forall i, 0 <= i -> i <> loc ->
              child_at (list_set child (Z.to_nat loc) (@Empty V)) i
              = child_at child i).
    { intros i Hi Hil. unfold child_at. destruct (Z.ltb_spec i 0); [lia|].
      apply list_set_nth_other. lia. }
    revert Hlen' Hcnt Hslots Hcut Hother.
    generalize (list_set child (Z.to_nat loc) (@Empty V)).
    intros slots Hlen' Hcnt Hslots Hcut Hother.
    assert (Hloc' : 0 <= loc <= Occupation.num_set
              (Occupation.flip occ (get_hash_chunk (hash k) hashPos)))
      by lia.
    assert (Hbranch : forall (fuel2 : nat),
              kMaxDepth + 1 - hashPos <= Z.of_nat fuel2 ->
              find_recurse fuel2
                (BranchPtr
                   (Occupation.flip occ (get_hash_chunk (hash k) hashPos))
                   (firstn (Z.to_nat loc) slots
                    ++ skipn (Z.to_nat loc + 1) slots)) (hash k') hashPos k'
              = find_recurse fuel2 (BranchPtr occ child) (hash k') hashPos k').
    { intros fuel2 H2. destruct (Hfuel2 fuel2 H2) as (f2 & -> & Hf21 & Hf2).
      rewrite !find_branch_unfold by exact Hd.
      destruct (Z.eq_dec (get_hash_chunk (hash k') hashPos)
                  (get_hash_chunk (hash k) hashPos)) as [E|E].
      - rewrite E, Hclear, Ht, <- Eloc, En. symmetry. now apply Hgone.
      - rewrite (test_flip_other occ _ _ (proj1 Hc) (proj1 Hc') E).
        destruct (Occupation.test occ (get_hash_chunk (hash k') hashPos)) eqn:Ht';
          [|reflexivity].
        rewrite (Hcut _ Hc' E Ht Ht').
        pose proof (num_set_until_pos occ _ (proj1 Hc') Ht') as Hp.
        pose proof (Hrank _ Hc' E Ht') as Hne2.
        rewrite Hother by lia. reflexivity. }
    destruct (Z.ltb_spec 5 (Occupation.num_set
                (Occupation.flip occ (get_hash_chunk (hash k) hashPos))))
      as [H5|H5];
      [|destruct (Z.leb_spec kLeafBurstThreshold (estimate_loop slots 0))
          as [Hest|Hest];
        [|destruct (Z.leb_spec kLeafBurstThreshold (sum_numEntries slots))
            as [Hsum|Hsum]]].
    + rewrite (removeChild_keeps_spec hash _ slots loc hashPos Hlen'
                 Hloc' (or_introl H5)).
      intros Hres fuel2 H2. injection Hres as <-. now apply Hbranch.
    + rewrite (removeChild_keeps_spec hash _ slots loc hashPos Hlen'
                 Hloc' (or_intror (or_introl Hest))).
      intros Hres fuel2 H2. injection Hres as <-. now apply Hbranch.
    + rewrite (removeChild_keeps_spec hash _ slots loc hashPos Hlen'
                 Hloc' (or_intror (or_intror Hsum))).
      intros Hres fuel2 H2. injection Hres as <-. now apply Hbranch.
    + destruct (removeChild_merges_spec hash _ slots loc
                  hashPos Hlen' H5 Hest Hsum Hcnt)
        as (cm & leaf & Hrm & _ & _ & Hok & _ & _).
      pose proof (removeChild_merges_lookup _ slots loc hashPos cm leaf
                    Hlen' H5 Hest Hsum Hcnt Hrm k') as Hlk.
      rewrite Hrm. intros Hres fuel2 H2. injection Hres as <-.
      destruct (Hfuel2 fuel2 H2) as (f2 & -> & Hf21 & Hf2).
      rewrite find_branch_unfold by exact Hd.
      cbn [find_recurse]. rewrite Hd. cbn [negb].
      rewrite (find_entry_spec hash leaf hashPos k' Hok), Hlk.
      assert (Hnone : (forall (j : nat) m v,
                         nth_error slots j = Some m ->
                         lookup_key k' (node_entries m) = Some v -> False) ->
                      lookup_slots k' slots = None).
      { intros Hno. apply lookup_slots_none. intros m Hm.
        apply In_nth_error in Hm as [j Hj].
        destruct (lookup_key k' (node_entries m)) as [v|] eqn:Hv; [|reflexivity].
        exfalso. exact (Hno j m v Hj Hv). }
      destruct (Occupation.test occ (get_hash_chunk (hash k') hashPos)) eqn:Ht'.
      * pose proof (num_set_until_slot_range occ _ Hu Hc' Ht') as Hloc2.
        destruct (Z.eq_dec (Occupation.num_set_until occ
                              (get_hash_chunk (hash k') hashPos) - 1) loc) as [E|E].
        -- rewrite E, En, (Hgone f2 Hf21 Hf2). f_equal. apply Hnone.
           intros j m v Hj Hv.
           destruct (Hslots j m Hj) as [[_ ->]|(Hjl & _ & Hs)]; [discriminate|].
           destruct (Hs v Hv) as [_ Hs2]. lia.
        -- destruct (child_at_defined child
                       (Occupation.num_set_until occ
                          (get_hash_chunk (hash k') hashPos) - 1) ltac:(lia))
             as (m & Em).
           rewrite Em.
           pose proof (Hother _ (proj1 Hloc2) E) as Hsl. rewrite Em in Hsl.
           pose proof (proj2 (child_at_Some _ _ _ Hsl)) as Hnths.
           pose proof (proj2 (child_at_Some _ _ _ Em)) as Hnthc.
           rewrite (lookup_slots_at k' slots
                      (Z.to_nat (Occupation.num_set_until occ
                                   (get_hash_chunk (hash k') hashPos) - 1))).
           ++ rewrite Hnths. symmetry.
              apply find_recurse_leaf_lookup; [exact Hf21| |].
              ** exact (forallb_nth_error _ _ _ _ Hall Hnthc).
              ** apply (sum_small_no_branch slots Hcnt Hsum).
                 exact (nth_error_In _ _ Hnths).
           ++ intros j m0 Hj Hjne.
              destruct (lookup_key k' (node_entries m0)) as [v|] eqn:Hv;
                [|reflexivity].
              exfalso.
              destruct (Hslots j m0 Hj) as [[_ ->]|(Hjl & _ & Hs)]; [discriminate|].
              destruct (Hs v Hv) as [_ Hs2]. lia.
      * f_equal. apply Hnone. intros j m v Hj Hv.
        destruct (Hslots j m Hj) as [[_ ->]|(Hjl & _ & Hs)]; [discriminate|].
        destruct (Hs v Hv) as [Hs1 _]. congruence.
Qed.

Lemma erase_keeps_spec (root root' : Node) k k' :
  k' <> k ->
  well_formed_root hash root = true ->
  routed hash 0 root = true ->
  chains_safe k root = true ->
  erase hash root k = Some root' ->
  find hash root' k' = find hash root k'.
Proof.
  intros Hne Hwf Hr Hc. unfold erase, find.
  destruct root as [| f nx cnt | c leaf | occ child].
  - intros H. replace root' with (@Empty V); [reflexivity|].
    change max_fuel with 12%nat in H. cbn [erase_recurse] in H. congruence.
  - intros H. apply (erase_recurse_keeps max_fuel _ 0 k k' root' Hne Hwf Hr Hc H).
    vm_compute. discriminate.
  - intros H. apply (erase_recurse_keeps max_fuel _ 0 k k' root' Hne Hwf Hr Hc H).
    vm_compute. discriminate.
  - intros H. apply (erase_recurse_keeps max_fuel _ 0 k k' root' Hne Hwf Hr Hc H).
    vm_compute. discriminate.
Qed.

(** X26. Under the conditions of X25, [erase] of a key leaves the result
    of [find] for every other key as it was, also when the erased entry
    was the last one of its child and the branch was compacted or merged
    into a single leaf. *)
Theorem erase_keeps_other_keys (root root' : Node) k k' :
  k' <> k ->
  well_formed_root hash root = true ->
  routed hash 0 root = true ->
  chains_safe k root = true ->
  erase hash root k = Some root' ->
  find hash root' k' = find hash root k'.
Proof. exact (erase_keeps_spec root root' k k'). Qed.

End EraseKeeps.

(** ** Inserting below a branch at a chunk that has no child yet *)

Lemma flip_undoes_set occ c :
  0 <= c -> Occupation.test occ c = false ->
  Occupation.flip (Occupation.set occ c) c = occ.
Proof.
  intros Hc Ht. rewrite test_testbit in Ht by lia.
  apply Z.bits_inj'. intros i Hi.
  rewrite flip_testbit, set_testbit by lia.
  destruct (Z.eqb_spec i c) as [->|Hne].
  - rewrite Ht. reflexivity.
  - now rewrite orb_false_r, xorb_false_r.
Qed.

Lemma test_set_other occ c c' :
  0 <= c -> 0 <= c' -> c' <> c ->
  Occupation.test (Occupation.set occ c) c' = Occupation.test occ c'.
Proof.
  intros Hc Hc' Hne. rewrite !test_testbit, set_testbit by lia.
  destruct (Z.eqb_spec c' c); [contradiction|apply orb_false_r].
Qed.

Lemma num_set_until_set_other occ c c' :
  0 <= c <= 63 -> 0 <= c' <= 63 ->
  Occupation.test occ c = false ->
  Occupation.num_set_until (Occupation.set occ c) c'
  = Occupation.num_set_until occ c' + (if c' <=? c then 1 else 0).
Proof.
  intros Hc Hc' Ht.
  pose proof (num_set_until_flip (Occupation.set occ c) c c' Hc Hc'
                (test_set_same occ c (proj1 Hc))) as H.
  rewrite (flip_undoes_set occ c (proj1 Hc) Ht) in H. lia.
Qed.

Lemma nth_error_open {A} (l : list A) (x : A) (loc i : nat) :
  (loc <= length l)%nat -> i <> loc ->
  nth_error (firstn loc l ++ x :: skipn loc l) i
  = if (i <? loc)%nat then nth_error l i else nth_error l (i - 1).
Proof.
  intros Hloc Hi.
  assert (Hlen : length (firstn loc l) = loc) by (rewrite length_firstn; lia).
  destruct (Nat.ltb_spec i loc) as [Hlt|Hge].
  - rewrite nth_error_app1 by lia. rewrite nth_error_firstn.
    destruct (Nat.ltb_spec i loc); [reflexivity|lia].
  - rewrite nth_error_app2 by lia. rewrite Hlen.
    destruct (i - loc)%nat as [|m] eqn:E; [lia|].
    cbn [nth_error]. rewrite nth_error_skipn. f_equal. lia.
Qed.

Lemma nth_error_opened {A} (l : list A) (x : A) (loc : nat) :
  (loc <= length l)%nat ->
  nth_error (firstn loc l ++ x :: skipn loc l) loc = Some x.
Proof.
  intros Hloc. rewrite nth_error_app2 by (rewrite length_firstn; lia).
  rewrite length_firstn. replace (loc - Nat.min loc (length l))%nat with 0%nat by lia.
  reflexivity.
Qed.

Lemma list_set_opened {A} (l : list A) (x y : A) : forall (loc : nat),
  (loc <= length l)%nat ->
  list_set (firstn loc l ++ x :: skipn loc l) loc y
  = firstn loc l ++ y :: skipn loc l.
Proof.
  induction l as [|z l IH]; intros loc Hloc.
  - cbn [length] in Hloc. replace loc with 0%nat by lia. reflexivity.
  - destruct loc as [|loc]; [reflexivity|].
    cbn [firstn skipn app list_set]. cbn [length] in Hloc.
    now rewrite IH by lia.
Qed.

Section InsertBranch.

Context {V : Type}.
Variable hash : Z -> Z.

#[local] Abbreviation Entry := (HighsHashTableEntry V).
#[local] Abbreviation Node := (@NodePtr V).

Implicit Types (e : Entry) (k : Z) (n : Node) (child : list Node).

Lemma child_at_open occ child n c c' :
  is_uint64 occ -> 0 <= c <= 63 -> 0 <= c' <= 63 -> c' <> c ->
  Occupation.test occ c = false -> Occupation.test occ c' = true ->
  Z.of_nat (length child) = Occupation.num_set occ ->
  child_at (firstn (Z.to_nat (Occupation.num_set_until occ c)) child
            ++ n :: skipn (Z.to_nat (Occupation.num_set_until occ c)) child)
           (Occupation.num_set_until (Occupation.set occ c) c' - 1)
  = child_at child (Occupation.num_set_until occ c' - 1).
Proof.
  intros Ho Hc Hc' Hne Ht Ht' Hlen.
  pose proof (set_uint64 occ c Ho Hc) as Ho'.
  pose proof (test_set_same occ c (proj1 Hc)) as Hts.
  assert (Hts' : Occupation.test (Occupation.set occ c) c' = true)
    by (rewrite test_set_other by lia; exact Ht').
  pose proof (num_set_until_set_other occ c c Hc Hc Ht) as Ec.
  pose proof (num_set_until_set_other occ c c' Hc Hc' Ht) as Ec'.
  rewrite Z.leb_refl in Ec.
  pose proof (num_set_until_pos occ c' (proj1 Hc') Ht') as Hp'.
  pose proof (num_set_until_nonneg occ c) as Hnn.
  pose proof (num_set_until_le_num_set occ c Ho Hc) as Hle.
  rewrite Ec'. unfold child_at.
  destruct (Z.leb_spec c' c) as [Hcc|Hcc].
  - pose proof (num_set_until_strict (Occupation.set occ c) c' c Ho'
                  ltac:(lia) ltac:(lia) Hts') as Hlt.
    rewrite Ec, Ec' in Hlt.
    destruct (Z.leb_spec c' c) as [_|]; [|lia].
    revert Hp' Hnn Hle Hlt.
    generalize (Occupation.num_set_until occ c), (Occupation.num_set_until occ c').
    intros a b Hp' Hnn Hle Hlt.
    destruct (Z.ltb_spec (b + 1 - 1) 0); [lia|].
    destruct (Z.ltb_spec (b - 1) 0); [lia|].
    rewrite nth_error_open by lia.
    destruct (Nat.ltb_spec (Z.to_nat (b + 1 - 1)) (Z.to_nat a)); [lia|].
    f_equal. lia.
  - pose proof (num_set_until_strict (Occupation.set occ c) c c' Ho'
                  ltac:(lia) ltac:(lia) Hts) as Hlt.
    rewrite Ec, Ec' in Hlt.
    destruct (Z.leb_spec c' c) as [|_]; [lia|].
    revert Hp' Hnn Hle Hlt.
    generalize (Occupation.num_set_until occ c), (Occupation.num_set_until occ c').
    intros a b Hp' Hnn Hle Hlt. rewrite Z.add_0_r.
    destruct (Z.ltb_spec (b - 1) 0); [lia|].
    rewrite nth_error_open by lia.
    destruct (Nat.ltb_spec (Z.to_nat (b - 1)) (Z.to_nat a)); [reflexivity|lia].
Qed.

Lemma insert_empty_spec fuel hashPos e :
  0 <= hashPos <= kMaxDepth ->
  insert_recurse hash (S fuel) Empty (hash (key e)) hashPos e
  = Some (true, fresh_node hash hashPos e).
Proof.
  intros Hp. cbn [insert_recurse]. unfold fresh_node.
  destruct (Z.eqb_spec hashPos kMaxDepth) as [|Hne]; [reflexivity|].
  assert (Hd : chunk_defined hashPos = true)
    by (unfold chunk_defined; apply andb_true_intro; split;
        [apply Z.leb_le|apply Z.ltb_lt]; lia).
  rewrite Hd. cbn [negb].
  rewrite (insert_entry_new_key hash Class1 new_InnerLeaf hashPos e eq_refl
             ltac:(now vm_compute) eq_refl).
  reflexivity.
Qed.

Lemma find_fresh_node (fuel2 : nat) hashPos e k :
  (1 <= fuel2)%nat -> 0 <= hashPos <= kMaxDepth ->
  find_recurse fuel2 (fresh_node hash hashPos e) (hash k) hashPos k
  = Some (if k =? key e then Some (value e) else None).
Proof.
  intros Hf Hp. destruct fuel2 as [|f2]; [lia|]. unfold fresh_node.
  destruct (Z.eqb_spec hashPos kMaxDepth) as [|Hne]; cbn [find_recurse].
  - cbn [find_chain]. now rewrite (Z.eqb_sym (key e) k).
  - assert (Hd : chunk_defined hashPos = true)
      by (unfold chunk_defined; apply andb_true_intro; split;
          [apply Z.leb_le|apply Z.ltb_lt]; lia).
    rewrite Hd. cbn [negb].
    rewrite find_entry_spec.
    + reflexivity.
    + unfold leaf_ok. cbn [entries occupation sorted_keys chunk_mask andb].
      apply Z.eqb_refl.
Qed.

Lemma insert_branch_unfold f occ child hash_ hashPos e :
  chunk_defined hashPos = true ->
  Occupation.test occ (get_hash_chunk hash_ hashPos) = false ->
  insert_recurse hash (S f) (BranchPtr occ child) hash_ hashPos e
  = (child' <- addChildToBranchNode occ child (get_hash_chunk hash_ hashPos)
                 (Occupation.num_set_until occ (get_hash_chunk hash_ hashPos)) ;;
     n <- child_at child'
            (Occupation.num_set_until occ (get_hash_chunk hash_ hashPos)) ;;
     '(b, n') <- insert_recurse hash f n hash_ (hashPos + 1) e ;;
     child'' <- child_set child'
                  (Occupation.num_set_until occ (get_hash_chunk hash_ hashPos)) n' ;;
     Some (b, BranchPtr (Occupation.set occ (get_hash_chunk hash_ hashPos)) child'')).
Proof.
  intros Hd Ht. cbn [insert_recurse]. rewrite Hd. cbn [negb]. rewrite Ht.
  destruct (addChildToBranchNode occ child _ _); reflexivity.
Qed.

Lemma insert_branch_fresh fuel occ child hashPos e :
  well_formed hash hashPos (BranchPtr occ child) = true ->
  Occupation.test occ (get_hash_chunk (hash (key e)) hashPos) = false ->
  insert_recurse hash (S (S fuel)) (BranchPtr occ child) (hash (key e)) hashPos e
  = Some (true, branch_with hash occ child hashPos e)
  /\ forall k (fuel2 : nat), kMaxDepth + 1 - hashPos <= Z.of_nat fuel2 ->
       find_recurse fuel2 (branch_with hash occ child hashPos e) (hash k) hashPos k
       = if k =? key e then Some (Some (value e))
         else find_recurse fuel2 (BranchPtr occ child) (hash k) hashPos k.
Proof.
  intros Hwf Ht.
  pose proof (well_formed_branch hash _ _ _ Hwf) as (Hd & Hu & Hlen & _).
  pose proof (get_hash_chunk_range (hash (key e)) hashPos) as Hc.
  pose proof (chunk_defined_range _ Hd) as Hpos.
  pose proof (num_set_until_nonneg occ (get_hash_chunk (hash (key e)) hashPos))
    as Hnn.
  pose proof (num_set_until_le_num_set occ _ Hu Hc) as Hle.
  assert (Hnext : 0 <= hashPos + 1 <= kMaxDepth) by lia.
  unfold branch_with. cbv zeta. split.
  - rewrite (insert_branch_unfold (S fuel) occ child _ hashPos e Hd Ht).
    destruct (addChild_opens_spec occ child _ Hu Hc Ht Hlen)
      as (child1 & Ha & Hchild1 & Hlen1).
    rewrite Ha. rewrite (addChildToBranchNode_slot _ _ _ _ _ Ha).
    rewrite (insert_empty_spec fuel (hashPos + 1) e Hnext).
    rewrite num_set_set in Hlen1 by assumption.
    rewrite child_set_defined by lia.
    rewrite Hchild1, list_set_opened by lia. reflexivity.
  - intros k fuel2 H2.
    pose proof (get_hash_chunk_range (hash k) hashPos) as Hck.
    destruct fuel2 as [|f2]; [change kMaxDepth with 11 in *; lia|].
    assert (Hf2 : (1 <= f2)%nat) by (change kMaxDepth with 11 in *; lia).
    rewrite !find_branch_unfold by exact Hd.
    destruct (Z.eq_dec (get_hash_chunk (hash k) hashPos)
                (get_hash_chunk (hash (key e)) hashPos)) as [E|E].
    + rewrite E, (test_set_same occ _ (proj1 Hc)), Ht.
      rewrite (num_set_until_set occ _ (proj1 Hc) Ht).
      replace (Occupation.num_set_until occ
                 (get_hash_chunk (hash (key e)) hashPos) + 1 - 1)
        with (Occupation.num_set_until occ
                (get_hash_chunk (hash (key e)) hashPos)) by lia.
      unfold child_at.
      destruct (Z.ltb_spec (Occupation.num_set_until occ
                              (get_hash_chunk (hash (key e)) hashPos)) 0); [lia|].
      rewrite nth_error_opened by lia.
      rewrite (find_fresh_node f2 (hashPos + 1) e k Hf2 Hnext).
      now destruct (k =? key e).
    + destruct (Z.eqb_spec k (key e)) as [->|Hk]; [contradiction|].
      rewrite (test_set_other occ _ _ (proj1 Hc) (proj1 Hck) E).
      destruct (Occupation.test occ (get_hash_chunk (hash k) hashPos)) eqn:Htk;
        [|reflexivity].
      now rewrite (child_at_open occ child _ _ _ Hu Hc Hck E Ht Htk Hlen).
Qed.

(** X27. [insert_recurse] on a well-formed branch, for an entry whose hash
    chunk has no child yet: the insert returns true, the branch gets the
    bit of the chunk and a new child at the rank of the chunk (a leaf of
    size class 1, or a list leaf at the last level) that holds the entry;
    afterwards [find_recurse] returns the value of the new entry for its
    key and, for every other key, what it returned before. *)
Theorem insert_below_branch_at_fresh_chunk fuel occ child hashPos e :
  well_formed hash hashPos (BranchPtr occ child) = true ->
  Occupation.test occ (get_hash_chunk (hash (key e)) hashPos) = false ->
  insert_recurse hash (S (S fuel)) (BranchPtr occ child) (hash (key e)) hashPos e
  = Some (true, branch_with hash occ child hashPos e)
  /\ forall k (fuel2 : nat), kMaxDepth + 1 - hashPos <= Z.of_nat fuel2 ->
       find_recurse fuel2 (branch_with hash occ child hashPos e) (hash k) hashPos k
       = if k =? key e then Some (Some (value e))
         else find_recurse fuel2 (BranchPtr occ child) (hash k) hashPos k.
Proof. exact (insert_branch_fresh fuel occ child hashPos e). Qed.

End InsertBranch.

(** ** List leaves on insert, and insert followed by erase *)

Section RoundTrip.

Context {V : Type}.
Variable hash : Z -> Z.

#[local] Abbreviation Entry := (HighsHashTableEntry V).
#[local] Abbreviation Node := (@NodePtr V).
#[local] Abbreviation Leaf := (@InnerLeaf V).

Implicit Types (e x : Entry) (l : list Entry) (leaf : Leaf) (k : Z) (c : SizeClass).

Lemma lookup_key_app_one k l e :
  chain_has (key e) l = false ->
  lookup_key k (l ++ [e])
  = if k =? key e then Some (value e) else lookup_key k l.
Proof.
  induction l as [|x l IH]; cbn [app lookup_key chain_has existsb].
  - reflexivity.
  - intros H. apply orb_false_elim in H as [Hx Hl].
    destruct (Z.eqb_spec k (key x)) as [->|Hkx].
    + now rewrite Hx.
    + now apply IH.
Qed.

Lemma insert_list_leaf_spec fuel first next count hash_ hashPos e :
  count = 1 + Z.of_nat (length next) ->
  exists node',
    insert_recurse hash (S fuel) (ListLeafPtr first next count) hash_ hashPos e
    = Some (negb (chain_has (key e) (first :: next)), node')
    /\ count_exact node' = true
    /\ node_entries node'
       = (if chain_has (key e) (first :: next) then first :: next
          else (first :: next) ++ [e])
    /\ forall k (fuel2 : nat) hash2, (1 <= fuel2)%nat ->
         find_recurse fuel2 node' hash2 hashPos k
         = Some (if (k =? key e) && negb (chain_has (key e) (first :: next))
                 then Some (value e) else lookup_key k (first :: next)).
Proof.
  intros Hcount. cbn [insert_recurse].
  destruct (chain_has (key e) (first :: next)) eqn:Hhas; cbn [negb].
  - eexists. split; [reflexivity|]. split; [cbn [count_exact]; apply Z.eqb_eq; lia|].
    split; [reflexivity|]. intros k fuel2 hash2 Hf.
    destruct fuel2 as [|f2]; [lia|]. cbn [find_recurse].
    now rewrite find_chain_lookup, andb_false_r.
  - eexists. split; [reflexivity|]. split.
    { cbn [count_exact]. apply Z.eqb_eq.
      rewrite length_app, length_cons, length_nil. lia. }
    split; [reflexivity|]. intros k fuel2 hash2 Hf.
    destruct fuel2 as [|f2]; [lia|]. cbn [find_recurse].
    rewrite find_chain_lookup, andb_true_r.
    change (first :: next ++ [e]) with ((first :: next) ++ [e]).
    rewrite (lookup_key_app_one k (first :: next) e Hhas).
    now destruct (k =? key e).
Qed.

Lemma remove_key_insert_fresh e l :
  chain_has (key e) l = false -> remove_key (key e) (insert_fresh e l) = l.
Proof.
  induction l as [|x l IH]; cbn [insert_fresh remove_key chain_has existsb].
  - intros _. now rewrite Z.eqb_refl.
  - intros H. apply orb_false_elim in H as [Hx Hl].
    destruct (key e <? key x); cbn [remove_key].
    + now rewrite Z.eqb_refl.
    + rewrite (Z.eqb_sym (key e) (key x)), Hx. f_equal. now apply IH.
Qed.

Lemma leaf_ok_same_entries leaf1 leaf2 hashPos :
  leaf_ok hash leaf1 hashPos = true -> leaf_ok hash leaf2 hashPos = true ->
  entries leaf1 = entries leaf2 -> leaf1 = leaf2.
Proof.
  intros H1 H2 He. apply leaf_ok_spec in H1 as [_ H1]. apply leaf_ok_spec in H2 as [_ H2].
  destruct leaf1 as [o1 l1], leaf2 as [o2 l2]. cbn [entries occupation] in *.
  subst. reflexivity.
Qed.

Lemma insert_into_leaf_new c leaf hashPos e :
  c <> Class4 ->
  leaf_ok hash leaf hashPos = true ->
  size leaf <= capacity c ->
  chain_has (key e) (entries leaf) = false ->
  insert_into_leaf hash c leaf (hash (key e)) hashPos e
  = Some (true,
          InnerLeafPtr (if size leaf =? capacity c then next_class c else c)
            (mkInnerLeaf
               (Occupation.set (occupation leaf)
                  (get_hash_chunk (hash (key e)) hashPos))
               (insert_fresh e (entries leaf)))).
Proof.
  intros Hc Hok Hsz Hhas. unfold insert_into_leaf.
  pose proof (capacity_next_class c Hc) as Hnext.
  destruct (Z.eqb_spec (size leaf) (capacity c)) as [Hfull|Hfree].
  - rewrite (find_entry_spec hash leaf hashPos (key e) Hok).
    assert (Hl : lookup_key (key e) (entries leaf) = None).
    { pose proof (lookup_key_has (key e) (entries leaf)) as Hh.
      rewrite Hhas in Hh.
      destruct (lookup_key (key e) (entries leaf)); [discriminate|reflexivity]. }
    rewrite Hl. cbn [is_some].
    rewrite (mergeEntries_reproduces hash (next_class c) leaf hashPos Hok) by lia.
    now rewrite (insert_entry_new_key hash (next_class c) leaf hashPos e Hok
                   ltac:(lia) Hhas).
  - now rewrite (insert_entry_new_key hash c leaf hashPos e Hok ltac:(lia) Hhas).
Qed.

Lemma insert_leaf_node fuel c leaf hashPos e :
  chunk_defined hashPos = true ->
  leaf_invariant hash c leaf hashPos = true ->
  size leaf < capacity Class4 ->
  chain_has (key e) (entries leaf) = false ->
  insert_recurse hash (S fuel) (InnerLeafPtr c leaf) (hash (key e)) hashPos e
  = Some (true,
          InnerLeafPtr (if size leaf =? capacity c then next_class c else c)
            (mkInnerLeaf
               (Occupation.set (occupation leaf)
                  (get_hash_chunk (hash (key e)) hashPos))
               (insert_fresh e (entries leaf)))).
Proof.
  intros Hd Hinv H4 Hhas.
  pose proof (leaf_invariant_size hash c leaf hashPos Hinv) as Hsz.
  pose proof (leaf_invariant_ok hash c leaf hashPos Hinv) as Hok.
  destruct c; cbn [insert_recurse]; rewrite Hd; cbn [negb].
  1-3: apply insert_into_leaf_new; [discriminate|exact Hok|lia|exact Hhas].
  destruct (Z.ltb_spec (size leaf) (capacity Class4)); [|lia].
  rewrite (insert_entry_new_key hash Class4 leaf hashPos e Hok ltac:(lia) Hhas).
  destruct (Z.eqb_spec (size leaf) (capacity Class4)); [lia|reflexivity].
Qed.

Lemma insert_then_erase_leaf_node f1 f2 c leaf hashPos e :
  chunk_defined hashPos = true ->
  leaf_invariant hash c leaf hashPos = true ->
  class_tight c leaf ->
  size leaf < capacity Class4 ->
  chain_has (key e) (entries leaf) = false ->
  exists node',
    insert_recurse hash (S f1) (InnerLeafPtr c leaf) (hash (key e)) hashPos e
    = Some (true, node')
    /\ erase_recurse hash (S f2) node' (hash (key e)) hashPos (key e)
       = Some (InnerLeafPtr c leaf).
Proof.
  intros Hd Hinv Htight H4 Hhas.
  pose proof (leaf_invariant_size hash c leaf hashPos Hinv) as Hsz.
  pose proof (leaf_invariant_ok hash c leaf hashPos Hinv) as Hok.
  rewrite (insert_leaf_node f1 c leaf hashPos e Hd Hinv H4 Hhas).
  eexists. split; [reflexivity|].
  destruct (insert_entry_spec hash (if size leaf =? capacity c then next_class c else c)
              leaf hashPos e Hok) as (leaf1 & Hins & Hinv1 & _).
  { destruct (Z.eqb_spec (size leaf) (capacity c)) as [Hfull|Hfree]; [|lia].
    destruct c; [| | |change (capacity Class4) with 30 in *; lia];
      vm_compute in Hfull |- *; rewrite Hfull; reflexivity. }
  rewrite (insert_entry_new_key hash _ leaf hashPos e Hok) in Hins.
  2:{ destruct (Z.eqb_spec (size leaf) (capacity c)) as [Hfull|Hfree]; [|lia].
      destruct c; [| | |change (capacity Class4) with 30 in *; lia];
        vm_compute in Hfull |- *; rewrite Hfull; reflexivity. }
  2:{ exact Hhas. }
  assert (E1 : leaf1 = mkInnerLeaf
                 (Occupation.set (occupation leaf)
                    (get_hash_chunk (hash (key e)) hashPos))
                 (insert_fresh e (entries leaf))) by congruence.
  rewrite <- E1. clear Hins.
  assert (Hsize1 : size leaf1 = size leaf + 1).
  { rewrite E1. unfold size. cbn [entries]. rewrite insert_fresh_length. lia. }
  assert (Hhas1 : chain_has (key e) (entries leaf1) = true).
  { rewrite E1. cbn [entries]. rewrite <- lookup_key_has.
    rewrite (insert_fresh_lookup e (entries leaf) (key e) Hhas), Z.eqb_refl.
    reflexivity. }
  assert (Hent1 : remove_key (key e) (entries leaf1) = entries leaf).
  { rewrite E1. cbn [entries]. exact (remove_key_insert_fresh e _ Hhas). }
  assert (Htight1 : class_tight (if size leaf =? capacity c then next_class c else c)
                      leaf1).
  { unfold class_tight in *. rewrite Hsize1.
    destruct (Z.eqb_spec (size leaf) (capacity c)) as [Hfull|Hfree].
    - right. destruct c; cbn [next_class prev_class]; lia.
    - destruct Htight as [->|Ht]; [now left|right; lia]. }
  destruct (erase_inner_leaf_spec hash f2 _ leaf1 hashPos (key e) Hd Hinv1 Htight1)
    as (n' & Her & _ & _ & Hcase).
  rewrite Her. f_equal.
  destruct (Hcase Hhas1 ltac:(lia)) as (leaf2 & -> & Hent2 & Hinv2 & _).
  rewrite Hent1 in Hent2.
  rewrite (leaf_ok_same_entries leaf2 leaf hashPos
             (leaf_invariant_ok hash _ _ _ Hinv2) Hok Hent2).
  f_equal. unfold class_after_erase. rewrite Hsize1.
  replace (size leaf + 1 - 1) with (size leaf) by lia.
  unfold class_tight in Htight.
  destruct (Z.eqb_spec (size leaf) (capacity c)) as [Hfull|Hfree].
  - destruct c; cbn [next_class prev_class];
      try (rewrite Hfull, Z.eqb_refl; reflexivity).
    change (capacity Class4) with 30 in *. lia.
  - destruct c; cbn [prev_class] in *;
      destruct (Z.eqb_spec (size leaf) (capacity Class1));
      destruct (Z.eqb_spec (size leaf) (capacity Class2));
      destruct (Z.eqb_spec (size leaf) (capacity Class3));
      try reflexivity; try lia;
      destruct Htight as [Hc|Hc]; try discriminate Hc; lia.
Qed.

(** X28. [insert_recurse] on a list leaf whose count is the length of its
    chain: a key already in the chain is rejected and the leaf stays as
    it is; otherwise the entry is appended behind the last node and the
    count is incremented, so that it still is the length of the chain;
    afterwards the new key is found with its value and every other key
    as before. *)
Theorem insert_list_leaf_appends fuel first next count hash_ hashPos e :
  count = 1 + Z.of_nat (length next) ->
  exists node',
    insert_recurse hash (S fuel) (ListLeafPtr first next count) hash_ hashPos e
    = Some (negb (chain_has (key e) (first :: next)), node')
    /\ count_exact node' = true
    /\ node_entries node'
       = (if chain_has (key e) (first :: next) then first :: next
          else (first :: next) ++ [e])
    /\ forall k (fuel2 : nat) hash2, (1 <= fuel2)%nat ->
         find_recurse fuel2 node' hash2 hashPos k
         = Some (if (k =? key e) && negb (chain_has (key e) (first :: next))
                 then Some (value e) else lookup_key k (first :: next)).
Proof. exact (insert_list_leaf_spec fuel first next count hash_ hashPos e). Qed.

(** X29. Inserting a new key into an inner-leaf node that satisfies the
    invariant of its size class, is too large for the class below and is
    not a full leaf of class 4, and then erasing that key again, gives
    back the node as it was: the same size class, entries and occupation
    mask, also when the insert moved the leaf to the next size class. *)
Theorem insert_then_erase_restores_leaf f1 f2 c leaf hashPos e :
  chunk_defined hashPos = true ->
  leaf_invariant hash c leaf hashPos = true ->
  class_tight c leaf ->
  size leaf < capacity Class4 ->
  chain_has (key e) (entries leaf) = false ->
  exists node',
    insert_recurse hash (S f1) (InnerLeafPtr c leaf) (hash (key e)) hashPos e
    = Some (true, node')
    /\ erase_recurse hash (S f2) node' (hash (key e)) hashPos (key e)
       = Some (InnerLeafPtr c leaf).
Proof. exact (insert_then_erase_leaf_node f1 f2 c leaf hashPos e). Qed.

End RoundTrip.

(** ** Erasing the last entry below a branch *)

Section EmptyLeaf.

Context {V : Type}.
Variable hash : Z -> Z.

#[local] Abbreviation Entry := (HighsHashTableEntry V).
#[local] Abbreviation Node := (@NodePtr V).

Implicit Types (x : Entry) (k : Z) (n : Node) (child : list Node).

Lemma erase_branch_unfold f occ child hash_ hashPos k :
  chunk_defined hashPos = true ->
  Occupation.test occ (get_hash_chunk hash_ hashPos) = true ->
  erase_recurse hash (S f) (BranchPtr occ child) hash_ hashPos k
  = (n <- child_at child
            (Occupation.num_set_until occ (get_hash_chunk hash_ hashPos) - 1) ;;
     n' <- erase_recurse hash f n hash_ (hashPos + 1) k ;;
     child' <- child_set child
                 (Occupation.num_set_until occ (get_hash_chunk hash_ hashPos) - 1)
                 n' ;;
     if negb (isEmpty n') then Some (BranchPtr occ child')
     else removeChildFromBranchNode hash
            (Occupation.flip occ (get_hash_chunk hash_ hashPos)) child'
            (Occupation.num_set_until occ (get_hash_chunk hash_ hashPos) - 1)
            hashPos).
Proof.
  intros Hd Ht. cbn [erase_recurse]. rewrite Hd. cbn [negb]. rewrite Ht.
  reflexivity.
Qed.

Lemma erase_last_below_branch fuel occ o x hashPos :
  chunk_defined hashPos = true -> chunk_defined (hashPos + 1) = true ->
  is_uint64 occ -> Occupation.num_set occ = 1 ->
  Occupation.test occ (get_hash_chunk (hash (key x)) hashPos) = true ->
  leaf_ok hash (mkInnerLeaf o [x]) (hashPos + 1) = true ->
  erase_recurse hash (S (S fuel))
    (BranchPtr occ [InnerLeafPtr Class1 (mkInnerLeaf o [x])])
    (hash (key x)) hashPos (key x)
  = Some (InnerLeafPtr Class1 new_InnerLeaf).
Proof.
  intros Hd Hd1 Hu Hone Ht Hok.
  pose proof (get_hash_chunk_range (hash (key x)) hashPos) as Hc.
  pose proof (num_set_until_slot_range occ _ Hu Hc Ht) as Hloc.
  destruct (flip_set_bit_spec occ _ Hu Hc Ht) as (_ & _ & Hnum & _).
  rewrite (erase_branch_unfold (S fuel) occ _ _ hashPos (key x) Hd Ht).
  replace (Occupation.num_set_until occ
             (get_hash_chunk (hash (key x)) hashPos) - 1) with 0 by lia.
  change (child_at [InnerLeafPtr Class1 (mkInnerLeaf o [x])] 0)
    with (Some (InnerLeafPtr Class1 (mkInnerLeaf o [x]))).
  assert (Hinv : leaf_invariant hash Class1 (mkInnerLeaf o [x]) (hashPos + 1) = true)
    by (apply leaf_invariant_intro; [exact Hok|now vm_compute]).
  destruct (erase_inner_leaf_spec hash fuel Class1 (mkInnerLeaf o [x])
              (hashPos + 1) (key x) Hd1 Hinv (or_introl eq_refl))
    as (n' & Her & _ & Hempty & _).
  rewrite Her.
  rewrite (Hempty ltac:(cbn [entries chain_has existsb]; now rewrite Z.eqb_refl)
             eq_refl).
  change (child_set [InnerLeafPtr Class1 (mkInnerLeaf o [x])] 0 (@Empty V))
    with (Some [@Empty V]).
  cbn [isEmpty negb].
  destruct (removeChild_merges_spec hash
              (Occupation.flip occ (get_hash_chunk (hash (key x)) hashPos))
              [@Empty V] 0 hashPos)
    as (c & leaf & Hrm & _ & Hsmall & Hok' & Hsize & _).
  - cbn [length]. lia.
  - lia.
  - now vm_compute.
  - now vm_compute.
  - reflexivity.
  - rewrite Hrm. change (sum_numEntries [@Empty V]) with 0 in *.
    assert (Hc1 : c = Class1).
    { destruct Hsmall as [|Hbad]; [assumption|].
      pose proof (capacity_min (prev_class c)).
      change kMinLeafSize with 6 in *. lia. }
    assert (Hnil : entries leaf = []).
    { unfold size in Hsize. destruct (entries leaf); [reflexivity|].
      rewrite length_cons in Hsize. lia. }
    rewrite Hc1.
    now rewrite (leaf_ok_same_entries hash leaf new_InnerLeaf hashPos Hok'
                   eq_refl Hnil).
Qed.

(** X30. [erase] of the only entry of a tree whose root is a branch with a
    single child, a leaf of size class 1 holding that entry: the root
    becomes an inner leaf of size class 1 without entries, not the empty
    node, so that [for_each] visits nothing while [empty()] is false. *)
Theorem erase_last_entry_leaves_empty_leaf occ o x :
  is_uint64 occ -> Occupation.num_set occ = 1 ->
  Occupation.test occ (get_hash_chunk (hash (key x)) 0) = true ->
  leaf_ok hash (mkInnerLeaf o [x]) 1 = true ->
  exists root',
    erase hash (BranchPtr occ [InnerLeafPtr Class1 (mkInnerLeaf o [x])]) (key x)
    = Some root'
    /\ for_each_entries root' = []
    /\ contains hash root' (key x) = Some false
    /\ empty root' = false.
Proof.
  intros Hu Hone Ht Hok. exists (InnerLeafPtr Class1 new_InnerLeaf).
  split; [|split; [reflexivity|split; reflexivity]].
  unfold erase. change max_fuel with (S (S 10)).
  exact (erase_last_below_branch 10 occ o x 0 eq_refl eq_refl Hu Hone Ht Hok).
Qed.

End EmptyLeaf.

(** ** The public interface: inserting a key that is stored, and inserting
    twice *)

Section InsertApi.

Context {V : Type}.
Variable hash : Z -> Z.

#[local] Abbreviation Entry := (HighsHashTableEntry V).
#[local] Abbreviation Node := (@NodePtr V).

Lemma max_fuel_covers : (1 <= max_fuel)%nat /\ kMaxDepth + 1 - 0 <= Z.of_nat max_fuel.
Proof. split; vm_compute; [lia|discriminate]. Qed.

(** X1. [insert] of an entry whose key the tree already holds returns
    [false] and leaves the tree exactly as it was; the stored value is not
    replaced by the value of the new entry. *)
Theorem insert_stored_key_rejected (root : Node) (k : Z) (v v' : V) :
  representable root = true ->
  find hash root k = Some (Some v) ->
  insert hash root (mkEntry k v') = Some (false, root).
Proof.
  intros Hrep Hf. unfold insert, find in *.
  exact (insert_recurse_found hash max_fuel root (hash k) 0 (mkEntry k v') v Hrep Hf).
Qed.

(** X2. When [insert] returns [true], inserting the same entry into the
    resulting tree returns [false] and leaves that tree unchanged; this
    holds on every path of [insert_recurse], the bursts included. *)
Theorem insert_twice_second_rejected (root root' : Node) (e : Entry) :
  representable root = true ->
  insert hash root e = Some (true, root') ->
  insert hash root' e = Some (false, root').
Proof.
  intros Hrep H. unfold insert in *.
  destruct max_fuel_covers as [H1 H2].
  exact (insert_recurse_again hash max_fuel root (hash (key e)) 0 e root' max_fuel
           Hrep H H1 H2).
Qed.

(** X3. After [insert], whatever it returned, [contains] reports the key
    of the entry in the resulting tree; this holds on every path of
    [insert_recurse], the bursts included. *)
Theorem insert_then_contains (root root' : Node) (e : Entry) (b : bool) :
  representable root = true ->
  insert hash root e = Some (b, root') ->
  contains hash root' (key e) = Some true.
Proof.
  intros Hrep H. unfold insert, contains, find in *.
  destruct max_fuel_covers as [H1 H2].
  destruct (insert_recurse_then_found hash max_fuel root (hash (key e)) 0 e b root'
              max_fuel Hrep H H1 H2) as [v Hv].
  now rewrite Hv.
Qed.

End InsertApi.

Lemma insert_stored_key_rejected_witness :
  representable Examples2.two_key_leaf = true
  /\ find Examples.hash_id Examples2.two_key_leaf 7 = Some (Some 107)
  /\ insert Examples.hash_id Examples2.two_key_leaf (mkEntry 7 0)
     = Some (false, Examples2.two_key_leaf).
Proof.
  split; [reflexivity|]. split; [vm_compute; reflexivity|].
  apply (insert_stored_key_rejected Examples.hash_id Examples2.two_key_leaf 7 107 0);
    vm_compute; reflexivity.
Defined.

Lemma insert_twice_second_rejected_witness :
  representable Examples2.two_key_leaf = true
  /\ insert Examples.hash_id Examples2.two_key_leaf (Examples.entry_of 9)
     = Some (true, InnerLeafPtr Class1
                     (mkInnerLeaf 672 [Examples.entry_of 5; Examples.entry_of 7;
                                       Examples.entry_of 9]))
  /\ insert Examples.hash_id
       (InnerLeafPtr Class1
          (mkInnerLeaf 672 [Examples.entry_of 5; Examples.entry_of 7;
                            Examples.entry_of 9]))
       (Examples.entry_of 9)
     = Some (false, InnerLeafPtr Class1
                      (mkInnerLeaf 672 [Examples.entry_of 5; Examples.entry_of 7;
                                        Examples.entry_of 9])).
Proof.
  split; [reflexivity|]. split; [vm_compute; reflexivity|].
  apply (insert_twice_second_rejected Examples.hash_id Examples2.two_key_leaf);
    vm_compute; reflexivity.
Defined.

Lemma insert_then_contains_witness :
  representable Examples2.two_key_leaf = true
  /\ insert Examples.hash_id Examples2.two_key_leaf (Examples.entry_of 9)
     = Some (true, InnerLeafPtr Class1
                     (mkInnerLeaf 672 [Examples.entry_of 5; Examples.entry_of 7;
                                       Examples.entry_of 9]))
  /\ contains Examples.hash_id
       (InnerLeafPtr Class1
          (mkInnerLeaf 672 [Examples.entry_of 5; Examples.entry_of 7;
                            Examples.entry_of 9])) 9
     = Some true.
Proof.
  split; [reflexivity|]. split; [vm_compute; reflexivity|].
  apply (insert_then_contains Examples.hash_id Examples2.two_key_leaf _
           (Examples.entry_of 9) true);
    vm_compute; reflexivity.
Defined.

Lemma find_entry_finds_stored_value_witness :
  leaf_ok Examples.hash_id Examples2.leaf_5_7 0 = true
  /\ find_entry Examples2.leaf_5_7 (Examples.hash_id 7) 0 7
     = Some (lookup_key 7 (entries Examples2.leaf_5_7)).
Proof.
  split; [vm_compute; reflexivity|].
  apply (find_entry_finds_stored_value Examples.hash_id Examples2.leaf_5_7 0 7).
  vm_compute; reflexivity.
Defined.

Lemma insert_entry_keeps_invariant_witness :
  leaf_ok Examples.hash_id Examples2.leaf_5_7 0 = true
  /\ size Examples2.leaf_5_7 < capacity Class1
  /\ exists leaf',
       insert_entry Class1 Examples2.leaf_5_7
         (Examples.hash_id (key (Examples.entry_of 6))) 0 (Examples.entry_of 6)
       = Some (negb (chain_has (key (Examples.entry_of 6))
                       (entries Examples2.leaf_5_7)), leaf')
       /\ leaf_invariant Examples.hash_id Class1 leaf' 0 = true
       /\ forall k,
            lookup_key k (entries leaf')
            = if (k =? key (Examples.entry_of 6))
                 && negb (chain_has (key (Examples.entry_of 6))
                            (entries Examples2.leaf_5_7))
              then Some (value (Examples.entry_of 6))
              else lookup_key k (entries Examples2.leaf_5_7).
Proof.
  split; [vm_compute; reflexivity|]. split; [vm_compute; reflexivity|].
  apply (insert_entry_keeps_invariant Examples.hash_id Class1 Examples2.leaf_5_7 0
           (Examples.entry_of 6)); vm_compute; reflexivity.
Defined.

Lemma erase_entry_keeps_invariant_witness :
  leaf_ok Examples.hash_id Examples2.leaf_5_7 0 = true
  /\ exists leaf',
       erase_entry Examples.hash_id Examples2.leaf_5_7 (Examples.hash_id 5) 0 5
       = Some (chain_has 5 (entries Examples2.leaf_5_7), leaf')
       /\ leaf_ok Examples.hash_id leaf' 0 = true
       /\ entries leaf' = remove_key 5 (entries Examples2.leaf_5_7)
       /\ (chain_has 5 (entries Examples2.leaf_5_7) = false
           -> leaf' = Examples2.leaf_5_7)
       /\ forall k',
            lookup_key k' (entries leaf')
            = if k' =? 5 then None
              else lookup_key k' (entries Examples2.leaf_5_7).
Proof.
  split; [vm_compute; reflexivity|].
  apply (erase_entry_keeps_invariant Examples.hash_id Examples2.leaf_5_7 0 5).
  vm_compute; reflexivity.
Defined.


Lemma findCommonInLeaf_finds_shared_key_witness :
  leaf_ok Examples.hash_id Examples2.leaf_5_7 0 = true
  /\ leaf_ok Examples.hash_id Examples2.leaf_3_7 0 = true
  /\ 1 <= size Examples2.leaf_5_7 /\ 1 <= size Examples2.leaf_3_7
  /\ exists r,
       findCommonInLeaf2 Examples2.leaf_5_7 Examples2.leaf_3_7 = Some r
       /\ match r with
          | Some x => In x (entries Examples2.leaf_5_7)
                      /\ chain_has (key x) (entries Examples2.leaf_3_7) = true
          | None => forall x, In x (entries Examples2.leaf_5_7) ->
                              chain_has (key x) (entries Examples2.leaf_3_7) = false
          end.
Proof.
  split; [vm_compute; reflexivity|]. split; [vm_compute; reflexivity|].
  split; [vm_compute; discriminate|]. split; [vm_compute; discriminate|].
  apply (findCommonInLeaf_finds_shared_key Examples.hash_id
           Examples2.leaf_5_7 Examples2.leaf_3_7 0);
    vm_compute; try reflexivity; discriminate.
Defined.

Lemma erase_absent_key_changes_nothing_witness :
  well_formed_root Examples.hash_id Examples2.two_key_leaf = true
  /\ find Examples.hash_id Examples2.two_key_leaf 9 = Some None
  /\ erase Examples.hash_id Examples2.two_key_leaf 9
     = Some Examples2.two_key_leaf.
Proof.
  split; [vm_compute; reflexivity|]. split; [vm_compute; reflexivity|].
  apply (erase_absent_key_changes_nothing Examples.hash_id Examples2.two_key_leaf 9);
    vm_compute; reflexivity.
Defined.

Lemma addChild_opens_slot_witness :
  is_uint64 44 /\ 0 <= 4 <= 63
  /\ Occupation.test 44 4 = false
  /\ Z.of_nat (length Examples2.children_5_3_2) = Occupation.num_set 44
  /\ exists child',
       addChildToBranchNode 44 Examples2.children_5_3_2 4
         (Occupation.num_set_until 44 4) = Some child'
       /\ child' = firstn (Z.to_nat (Occupation.num_set_until 44 4))
                     Examples2.children_5_3_2
                   ++ Empty
                      :: skipn (Z.to_nat (Occupation.num_set_until 44 4))
                           Examples2.children_5_3_2
       /\ Z.of_nat (length child')
          = Occupation.num_set (Occupation.set 44 4).
Proof.
  assert (Hu : is_uint64 44) by (unfold is_uint64; lia).
  split; [exact Hu|]. split; [lia|].
  split; [vm_compute; reflexivity|]. split; [vm_compute; reflexivity|].
  apply (addChild_opens_slot 44 Examples2.children_5_3_2 4);
    [exact Hu|lia|vm_compute; reflexivity|vm_compute; reflexivity].
Defined.

Lemma removeChild_keeps_branch_witness :
  Z.of_nat (length Examples2.children_branch_3_gap) = Occupation.num_set 40 + 1
  /\ 0 <= 2 <= Occupation.num_set 40
  /\ kLeafBurstThreshold <= estimate_loop Examples2.children_branch_3_gap 0
  /\ removeChildFromBranchNode Examples.hash_id 40
       Examples2.children_branch_3_gap 2 0
     = Some (BranchPtr 40
               (firstn (Z.to_nat 2) Examples2.children_branch_3_gap
                ++ skipn (Z.to_nat 2 + 1) Examples2.children_branch_3_gap)).
Proof.
  split; [vm_compute; reflexivity|].
  split; [vm_compute; split; discriminate|].
  split; [vm_compute; discriminate|].
  apply (removeChild_keeps_branch Examples.hash_id 40
           Examples2.children_branch_3_gap 2 0).
  - vm_compute; reflexivity.
  - vm_compute; split; discriminate.
  - right; left. vm_compute; discriminate.
Defined.

Lemma removeChild_merges_into_leaf_witness :
  Z.of_nat (length Examples2.children_5_3_gap) = Occupation.num_set 40 + 1
  /\ Occupation.num_set 40 <= 5
  /\ estimate_loop Examples2.children_5_3_gap 0 < kLeafBurstThreshold
  /\ sum_numEntries Examples2.children_5_3_gap < kLeafBurstThreshold
  /\ forallb count_exact Examples2.children_5_3_gap = true
  /\ exists c leaf,
       removeChildFromBranchNode Examples.hash_id 40
         Examples2.children_5_3_gap 2 0 = Some (InnerLeafPtr c leaf)
       /\ sum_numEntries Examples2.children_5_3_gap <= capacity c
       /\ (c = Class1
           \/ capacity (prev_class c) < sum_numEntries Examples2.children_5_3_gap)
       /\ leaf_ok Examples.hash_id leaf 0 = true
       /\ size leaf <= sum_numEntries Examples2.children_5_3_gap
       /\ forall k, chain_has k (entries leaf)
                    = existsb (fun n => chain_has k (node_entries n))
                        Examples2.children_5_3_gap.
Proof.
  split; [vm_compute; reflexivity|].
  split; [vm_compute; discriminate|].
  split; [vm_compute; reflexivity|].
  split; [vm_compute; reflexivity|].
  split; [vm_compute; reflexivity|].
  apply (removeChild_merges_into_leaf Examples.hash_id 40
           Examples2.children_5_3_gap 2 0).
  - vm_compute; reflexivity.
  - vm_compute; discriminate.
  - vm_compute; reflexivity.
  - vm_compute; reflexivity.
  - vm_compute; reflexivity.
Defined.

Lemma insert_into_leaf_promotes_when_full_witness :
  Class1 <> Class4
  /\ leaf_ok Examples.hash_id Examples2.leaf_1_to_6 0 = true
  /\ size Examples2.leaf_1_to_6 <= capacity Class1
  /\ exists leaf',
       insert_into_leaf Examples.hash_id Class1 Examples2.leaf_1_to_6
         (Examples.hash_id (key (Examples.entry_of 9))) 0 (Examples.entry_of 9)
       = Some (negb (chain_has (key (Examples.entry_of 9))
                       (entries Examples2.leaf_1_to_6)),
               InnerLeafPtr
                 (if (size Examples2.leaf_1_to_6 =? capacity Class1)
                     && negb (chain_has (key (Examples.entry_of 9))
                                (entries Examples2.leaf_1_to_6))
                  then next_class Class1 else Class1) leaf')
       /\ leaf_ok Examples.hash_id leaf' 0 = true
       /\ size leaf'
          = size Examples2.leaf_1_to_6
            + (if chain_has (key (Examples.entry_of 9))
                    (entries Examples2.leaf_1_to_6) then 0 else 1)
       /\ forall k,
            lookup_key k (entries leaf')
            = if (k =? key (Examples.entry_of 9))
                 && negb (chain_has (key (Examples.entry_of 9))
                            (entries Examples2.leaf_1_to_6))
              then Some (value (Examples.entry_of 9))
              else lookup_key k (entries Examples2.leaf_1_to_6).
Proof.
  split; [discriminate|]. split; [vm_compute; reflexivity|].
  split; [vm_compute; discriminate|].
  apply (insert_into_leaf_promotes_when_full Examples.hash_id Class1
           Examples2.leaf_1_to_6 0 (Examples.entry_of 9));
    [discriminate|vm_compute; reflexivity|vm_compute; discriminate].
Defined.

Lemma erase_leaf_node_demotes_witness :
  chunk_defined 0 = true
  /\ leaf_invariant Examples.hash_id Class2 Examples2.leaf_1_to_7 0 = true
  /\ class_tight Class2 Examples2.leaf_1_to_7
  /\ exists n',
       erase_recurse Examples.hash_id 1 (InnerLeafPtr Class2 Examples2.leaf_1_to_7)
         (Examples.hash_id 3) 0 3 = Some n'
       /\ (chain_has 3 (entries Examples2.leaf_1_to_7) = false ->
           n' = InnerLeafPtr Class2 Examples2.leaf_1_to_7)
       /\ (chain_has 3 (entries Examples2.leaf_1_to_7) = true ->
           size Examples2.leaf_1_to_7 = 1 -> n' = Empty)
       /\ (chain_has 3 (entries Examples2.leaf_1_to_7) = true ->
           1 < size Examples2.leaf_1_to_7 ->
           exists leaf',
             n' = InnerLeafPtr (class_after_erase Class2 Examples2.leaf_1_to_7) leaf'
             /\ entries leaf' = remove_key 3 (entries Examples2.leaf_1_to_7)
             /\ leaf_invariant Examples.hash_id
                  (class_after_erase Class2 Examples2.leaf_1_to_7) leaf' 0 = true
             /\ class_tight (class_after_erase Class2 Examples2.leaf_1_to_7) leaf').
Proof.
  assert (Ht : class_tight Class2 Examples2.leaf_1_to_7)
    by (right; vm_compute; reflexivity).
  split; [reflexivity|]. split; [vm_compute; reflexivity|]. split; [exact Ht|].
  apply (erase_leaf_node_demotes Examples.hash_id 0 Class2
           Examples2.leaf_1_to_7 0 3);
    [reflexivity|vm_compute; reflexivity|exact Ht].
Defined.


Lemma erase_list_leaf_unlinks_witness :
  2 = 1 + Z.of_nat (length [Examples.entry_of 2])
  /\ before_chain_end 1 (Examples.entry_of 1) [Examples.entry_of 2]
  /\ erase_recurse Examples.hash_top 1 Examples.chain_of_two
       (Examples.hash_top 1) 11 1
     = Some (chain_node (remove_key 1 [Examples.entry_of 1; Examples.entry_of 2])).
Proof.
  assert (Hs : before_chain_end 1 (Examples.entry_of 1) [Examples.entry_of 2])
    by (intros _ _; vm_compute; reflexivity).
  split; [reflexivity|]. split; [exact Hs|].
  apply (erase_list_leaf_unlinks Examples.hash_top 0 (Examples.entry_of 1)
           [Examples.entry_of 2] 2 (Examples.hash_top 1) 11 1);
    [reflexivity|exact Hs].
Defined.

Lemma flip_clears_set_bit_witness :
  is_uint64 44 /\ 0 <= 3 <= 63
  /\ Occupation.test 44 3 = true
  /\ Occupation.test (Occupation.flip 44 3) 3 = false
  /\ Occupation.set (Occupation.flip 44 3) 3 = 44
  /\ Occupation.num_set (Occupation.flip 44 3) = Occupation.num_set 44 - 1
  /\ is_uint64 (Occupation.flip 44 3).
Proof.
  assert (Hu : is_uint64 44) by (unfold is_uint64; lia).
  split; [exact Hu|]. split; [lia|]. split; [vm_compute; reflexivity|].
  apply (flip_clears_set_bit 44 3); [exact Hu|lia|vm_compute; reflexivity].
Defined.

Lemma find_returns_visited_entry_witness :
  sized Examples2.branch_5_3_2 = true
  /\ find Examples.hash_id Examples2.branch_5_3_2 3 = Some (Some 103)
  /\ In (mkEntry 3 103) (for_each_entries Examples2.branch_5_3_2).
Proof.
  split; [vm_compute; reflexivity|]. split; [vm_compute; reflexivity|].
  apply (find_returns_visited_entry Examples.hash_id Examples2.branch_5_3_2 3 103);
    vm_compute; reflexivity.
Defined.

Lemma find_common_returns_shared_key_witness :
  sized Examples2.two_key_leaf = true
  /\ sized Examples2.branch_5_3_2 = true
  /\ not_branch Examples2.two_key_leaf || not_branch Examples2.branch_5_3_2 = true
  /\ find_common Examples.hash_id Examples2.two_key_leaf Examples2.branch_5_3_2
     = Some (Some (Examples.entry_of 5))
  /\ chain_has (key (Examples.entry_of 5))
       (for_each_entries Examples2.two_key_leaf) = true
  /\ chain_has (key (Examples.entry_of 5))
       (for_each_entries Examples2.branch_5_3_2) = true.
Proof.
  split; [vm_compute; reflexivity|]. split; [vm_compute; reflexivity|].
  split; [vm_compute; reflexivity|]. split; [vm_compute; reflexivity|].
  apply (find_common_returns_shared_key Examples.hash_id Examples2.two_key_leaf
           Examples2.branch_5_3_2 (Examples.entry_of 5));
    vm_compute; reflexivity.
Defined.

Lemma erase_then_absent_witness :
  well_formed_root Examples.hash_id Examples2.branch_5_3_2 = true
  /\ routed Examples.hash_id 0 Examples2.branch_5_3_2 = true
  /\ chains_safe 3 Examples2.branch_5_3_2 = true
  /\ exists root',
       erase Examples.hash_id Examples2.branch_5_3_2 3 = Some root'
       /\ contains Examples.hash_id root' 3 = Some false.
Proof.
  split; [vm_compute; reflexivity|]. split; [vm_compute; reflexivity|].
  split; [vm_compute; reflexivity|].
  apply (erase_then_absent Examples.hash_id Examples2.branch_5_3_2 3);
    vm_compute; reflexivity.
Defined.

Lemma erase_keeps_other_keys_witness :
  5 <> 3
  /\ well_formed_root Examples.hash_id Examples2.branch_5_3_2 = true
  /\ routed Examples.hash_id 0 Examples2.branch_5_3_2 = true
  /\ chains_safe 3 Examples2.branch_5_3_2 = true
  /\ erase Examples.hash_id Examples2.branch_5_3_2 3 = Some Examples2.merged_2_5
  /\ find Examples.hash_id Examples2.merged_2_5 5
     = find Examples.hash_id Examples2.branch_5_3_2 5.
Proof.
  split; [discriminate|]. split; [vm_compute; reflexivity|].
  split; [vm_compute; reflexivity|]. split; [vm_compute; reflexivity|].
  split; [vm_compute; reflexivity|].
  apply (erase_keeps_other_keys Examples.hash_id Examples2.branch_5_3_2
           Examples2.merged_2_5 3 5);
    [discriminate|vm_compute; reflexivity..].
Defined.

Lemma insert_below_branch_at_fresh_chunk_witness :
  well_formed Examples.hash_id 0 (BranchPtr 44 Examples2.children_5_3_2) = true
  /\ Occupation.test 44
       (get_hash_chunk (Examples.hash_id (key (Examples.entry_of 4))) 0) = false
  /\ insert_recurse Examples.hash_id 2 (BranchPtr 44 Examples2.children_5_3_2)
       (Examples.hash_id (key (Examples.entry_of 4))) 0 (Examples.entry_of 4)
     = Some (true, branch_with Examples.hash_id 44 Examples2.children_5_3_2 0
                     (Examples.entry_of 4))
  /\ forall k (fuel2 : nat), kMaxDepth + 1 - 0 <= Z.of_nat fuel2 ->
       find_recurse fuel2
         (branch_with Examples.hash_id 44 Examples2.children_5_3_2 0
            (Examples.entry_of 4)) (Examples.hash_id k) 0 k
       = if k =? key (Examples.entry_of 4)
         then Some (Some (value (Examples.entry_of 4)))
         else find_recurse fuel2 (BranchPtr 44 Examples2.children_5_3_2)
                (Examples.hash_id k) 0 k.
Proof.
  split; [vm_compute; reflexivity|]. split; [vm_compute; reflexivity|].
  apply (insert_below_branch_at_fresh_chunk Examples.hash_id 0 44
           Examples2.children_5_3_2 0 (Examples.entry_of 4));
    vm_compute; reflexivity.
Defined.

Lemma insert_list_leaf_appends_witness :
  2 = 1 + Z.of_nat (length [Examples.entry_of 2])
  /\ exists node',
       insert_recurse Examples.hash_top 1
         (ListLeafPtr (Examples.entry_of 1) [Examples.entry_of 2] 2)
         (Examples.hash_top 3) 11 (Examples.entry_of 3)
       = Some (negb (chain_has (key (Examples.entry_of 3))
                       [Examples.entry_of 1; Examples.entry_of 2]), node')
       /\ count_exact node' = true
       /\ node_entries node'
          = (if chain_has (key (Examples.entry_of 3))
                  [Examples.entry_of 1; Examples.entry_of 2]
             then [Examples.entry_of 1; Examples.entry_of 2]
             else [Examples.entry_of 1; Examples.entry_of 2]
                  ++ [Examples.entry_of 3])
       /\ forall k (fuel2 : nat) hash2, (1 <= fuel2)%nat ->
            find_recurse fuel2 node' hash2 11 k
            = Some (if (k =? key (Examples.entry_of 3))
                       && negb (chain_has (key (Examples.entry_of 3))
                                  [Examples.entry_of 1; Examples.entry_of 2])
                    then Some (value (Examples.entry_of 3))
                    else lookup_key k [Examples.entry_of 1; Examples.entry_of 2]).
Proof.
  split; [reflexivity|].
  apply (insert_list_leaf_appends Examples.hash_top 0 (Examples.entry_of 1)
           [Examples.entry_of 2] 2 (Examples.hash_top 3) 11 (Examples.entry_of 3)).
  reflexivity.
Defined.

Lemma insert_then_erase_restores_leaf_witness :
  chunk_defined 0 = true
  /\ leaf_invariant Examples.hash_id Class1 Examples2.leaf_1_to_6 0 = true
  /\ class_tight Class1 Examples2.leaf_1_to_6
  /\ size Examples2.leaf_1_to_6 < capacity Class4
  /\ chain_has (key (Examples.entry_of 9)) (entries Examples2.leaf_1_to_6) = false
  /\ exists node',
       insert_recurse Examples.hash_id 1 (InnerLeafPtr Class1 Examples2.leaf_1_to_6)
         (Examples.hash_id (key (Examples.entry_of 9))) 0 (Examples.entry_of 9)
       = Some (true, node')
       /\ erase_recurse Examples.hash_id 1 node'
            (Examples.hash_id (key (Examples.entry_of 9))) 0
            (key (Examples.entry_of 9))
          = Some (InnerLeafPtr Class1 Examples2.leaf_1_to_6).
Proof.
  assert (Ht : class_tight Class1 Examples2.leaf_1_to_6) by (left; reflexivity).
  split; [reflexivity|]. split; [vm_compute; reflexivity|]. split; [exact Ht|].
  split; [vm_compute; reflexivity|]. split; [vm_compute; reflexivity|].
  apply (insert_then_erase_restores_leaf Examples.hash_id 0 0 Class1
           Examples2.leaf_1_to_6 0 (Examples.entry_of 9));
    [reflexivity|vm_compute; reflexivity|exact Ht|vm_compute; reflexivity
    |vm_compute; reflexivity].
Defined.

Lemma erase_last_entry_leaves_empty_leaf_witness :
  is_uint64 32 /\ Occupation.num_set 32 = 1
  /\ Occupation.test 32
       (get_hash_chunk (Examples.hash_id (key (Examples.entry_of 5))) 0) = true
  /\ leaf_ok Examples.hash_id (mkInnerLeaf 1 [Examples.entry_of 5]) 1 = true
  /\ exists root',
       erase Examples.hash_id
         (BranchPtr 32 [InnerLeafPtr Class1 (mkInnerLeaf 1 [Examples.entry_of 5])])
         (key (Examples.entry_of 5)) = Some root'
       /\ for_each_entries root' = []
       /\ contains Examples.hash_id root' (key (Examples.entry_of 5)) = Some false
       /\ empty root' = false.
Proof.
  assert (Hu : is_uint64 32) by (unfold is_uint64; lia).
  split; [exact Hu|]. split; [vm_compute; reflexivity|].
  split; [vm_compute; reflexivity|]. split; [vm_compute; reflexivity|].
  apply (erase_last_entry_leaves_empty_leaf Examples.hash_id 32 1
           (Examples.entry_of 5));
    [exact Hu|vm_compute; reflexivity..].
Defined.

(** The single-child branch of the witness above arises through the public
    interface: insert the 31 keys of [Examples.keys_31] into an empty
    tree, then erase the key 3 and all keys of chunk 5 but one. Erasing
    that last key as well leaves a root that is not the empty node. *)
Lemma insert_31_erase_30_single_child_branch :
  (root <- Examples.insert_all Examples.hash_id Empty
             (map Examples.entry_of Examples.keys_31) ;;
   Examples.erase_all Examples.hash_id root
     (removelast Examples.keys_31_erase_order))
  = Some Examples2.single_child_branch.
Proof. vm_compute. reflexivity. Qed.

Lemma insert_31_erase_31_root_not_empty :
  option_map empty
    (root <- Examples.insert_all Examples.hash_id Empty
               (map Examples.entry_of Examples.keys_31) ;;
     Examples.erase_all Examples.hash_id root Examples.keys_31_erase_order)
  = Some false.
Proof. vm_compute. reflexivity. Qed.
